(** * A shallow embedding of the reactivity-to-render core

  The development follows the sources file by file:
  - [Util]: the helpers of [core/util] the embedded code calls;
  - [Observer]: [core/observer/dep.js] and [core/observer/watcher.js];
  - [Async]: the async component resolver
    ([vdom/helpers/resolve-async-component.js]);
  - [ComponentHooks]: the [insert] hook of component VNodes, the
    installation of the hooks and the [v-model] transformation
    ([vdom/create-component.js]);
  - [Transition]: [enter] and [leave] of the transition controller
    ([web/runtime/modules/transition.js]);
  - [TransitionGroup]: the render function of [transition-group.js];
  - [Slots]: [resolveSlots] of [instance/render-helpers/resolve-slots.js].
  The properties follow, one module of facts for each of these.

  JavaScript objects are referred to by identity.  Watchers and
  dependency nodes carry a unique [id] drawn from a counter, so the id
  is used as the reference and the objects live in finite maps. *)

From stdpp Require Import gmap strings list fin_maps sorting pretty.

Set Default Proof Using "Type".
Set Warnings "-clear-no-such-hyp".

(** ** Helpers of [core/util] *)
Module Util.

(** Modelled from the spec: [remove(arr, item)] of [shared/util], which
    the sources import but which is not among them.  "removes by
    identity": the first occurrence of [item] is spliced out, the array
    is left alone when [item] does not occur. *)
Fixpoint remove {A} `{EqDecision A} (arr : list A) (item : A) : list A :=
  match arr with
  | [] => []
  | x :: rest => if decide (x = item) then rest else x :: remove rest item
  end.

(** Modelled from the spec: [once(fn)] of [shared/util].  The wrapper
    owns a flag ("fired"), checked before the effect runs and set when
    it runs for the first time.  The flag lives in the state [S] the
    effect acts on; [fired] reads it and [mark] sets it. *)
Definition once {S} (fired : S → bool) (mark : S → S) (fn : S → S) : S → S :=
  λ s, if fired s then s else fn (mark s).

End Util.

(** ** [core/observer]: dependency nodes and watchers *)
Module Observer.

(** A value of Flow type [?Watcher]: [null], [undefined] or a watcher
    (referred to by its id). *)
Inductive MaybeWatcher :=
| JsNull
| JsUndefined
| WatcherRef (id : nat).

Global Instance MaybeWatcher_eq_dec : EqDecision MaybeWatcher.
Proof. solve_decision. Defined.

(** JavaScript truthiness of a [?Watcher], as tested by [if (Dep.target)]:
    the watcher the value denotes, if any. *)
Definition active_watcher (t : MaybeWatcher) : option nat :=
  match t with
  | WatcherRef w => Some w
  | JsNull | JsUndefined => None
  end.

(** The object an id-set field ([depIds], [newDepIds]) holds.  A
    [SimpleSet] is an instance of util's [_Set] (imported as [Set]) with
    [has] and [add].  [ForeignObject] is any other object: it has neither
    method, and calling one raises a [TypeError]. *)
Inductive IdSet :=
| SimpleSet (ids : gset nat)
| ForeignObject.

Inductive JsError :=
| TypeError
| Thrown (e : nat).

Inductive Value :=
| VUndefined
| VPrimitive (n : Z)
| VObject (ref : nat).

Global Instance IdSet_eq_dec : EqDecision IdSet.
Proof. solve_decision. Defined.
Global Instance JsError_eq_dec : EqDecision JsError.
Proof. solve_decision. Defined.
Global Instance Value_eq_dec : EqDecision Value.
Proof. solve_decision. Defined.

(** What an evaluator does when called: it reads reactive properties,
    each read running [dep.depend()] on the property's dependency node
    ([reads], in order), and then returns a value or throws.
    [deep_reads] are the nodes reached by [traverse(value)] on the value
    returned. *)
Record Script := {
  reads : list nat;
  outcome : Value + nat;
  deep_reads : list nat
}.

Inductive Getter :=
| Noop
| Fn (body : Script).

Record Watcher := {
  vm : nat;
  deep : bool;
  user : bool;
  lazy : bool;
  sync : bool;
  dirty : bool;
  active : bool;
  deps : list nat;
  newDeps : list nat;
  depIds : IdSet;
  newDepIds : IdSet;
  getter : Getter;
  value : Value
}.

Record Component := {
  _isBeingDestroyed : bool;
  _watcher : option nat;
  _watchers : list nat
}.

Inductive Event :=
| Warn (msg : string)
| HandleError (e : JsError) (w : nat).

(** The heap the two files act on.  [subs] maps the id of a dependency
    node to its subscriber array; [Dep_target] and [targetStack] are the
    module-level variables of dep.js, [uid] the counter of watcher.js. *)
Record Store := {
  subs : gmap nat (list nat);
  watchers : gmap nat Watcher;
  components : gmap nat Component;
  Dep_target : MaybeWatcher;
  targetStack : list MaybeWatcher;
  uid : nat;
  events : list Event
}.

Definition set_subs (f : gmap nat (list nat) → gmap nat (list nat)) (st : Store) : Store :=
  {| subs := f (subs st); watchers := watchers st; components := components st;
     Dep_target := Dep_target st; targetStack := targetStack st;
     uid := uid st; events := events st |}.

Definition set_watchers (f : gmap nat Watcher → gmap nat Watcher) (st : Store) : Store :=
  {| subs := subs st; watchers := f (watchers st); components := components st;
     Dep_target := Dep_target st; targetStack := targetStack st;
     uid := uid st; events := events st |}.

Definition set_components (f : gmap nat Component → gmap nat Component) (st : Store) : Store :=
  {| subs := subs st; watchers := watchers st; components := f (components st);
     Dep_target := Dep_target st; targetStack := targetStack st;
     uid := uid st; events := events st |}.

Definition set_target (t : MaybeWatcher) (stack : list MaybeWatcher) (st : Store) : Store :=
  {| subs := subs st; watchers := watchers st; components := components st;
     Dep_target := t; targetStack := stack;
     uid := uid st; events := events st |}.

Definition set_uid (n : nat) (st : Store) : Store :=
  {| subs := subs st; watchers := watchers st; components := components st;
     Dep_target := Dep_target st; targetStack := targetStack st;
     uid := n; events := events st |}.

Definition emit (e : Event) (st : Store) : Store :=
  {| subs := subs st; watchers := watchers st; components := components st;
     Dep_target := Dep_target st; targetStack := targetStack st;
     uid := uid st; events := events st ++ [e] |}.

(** The state when dep.js and watcher.js have been loaded:
    [Dep.target = null], [targetStack = []], [uid = 0]. *)
Definition initial : Store :=
  {| subs := ∅; watchers := ∅; components := ∅;
     Dep_target := JsNull; targetStack := [];
     uid := 0; events := [] |}.

(** *** dep.js *)

(** [addSub (sub) { this.subs.push(sub) }] *)
Definition addSub (d sub : nat) (st : Store) : Store :=
  set_subs (λ m, <[d := default [] (m !! d) ++ [sub]]> m) st.

(** [removeSub (sub) { remove(this.subs, sub) }] *)
Definition removeSub (d sub : nat) (st : Store) : Store :=
  set_subs (alter (λ l, Util.remove l sub) d) st.

(** [targetStack.push(target); Dep.target = target] *)
Definition pushTarget (target : MaybeWatcher) (st : Store) : Store :=
  set_target target (targetStack st ++ [target]) st.

(** [targetStack.pop(); Dep.target = targetStack[targetStack.length - 1]].
    Popping an empty array leaves it empty, and reading index [-1] of an
    array yields [undefined]. *)
Definition popTarget (st : Store) : Store :=
  let stack := removelast (targetStack st) in
  set_target (default JsUndefined (last stack)) stack st.

(** The stores the program can be in as far as the active-watcher pointer
    is concerned: the two variables are private to dep.js and are written
    by [pushTarget] and [popTarget] only; every other operation of the
    program leaves them alone ([other]). *)
Inductive reachable : Store → Prop :=
| reach_initial : reachable initial
| reach_push t st : reachable st → reachable (pushTarget t st)
| reach_pop st : reachable st → reachable (popTarget st)
| reach_other st st' :
    reachable st →
    Dep_target st' = Dep_target st → targetStack st' = targetStack st →
    reachable st'.

(** A method either completes with a result or throws; either way the
    store it leaves behind is the one later code sees. *)
Inductive Result (A : Type) :=
| Ok (a : A)
| Throw (e : JsError).
Arguments Ok {A} a.
Arguments Throw {A} e.

Definition M (A : Type) : Type := Store → Result A * Store.

Definition ret {A} (a : A) : M A := λ st, (Ok a, st).

Definition throw {A} (e : JsError) : M A := λ st, (Throw e, st).

Definition bind {A B} (m : M A) (k : A → M B) : M B :=
  λ st, match m st with
        | (Ok a, st') => k a st'
        | (Throw e, st') => (Throw e, st')
        end.

Definition modify (f : Store → Store) : M unit := λ st, (Ok tt, f st).

Notation "'do' x <- m ; k" := (bind m (λ x, k))
  (at level 10, x name, m at level 100, k at level 200, only parsing).
Notation "m ;; k" := (bind m (λ _, k))
  (at level 100, k at level 200, right associativity, only parsing).

Section notify.

(** [process.env.NODE_ENV === 'production'] and [config.async]. *)
Variable production : bool.
Variable config_async : bool.

(** [subs[i].update()]: the subscriber's method.  Through [run] and the
    scheduler it reaches user code, which may do anything to the store,
    the subscriber arrays included, and may throw. *)
Variable update : nat → M unit.

(** [process.env.NODE_ENV !== 'production' && !config.async], the
    condition under which [notify] sorts; the comment on it in the source
    reads "subs aren't sorted in scheduler if not running async". *)
Definition not_running_async : bool := negb production && negb config_async.

(** [subs.sort((a, b) => a.id - b.id)]: ascending order of the ids.  A
    subscriber is referred to by its id, so elements that compare equal
    are the same watcher and the result is the same for every sorting
    algorithm. *)
Definition sort_by_id (l : list nat) : list nat := merge_sort (≤) l.

(** [for (let i = 0, l = subs.length; i < l; i++) subs[i].update()];
    [n] is the number of iterations left, [l - i].  An [update] that
    throws ends the loop, and the call of a method of [subs[i]] when
    there is no such element is a [TypeError].  The last component is
    the sequence of subscribers [update] has been invoked on. *)
Fixpoint notify_loop (snapshot : list nat) (i n : nat) (called : list nat)
    (st : Store) : Result unit * Store * list nat :=
  match n with
  | 0 => (Ok tt, st, called)
  | S n' =>
      match snapshot !! i with
      | Some w =>
          match update w st with
          | (Ok _, st') => notify_loop snapshot (S i) n' (called ++ [w]) st'
          | (Throw e, st') => (Throw e, st', called ++ [w])
          end
      | None => (Throw TypeError, st, called)
      end
  end.

(** [notify ()] on the dependency node [d]: how the call completes, the
    store it leaves, and the subscribers [update] was invoked on. *)
Definition notify (d : nat) (st : Store) : Result unit * Store * list nat :=
  let snapshot := default [] (subs st !! d) in
  let snapshot := if not_running_async then sort_by_id snapshot else snapshot in
  notify_loop snapshot 0 (length snapshot) [] st.

End notify.

(** *** watcher.js *)

(** [this], for a method running on the watcher [w]. *)
Definition this_watcher (w : nat) : M Watcher :=
  λ st, match watchers st !! w with
        | Some this => (Ok this, st)
        | None => (Throw TypeError, st)
        end.

Definition this_component (c : nat) : M Component :=
  λ st, match components st !! c with
        | Some this => (Ok this, st)
        | None => (Throw TypeError, st)
        end.

(** [ids.has(id)] *)
Definition has (ids : IdSet) (id : nat) : M bool :=
  match ids with
  | SimpleSet s => ret (bool_decide (id ∈ s))
  | ForeignObject => throw TypeError
  end.

(** [ids.add(id)]: the set object after the call. *)
Definition add (ids : IdSet) (id : nat) : M IdSet :=
  match ids with
  | SimpleSet s => ret (SimpleSet ({[id]} ∪ s))
  | ForeignObject => throw TypeError
  end.

Definition set_collecting (ids : IdSet) (ds : list nat) (this : Watcher) : Watcher :=
  {| vm := vm this; deep := deep this; user := user this; lazy := lazy this;
     sync := sync this; dirty := dirty this; active := active this;
     deps := deps this; newDeps := ds;
     depIds := depIds this; newDepIds := ids;
     getter := getter this; value := value this |}.

Definition set_active (b : bool) (this : Watcher) : Watcher :=
  {| vm := vm this; deep := deep this; user := user this; lazy := lazy this;
     sync := sync this; dirty := dirty this; active := b;
     deps := deps this; newDeps := newDeps this;
     depIds := depIds this; newDepIds := newDepIds this;
     getter := getter this; value := value this |}.

Definition set_value (v : Value) (this : Watcher) : Watcher :=
  {| vm := vm this; deep := deep this; user := user this; lazy := lazy this;
     sync := sync this; dirty := dirty this; active := active this;
     deps := deps this; newDeps := newDeps this;
     depIds := depIds this; newDepIds := newDepIds this;
     getter := getter this; value := v |}.

(** [addDep (dep)], with [d] the node's id:
[[
    if (!this.newDepIds.has(id)) {
      this.newDepIds.add(id)
      this.newDeps.push(dep)
      if (!this.depIds.has(id)) { dep.addSub(this) }
    }
]] *)
Definition addDep (w d : nat) : M unit :=
  do this <- this_watcher w;
  do seen <- has (newDepIds this) d;
  if seen then ret tt
  else
    do ids <- add (newDepIds this) d;
    modify (set_watchers (<[w := set_collecting ids (newDeps this ++ [d]) this]>)) ;;
    do known <- has (depIds this) d;
    if known then ret tt else modify (addSub d w).

(** [depend () { if (Dep.target) { Dep.target.addDep(this) } }] of dep.js *)
Definition depend (d : nat) : M unit :=
  λ st, match active_watcher (Dep_target st) with
        | Some w => addDep w d st
        | None => (Ok tt, st)
        end.

(** The reads of an evaluator, one after the other; an exception raised
    by a read ends the evaluation. *)
Fixpoint touch (ds : list nat) : M unit :=
  match ds with
  | [] => ret tt
  | d :: rest => depend d ;; touch rest
  end.

(** [this.getter.call(vm, vm)]; [noop] returns [undefined]. *)
Definition call_getter (g : Getter) : M Value :=
  match g with
  | Noop => ret VUndefined
  | Fn body =>
      touch (reads body) ;;
      match outcome body with
      | inl v => ret v
      | inr e => throw (Thrown e)
      end
  end.

(** Modelled from the spec: [traverse(value)] of [observer/traverse],
    "recursively touch every reachable property of the result".  The
    nodes reached from the value an evaluator returned are the
    [deep_reads] of its script; [undefined] reaches none. *)
Definition traverse (g : Getter) (returned : bool) : M unit :=
  match g with
  | Fn body => if returned then touch (deep_reads body) else ret tt
  | Noop => ret tt
  end.

Section watcher.

(** The object [new set([])] evaluates to in [cleanupDeps].  [set] is the
    binding watcher.js imports from ['.'], the index of the observer
    directory, which is not among the sources; it is not the class [Set]
    ([_Set] of util) the constructor instantiates. *)
Variable new_set : IdSet.

(** [parsePath] of util, not among the sources: the accessor for a simple
    dot-delimited path, nothing ([undefined]) for any other string. *)
Variable parsePath : string → option Script.

(** [process.env.NODE_ENV === 'production'] *)
Variable production : bool.

(** The loop of [cleanupDeps], over [this.deps] from the last index down:
[[
    while (i--) {
      const dep = this.deps[i]
      if (!this.newDepIds.has(dep.id)) { dep.removeSub(this) }
    }
]] *)
Fixpoint cleanup_loop (w : nat) (backwards : list nat) : M unit :=
  match backwards with
  | [] => ret tt
  | d :: rest =>
      do this <- this_watcher w;
      do fresh <- has (newDepIds this) d;
      (if fresh then ret tt else modify (removeSub d w)) ;;
      cleanup_loop w rest
  end.

(** The four assignments that end [cleanupDeps]:
[[
    this.depIds = this.newDepIds
    this.newDepIds = new set([])
    this.deps = this.newDeps
    this.newDeps = new Array()
]] *)
Definition swap_collections (this : Watcher) : Watcher :=
  {| vm := vm this; deep := deep this; user := user this; lazy := lazy this;
     sync := sync this; dirty := dirty this; active := active this;
     deps := newDeps this; newDeps := [];
     depIds := newDepIds this; newDepIds := new_set;
     getter := getter this; value := value this |}.

Definition cleanupDeps (w : nat) : M unit :=
  do this <- this_watcher w;
  cleanup_loop w (reverse (deps this)) ;;
  do this <- this_watcher w;
  modify (set_watchers (<[w := swap_collections this]>)).

(** [get ()]:
[[
    pushTarget(this)
    let value
    try { value = this.getter.call(vm, vm) }
    catch (e) { if (this.user) { handleError(e, vm, ...) } else { throw e } }
    finally {
      if (this.deep) { traverse(value) }
      popTarget()
      this.cleanupDeps()
    }
    return value
]]
    An exception the [finally] block raises replaces the completion of
    the [try] and [catch] blocks. *)
Definition get (w : nat) : M Value :=
  λ st0,
    let st1 := pushTarget (WatcherRef w) st0 in
    match watchers st1 !! w with
    | None => (Throw TypeError, st1)
    | Some this =>
        let '(tried, st2) := call_getter (getter this) st1 in
        let '(caught, st3) :=
          match tried with
          | Ok v => (Ok v, st2)
          | Throw e =>
              if user this then (Ok VUndefined, emit (HandleError e w) st2)
              else (Throw e, st2)
          end in
        let returned := match tried with Ok _ => true | Throw _ => false end in
        let '(finally, st4) :=
          ((if deep this then traverse (getter this) returned else ret tt) ;;
           modify popTarget ;;
           cleanupDeps w) st3 in
        match finally with
        | Ok _ => (caught, st4)
        | Throw e => (Throw e, st4)
        end
    end.

(** The [options] argument of the constructor, after [!!]. *)
Record Options := {
  opt_deep : bool;
  opt_user : bool;
  opt_lazy : bool;
  opt_sync : bool
}.

Inductive ExpOrFn :=
| Expression (path : string)
| Function_ (body : Script).

(** The double-quote character of the warning below. *)
Definition double_quote : string := String (Ascii.ascii_of_nat 34) EmptyString.

(** The text of the warning:
[[
    `Failed watching path: "${expOrFn}" ` +
    'Watcher only accepts simple dot-delimited paths. ' +
    'For full control, use a function instead.'
]] *)
Definition failed_watching (path : string) : string :=
  "Failed watching path: " +:+ double_quote +:+ path +:+ double_quote +:+ " " +:+
  "Watcher only accepts simple dot-delimited paths. " +:+
  "For full control, use a function instead.".

Definition push_watcher (isRenderWatcher : bool) (w : nat) (c : Component) : Component :=
  {| _isBeingDestroyed := _isBeingDestroyed c;
     _watcher := if isRenderWatcher then Some w else _watcher c;
     _watchers := _watchers c ++ [w] |}.

Definition drop_watcher (w : nat) (c : Component) : Component :=
  {| _isBeingDestroyed := _isBeingDestroyed c;
     _watcher := _watcher c;
     _watchers := Util.remove (_watchers c) w |}.

(** [constructor (vm, expOrFn, cb, options, isRenderWatcher)]; the result
    is the id of the watcher built.  The callback [cb] and the [before]
    option play no part in construction and are left out. *)
Definition constructor (vmref : nat) (expOrFn : ExpOrFn)
    (options : option Options) (isRenderWatcher : bool) : M nat :=
  do owner <- this_component vmref;
  modify (λ st, set_uid (S (uid st)) st) ;;
  do id <- (λ st, (Ok (uid st), st));
  modify (set_components (<[vmref := push_watcher isRenderWatcher id owner]>)) ;;
  let flag (f : Options → bool) := from_option f false options in
  do g <- match expOrFn with
          | Function_ body => ret (Fn body)
          | Expression path =>
              match parsePath path with
              | Some body => ret (Fn body)
              | None =>
                  (if production then ret tt
                   else modify (emit (Warn (failed_watching path)))) ;;
                  ret Noop
              end
          end;
  let this :=
    {| vm := vmref; deep := flag opt_deep; user := flag opt_user;
       lazy := flag opt_lazy; sync := flag opt_sync;
       dirty := flag opt_lazy; active := true;
       deps := []; newDeps := [];
       depIds := SimpleSet ∅; newDepIds := SimpleSet ∅;
       getter := g; value := VUndefined |} in
  modify (set_watchers (<[id := this]>)) ;;
  do v <- (if lazy this then ret VUndefined else get id);
  modify (set_watchers (alter (set_value v) id)) ;;
  ret id.

(** [teardown ()]:
[[
    if (this.active) {
      if (!this.vm._isBeingDestroyed) { remove(this.vm._watchers, this) }
      let i = this.deps.length
      while (i--) { this.deps[i].removeSub(this) }
      this.active = false
    }
]] *)
Definition teardown (w : nat) : M unit :=
  do this <- this_watcher w;
  if active this then
    do owner <- this_component (vm this);
    (if _isBeingDestroyed owner then ret tt
     else modify (set_components (<[vm this := drop_watcher w owner]>))) ;;
    modify (λ st, foldl (λ s d, removeSub d w s) st (reverse (deps this))) ;;
    modify (set_watchers (alter (set_active false) w))
  else ret tt.

End watcher.

(** *** Functions and predicates used to state the properties *)

(** What [Dep.target] is in terms of the stack: its top entry, and no
    watcher at all when the stack is empty. *)
Definition target_is_top (st : Store) : Prop :=
  match last (targetStack st) with
  | Some t => Dep_target st = t
  | None => active_watcher (Dep_target st) = None
  end.

(** The nodes of [ds] in the order they are first touched, after those
    already collected in [nd]. *)
Fixpoint collect (nd ds : list nat) : list nat :=
  match ds with
  | [] => nd
  | d :: rest => collect (if bool_decide (d ∈ nd) then nd else nd ++ [d]) rest
  end.

(** The subscriber arrays after the watcher [w], which knows the nodes
    [known] from its last evaluation and has collected [nd] in this one,
    touches the nodes [ds]. *)
Fixpoint subscribe (w : nat) (known : gset nat) (nd ds : list nat)
    (m : gmap nat (list nat)) : gmap nat (list nat) :=
  match ds with
  | [] => m
  | d :: rest =>
      if bool_decide (d ∈ nd) then subscribe w known nd rest m
      else subscribe w known (nd ++ [d]) rest
             (if bool_decide (d ∈ known) then m
              else <[d := default [] (m !! d) ++ [w]]> m)
  end.

(** The subscriber arrays after [cleanupDeps] has gone through the nodes
    [ds] of the last evaluation, [fresh] being those of this one. *)
Fixpoint unsubscribe (w : nat) (fresh : gset nat) (ds : list nat)
    (m : gmap nat (list nat)) : gmap nat (list nat) :=
  match ds with
  | [] => m
  | d :: rest =>
      unsubscribe w fresh rest
        (if bool_decide (d ∈ fresh) then m else alter (λ l, Util.remove l w) d m)
  end.

(** The store in which the watcher [w] has collected [nd] and the
    subscriber arrays are [m]. *)
Definition collecting (w : nat) (this : Watcher) (nd : list nat)
    (m : gmap nat (list nat)) (st : Store) : Store :=
  set_subs (λ _, m)
    (set_watchers (<[w := set_collecting (SimpleSet (list_to_set nd)) nd this]>) st).

(** The nodes an evaluation touches: those the evaluator reads and, for a
    deep watcher whose evaluator returned, those [traverse] reaches. *)
Definition touched (this : Watcher) (body : Script) : list nat :=
  reads body ++
  match outcome body with
  | inl _ => if deep this then deep_reads body else []
  | inr _ => []
  end.

(** How [get] completes. *)
Definition completion (this : Watcher) (body : Script) : Result Value :=
  match outcome body with
  | inl v => Ok v
  | inr e => if user this then Ok VUndefined else Throw (Thrown e)
  end.

Definition reported (w : nat) (this : Watcher) (body : Script) (st : Store) : Store :=
  match outcome body with
  | inr e => if user this then emit (HandleError (Thrown e) w) st else st
  | inl _ => st
  end.

(** The state of a watcher between two evaluations. *)
Definition settled (this : Watcher) : Prop :=
  newDeps this = [] ∧ newDepIds this = SimpleSet ∅ ∧
  depIds this = SimpleSet (list_to_set (deps this)) ∧ NoDup (deps this).

(** *** Stores and evaluators used as examples *)

(** The node 0 has the subscribers 2 and 1, subscribed in that order. *)
Definition two_subscribers : Store :=
  set_subs (<[0 := [2; 1]]>) initial.

(** A component with no watcher yet, in a freshly loaded program. *)
Definition one_component : Store :=
  set_components
    (<[0 := {| _isBeingDestroyed := false; _watcher := None; _watchers := [] |}]>)
    initial.

(** A stand-in for [parsePath]: a path made of letters, digits, [_], [$]
    and dots is accepted (its accessor reads the node 0), any other
    string is rejected. *)
Definition path_char (c : Ascii.ascii) : bool :=
  let n := Ascii.nat_of_ascii c in
  bool_decide (97 ≤ n ≤ 122) || bool_decide (65 ≤ n ≤ 90) ||
  bool_decide (48 ≤ n ≤ 57) || bool_decide (n = 95) ||
  bool_decide (n = 36) || bool_decide (n = 46).

Definition parse_simple_path (path : string) : option Script :=
  if forallb path_char (String.list_ascii_of_string path)
  then Some {| reads := [0]; outcome := inl VUndefined; deep_reads := [] |}
  else None.

(** An evaluator that reads one reactive property, whose node is 7. *)
Definition reads_seven : Script :=
  {| reads := [7]; outcome := inl (VPrimitive 1); deep_reads := [] |}.

(** The watcher 1 after its first evaluation, had [cleanupDeps] installed
    an empty [Set]: it depends on the node 7 and is subscribed to it. *)
Definition first_watcher : Watcher :=
  {| vm := 0; deep := false; user := false; lazy := false; sync := false;
     dirty := false; active := true;
     deps := [7]; newDeps := [];
     depIds := SimpleSet (list_to_set [7]); newDepIds := SimpleSet ∅;
     getter := Fn reads_seven; value := VPrimitive 1 |}.

Definition after_first_evaluation : Store :=
  set_subs (<[7 := [1]]>) (set_watchers (<[1 := first_watcher]>) one_component).

(** *** watcher.js: the subscriber and scheduler interface *)

Definition set_dirty (b : bool) (this : Watcher) : Watcher :=
  {| vm := vm this; deep := deep this; user := user this; lazy := lazy this;
     sync := sync this; dirty := b; active := active this;
     deps := deps this; newDeps := newDeps this;
     depIds := depIds this; newDepIds := newDepIds this;
     getter := getter this; value := value this |}.

(** [isObject(value)] of util: [value !== null && typeof value === 'object']. *)
Definition isObject (v : Value) : bool :=
  match v with
  | VObject _ => true
  | VUndefined | VPrimitive _ => false
  end.

(** [value !== this.value].  A [VPrimitive] stands for a primitive that
    is strictly equal to itself (any but [NaN]); objects are compared by
    reference. *)
Definition strict_ne (a b : Value) : bool := negb (bool_decide (a = b)).

(** Modelled from the spec: [invokeWithErrorHandling(handler, ...)] of
    util, for a handler that returns no promise.  An error the handler
    throws is routed "to a central handler" ([handleError]) and the caller
    continues. *)
Definition invokeWithErrorHandling (w : nat) (handler : M unit) : M unit :=
  λ st, match handler st with
        | (Ok _, st') => (Ok tt, st')
        | (Throw e, st') => (Ok tt, emit (HandleError e w) st')
        end.

Section methods.

(** The object [new set([])] evaluates to in [cleanupDeps]. *)
Variable new_set : IdSet.

(** [queueWatcher(this)] of the scheduler, which is not among the
    sources. *)
Variable queueWatcher : nat → M unit.

(** [this.cb] of the watcher [w], called with the new and the old value;
    it is user code. *)
Variable cb : nat → Value → Value → M unit.

(** [run ()]:
[[
    if (this.active) {
      const value = this.get()
      if (value !== this.value || isObject(value) || this.deep) {
        const oldValue = this.value
        this.value = value
        if (this.user) {
          invokeWithErrorHandling(this.cb, this.vm, [value, oldValue], this.vm, info)
        } else {
          this.cb.call(this.vm, value, oldValue)
        }
      }
    }
]] *)
Definition run (w : nat) : M unit :=
  do this <- this_watcher w;
  if active this then
    do v <- get new_set w;
    do this <- this_watcher w;
    if strict_ne v (value this) || isObject v || deep this then
      let oldValue := value this in
      modify (set_watchers (alter (set_value v) w)) ;;
      if user this then invokeWithErrorHandling w (cb w v oldValue)
      else cb w v oldValue
    else ret tt
  else ret tt.

(** [evaluate () { this.value = this.get(); this.dirty = false }] *)
Definition evaluate (w : nat) : M unit :=
  do v <- get new_set w;
  modify (set_watchers (alter (set_value v) w)) ;;
  modify (set_watchers (alter (set_dirty false) w)).

(** [update ()]:
[[
    if (this.lazy) { this.dirty = true }
    else if (this.sync) { this.run() }
    else { queueWatcher(this) }
]] *)
Definition update (w : nat) : M unit :=
  do this <- this_watcher w;
  if lazy this then modify (set_watchers (alter (set_dirty true) w))
  else if sync this then run w
  else queueWatcher w.

End methods.

(** [depend ()] of the watcher:
[[
    let i = this.deps.length
    while (i--) { this.deps[i].depend() }
]] *)
Definition Watcher_depend (w : nat) : M unit :=
  do this <- this_watcher w;
  touch (reverse (deps this)).

(** The state of a watcher after an evaluation, [new_set] being what
    [cleanupDeps] has installed as [newDepIds]. *)
Definition evaluated (new_set : IdSet) (this : Watcher) : Prop :=
  newDeps this = [] ∧ newDepIds this = new_set ∧
  depIds this = SimpleSet (list_to_set (deps this)) ∧ NoDup (deps this).

(** The nodes [depend()] of [computed] subscribes the watcher [outer] to:
    the dependencies of [computed] that [outer] has not collected in this
    evaluation and did not have in its last one ([known]). *)
Definition newly_subscribed (computed outer : Watcher) (known : gset nat) (d : nat) : bool :=
  bool_decide (d ∈ deps computed ∧ (d ∉ newDeps outer) ∧ (d ∉ known)).

(** The subscriber arrays hold the watcher [w] at most once, and only in
    the arrays of the nodes [ds]. *)
Definition subscribed_within (w : nat) (ds : list nat) (st : Store) : Prop :=
  ∀ d, NoDup (default [] (subs st !! d)) ∧
       (w ∈ default [] (subs st !! d) → d ∈ ds).

(** A computed (lazy) watcher that has not been evaluated yet: the
    constructor leaves it dirty, with no value and no dependency. *)
Definition computed_watcher (body : Script) : Watcher :=
  {| vm := 0; deep := false; user := false; lazy := true; sync := false;
     dirty := true; active := true;
     deps := []; newDeps := [];
     depIds := SimpleSet ∅; newDepIds := SimpleSet ∅;
     getter := Fn body; value := VUndefined |}.

(** A synchronous watcher, 1, after its first evaluation. *)
Definition sync_watcher : Watcher :=
  {| vm := 0; deep := false; user := false; lazy := false; sync := true;
     dirty := false; active := true;
     deps := [7]; newDeps := [];
     depIds := SimpleSet (list_to_set [7]); newDepIds := SimpleSet ∅;
     getter := Fn reads_seven; value := VPrimitive 1 |}.

Definition after_sync_evaluation : Store :=
  set_subs (<[7 := [1]]>) (set_watchers (<[1 := sync_watcher]>) one_component).

(** A second watcher, 2, while it is evaluated for the first time. *)
Definition second_watcher : Watcher :=
  {| vm := 0; deep := false; user := false; lazy := false; sync := false;
     dirty := false; active := true;
     deps := []; newDeps := [];
     depIds := SimpleSet ∅; newDepIds := SimpleSet ∅;
     getter := Fn reads_seven; value := VUndefined |}.

Definition evaluating_second : Store :=
  pushTarget (WatcherRef 2)
    (set_watchers (<[2 := second_watcher]>) after_first_evaluation).

(** A callback that always throws. *)
Definition throwing_callback (w : nat) (v old : Value) : M unit := throw (Thrown 0).

End Observer.

(** ** The async component resolver ([resolve-async-component.js]) *)
Module Async.

(** What a factory resolves with, or names as its [error] and [loading]
    components: a plain options object or a constructor, possibly the
    [default] export of an ES module. *)
Inductive Raw :=
| OptionsObject (n : nat)
| ConstructorFn (n : nat).

Inductive Comp :=
| EsModule (default : Raw)
| Plain (c : Raw).

(** A component constructor: [base.extend(options)] or the function that
    was given. *)
Inductive Ctor :=
| Extend (options : nat)
| Given (n : nat).

Global Instance Ctor_eq_dec : EqDecision Ctor.
Proof. solve_decision. Defined.

(** [[
    if (comp.__esModule || (hasSymbol && comp[Symbol.toStringTag] === 'Module')) {
      comp = comp.default
    }
    return isObject(comp) ? base.extend(comp) : comp
]] *)
Definition ensureCtor (comp : Comp) : Ctor :=
  let comp := match comp with EsModule d => d | Plain c => c end in
  match comp with
  | OptionsObject n => Extend n
  | ConstructorFn n => Given n
  end.

Inductive Timer :=
| LoadingTimer
| TimeoutTimer.

Global Instance Timer_eq_dec : EqDecision Timer.
Proof. solve_decision. Defined.

(** What the resolver does to the outside world, in order. *)
Inductive Effect :=
| Fetch
| OnDestroyed (owner : nat)
| ForceUpdate (owner : nat)
| WarnFailed (reason : option string)
| Then
| SetTimeout (t : Timer) (ms : nat)
| ClearTimeout (t : Timer).

Global Instance Effect_eq_dec : EqDecision Effect.
Proof. solve_decision. Defined.

(** The object a factory of the advanced kind returns, [component] being
    a promise: [{ component, error, loading, delay, timeout }]. *)
Record Config := {
  cfg_error : option Comp;
  cfg_loading : option Comp;
  cfg_delay : option nat;
  cfg_timeout : option nat
}.

Inductive Returned :=
| RetNothing
| RetPromise
| RetConfig (cfg : Config)
| RetObject.

Inductive Call :=
| CallResolve (res : Comp)
| CallReject (reason : option string).

(** What the factory function does when it is invoked with [resolve] and
    [reject]: the calls it makes to them before it returns, and what it
    returns. *)
Record Behaviour := {
  sync_calls : list Call;
  returned : Returned
}.

(** The properties the resolver keeps on the factory function. *)
Record Factory := {
  resolved : option Ctor;
  error : bool;
  errorComp : option Ctor;
  loading : bool;
  loadingComp : option Ctor;
  owners : option (list nat)
}.

(** The variables of the call that invoked the factory, shared by the
    closures it creates: [owner], [sync], the two timers ([true] when the
    variable holds a timer), the flags of the two [once] wrappers, and the
    [timeout] of the object the factory returned. *)
Record Closure := {
  owner : option nat;
  sync : bool;
  timerLoading : bool;
  timerTimeout : bool;
  resolve_fired : bool;
  reject_fired : bool;
  res_timeout : option nat
}.

Record State := {
  factory : Factory;
  closure : Closure;
  effects : list Effect
}.

Definition fresh : State :=
  {| factory := {| resolved := None; error := false; errorComp := None;
                   loading := false; loadingComp := None; owners := None |};
     closure := {| owner := None; sync := false; timerLoading := false;
                   timerTimeout := false; resolve_fired := false;
                   reject_fired := false; res_timeout := None |};
     effects := [] |}.

Definition on_factory (f : Factory → Factory) (st : State) : State :=
  {| factory := f (factory st); closure := closure st; effects := effects st |}.

Definition on_closure (f : Closure → Closure) (st : State) : State :=
  {| factory := factory st; closure := f (closure st); effects := effects st |}.

Definition log (es : list Effect) (st : State) : State :=
  {| factory := factory st; closure := closure st; effects := effects st ++ es |}.

Definition set_resolved (c : Ctor) : State → State :=
  on_factory (λ f, {| resolved := Some c; error := error f; errorComp := errorComp f;
                      loading := loading f; loadingComp := loadingComp f;
                      owners := owners f |}).

Definition set_error : State → State :=
  on_factory (λ f, {| resolved := resolved f; error := true; errorComp := errorComp f;
                      loading := loading f; loadingComp := loadingComp f;
                      owners := owners f |}).

Definition set_errorComp (c : Ctor) : State → State :=
  on_factory (λ f, {| resolved := resolved f; error := error f; errorComp := Some c;
                      loading := loading f; loadingComp := loadingComp f;
                      owners := owners f |}).

Definition set_loading : State → State :=
  on_factory (λ f, {| resolved := resolved f; error := error f; errorComp := errorComp f;
                      loading := true; loadingComp := loadingComp f;
                      owners := owners f |}).

Definition set_loadingComp (c : Ctor) : State → State :=
  on_factory (λ f, {| resolved := resolved f; error := error f; errorComp := errorComp f;
                      loading := loading f; loadingComp := Some c;
                      owners := owners f |}).

Definition set_owners (os : list nat) : State → State :=
  on_factory (λ f, {| resolved := resolved f; error := error f; errorComp := errorComp f;
                      loading := loading f; loadingComp := loadingComp f;
                      owners := Some os |}).

Definition set_sync (b : bool) : State → State :=
  on_closure (λ c, {| owner := owner c; sync := b; timerLoading := timerLoading c;
                      timerTimeout := timerTimeout c; resolve_fired := resolve_fired c;
                      reject_fired := reject_fired c; res_timeout := res_timeout c |}).

Definition set_timerLoading (b : bool) : State → State :=
  on_closure (λ c, {| owner := owner c; sync := sync c; timerLoading := b;
                      timerTimeout := timerTimeout c; resolve_fired := resolve_fired c;
                      reject_fired := reject_fired c; res_timeout := res_timeout c |}).

Definition set_timerTimeout (b : bool) : State → State :=
  on_closure (λ c, {| owner := owner c; sync := sync c; timerLoading := timerLoading c;
                      timerTimeout := b; resolve_fired := resolve_fired c;
                      reject_fired := reject_fired c; res_timeout := res_timeout c |}).

Definition mark_resolve : State → State :=
  on_closure (λ c, {| owner := owner c; sync := sync c; timerLoading := timerLoading c;
                      timerTimeout := timerTimeout c; resolve_fired := true;
                      reject_fired := reject_fired c; res_timeout := res_timeout c |}).

Definition mark_reject : State → State :=
  on_closure (λ c, {| owner := owner c; sync := sync c; timerLoading := timerLoading c;
                      timerTimeout := timerTimeout c; resolve_fired := resolve_fired c;
                      reject_fired := true; res_timeout := res_timeout c |}).

Definition set_res_timeout (ms : option nat) : State → State :=
  on_closure (λ c, {| owner := owner c; sync := sync c; timerLoading := timerLoading c;
                      timerTimeout := timerTimeout c; resolve_fired := resolve_fired c;
                      reject_fired := reject_fired c; res_timeout := ms |}).

(** The variables of a call that is about to invoke the factory:
    [const owners = factory.owners = [owner]; let sync = true;
     let timerLoading = null; let timerTimeout = null], and two fresh
    [once] wrappers. *)
Definition open_closure (o : nat) (st : State) : State :=
  {| factory := factory (set_owners [o] st);
     closure := {| owner := Some o; sync := true; timerLoading := false;
                   timerTimeout := false; resolve_fired := false;
                   reject_fired := false; res_timeout := None |};
     effects := effects st |}.

Section resolver.

(** [process.env.NODE_ENV === 'production'] *)
Variable production : bool.

(** The factory function. *)
Variable behaviour : Behaviour.

(** [[
    for (let i = 0, l = owners.length; i < l; i++) { owners[i].$forceUpdate() }
    if (renderCompleted) {
      owners.length = 0
      if (timerLoading !== null) { clearTimeout(timerLoading); timerLoading = null }
      if (timerTimeout !== null) { clearTimeout(timerTimeout); timerTimeout = null }
    }
]]
    [owners] is the array [factory.owners] refers to. *)
Definition forceRender (renderCompleted : bool) (st : State) : State :=
  let st := log (ForceUpdate <$> default [] (owners (factory st))) st in
  if renderCompleted then
    let st := set_owners [] st in
    let st :=
      if timerLoading (closure st)
      then set_timerLoading false (log [ClearTimeout LoadingTimer] st) else st in
    if timerTimeout (closure st)
    then set_timerTimeout false (log [ClearTimeout TimeoutTimer] st) else st
  else st.

(** [[
    const resolve = once((res) => {
      factory.resolved = ensureCtor(res, baseCtor)
      if (!sync) { forceRender(true) } else { owners.length = 0 }
    })
]] *)
Definition resolve (res : Comp) : State → State :=
  Util.once (λ st, resolve_fired (closure st)) mark_resolve
    (λ st,
       let st := set_resolved (ensureCtor res) st in
       if negb (sync (closure st)) then forceRender true st
       else set_owners [] st).

(** [[
    const reject = once(reason => {
      process.env.NODE_ENV !== 'production' && warn(...)
      if (isDef(factory.errorComp)) { factory.error = true; forceRender(true) }
    })
]] *)
Definition reject (reason : option string) : State → State :=
  Util.once (λ st, reject_fired (closure st)) mark_reject
    (λ st,
       let st := if production then st else log [WarnFailed reason] st in
       if bool_decide (is_Some (errorComp (factory st)))
       then forceRender true (set_error st)
       else st).

Definition call (c : Call) : State → State :=
  match c with
  | CallResolve res => resolve res
  | CallReject reason => reject reason
  end.

(** The callback of the loading timer:
[[
    timerLoading = null
    if (isUndef(factory.resolved) && isUndef(factory.error)) {
      factory.loading = true
      forceRender(false)
    }
]] *)
Definition loading_elapsed (st : State) : State :=
  let st := set_timerLoading false st in
  if bool_decide (resolved (factory st) = None) && negb (error (factory st))
  then forceRender false (set_loading st)
  else st.

Definition timeout_reason (ms : nat) : option string :=
  if production then None else Some ("timeout (" +:+ pretty ms +:+ "ms)").

(** The callback of the timeout timer:
[[
    timerTimeout = null
    if (isUndef(factory.resolved)) { reject(... `timeout (${res.timeout}ms)` ...) }
]] *)
Definition timeout_elapsed (st : State) : State :=
  let st := set_timerTimeout false st in
  if bool_decide (resolved (factory st) = None)
  then reject (timeout_reason (default 0 (res_timeout (closure st)))) st
  else st.

(** What follows [const res = factory(resolve, reject)], by the shape of
    [res]. *)
Definition inspect (res : Returned) (st : State) : State :=
  match res with
  | RetNothing | RetObject => st
  | RetPromise =>
      if bool_decide (resolved (factory st) = None) then log [Then] st else st
  | RetConfig cfg =>
      let st := log [Then] st in
      let st :=
        match cfg_error cfg with
        | Some e => set_errorComp (ensureCtor e) st
        | None => st
        end in
      let st :=
        match cfg_loading cfg with
        | Some l =>
            let st := set_loadingComp (ensureCtor l) st in
            match cfg_delay cfg with
            | Some 0 => set_loading st
            | Some ms => set_timerLoading true (log [SetTimeout LoadingTimer ms] st)
            | None => set_timerLoading true (log [SetTimeout LoadingTimer 200] st)
            end
        | None => st
        end in
      match cfg_timeout cfg with
      | Some ms =>
          set_res_timeout (Some ms)
            (set_timerTimeout true (log [SetTimeout TimeoutTimer ms] st))
      | None => st
      end
  end.

(** The block guarded by [if (owner && !isDef(factory.owners))]: the call
    that invokes the factory, and what it returns. *)
Definition initiate (o : nat) (st : State) : option Ctor * State :=
  let st := open_closure o st in
  let st := log [OnDestroyed o] st in
  let st := foldl (λ s c, call c s) (log [Fetch] st) (sync_calls behaviour) in
  let st := inspect (returned behaviour) st in
  let st := set_sync false st in
  (if loading (factory st) then loadingComp (factory st) else resolved (factory st), st).

(** [resolveAsyncComponent (factory, baseCtor)], called while the
    instance [current] ([currentRenderingInstance], possibly none) is
    rendering.  No [return] is reached when the last test fails: the
    result is [undefined]. *)
Definition resolveAsyncComponent (current : option nat) (st : State) : option Ctor * State :=
  let f := factory st in
  if error f && bool_decide (is_Some (errorComp f)) then (errorComp f, st)
  else if bool_decide (is_Some (resolved f)) then (resolved f, st)
  else
    let st :=
      match current, owners f with
      | Some o, Some os => if bool_decide (o ∈ os) then st else set_owners (os ++ [o]) st
      | _, _ => st
      end in
    let f := factory st in
    if loading f && bool_decide (is_Some (loadingComp f)) then (loadingComp f, st)
    else
      match current, owners f with
      | Some o, None => initiate o st
      | _, _ => (None, st)
      end.

(** What can happen to a factory: a component renders and asks for it;
    later on, the closures of the initiating call are invoked, by the
    promise that settles or by user code holding [resolve] and [reject],
    by the timers, and by the [hook:destroyed] event of an instance. *)
Inductive Step :=
| Render (current : option nat)
| Resolve (res : Comp)
| Reject (reason : option string)
| LoadingElapsed
| TimeoutElapsed
| Destroyed (instance : nat).

(** The closures exist once the factory has been invoked, which is when
    [factory.owners] is defined; a timer fires only while its variable
    holds it; the listener [() => remove(owners, owner)] is registered on
    the initiating owner alone. *)
Definition step (e : Step) (st : State) : State :=
  match e with
  | Render current => (resolveAsyncComponent current st).2
  | Resolve res =>
      match owners (factory st) with Some _ => resolve res st | None => st end
  | Reject reason =>
      match owners (factory st) with Some _ => reject reason st | None => st end
  | LoadingElapsed => if timerLoading (closure st) then loading_elapsed st else st
  | TimeoutElapsed => if timerTimeout (closure st) then timeout_elapsed st else st
  | Destroyed i =>
      match owner (closure st), owners (factory st) with
      | Some o, Some os =>
          if bool_decide (o = i) then set_owners (Util.remove os o) st else st
      | _, _ => st
      end
  end.

Definition run (steps : list Step) (st : State) : State :=
  foldl (λ s e, step e s) st steps.

End resolver.

(** Number of times the factory function has been invoked. *)
Definition fetches (st : State) : nat :=
  length (filter (λ e, e = Fetch) (effects st)).

(** Number of forced re-renders of the instance [o] among [es]. *)
Definition forced (o : nat) (es : list Effect) : nat :=
  length (filter (λ e, e = ForceUpdate o) es).

(** The effects [st'] has on top of those of [st]. *)
Definition since (st st' : State) : list Effect :=
  drop (length (effects st)) (effects st').

Definition is_request (e : Step) : bool :=
  match e with
  | Render (Some _) => true
  | _ => false
  end.

(** The first call to [resolve] among the synchronous calls of a factory. *)
Fixpoint first_resolve (calls : list Call) : option Comp :=
  match calls with
  | [] => None
  | CallResolve res :: _ => Some res
  | CallReject _ :: rest => first_resolve rest
  end.

(** *** Predicates used to state the properties *)

(** What every closure of the initiating call guarantees about the state
    it leaves: it does not invoke the factory, it leaves [sync] alone, and
    the owners array stays an array without duplicates. *)
Definition guarantee (st st' : State) : Prop :=
  fetches st' = fetches st ∧
  sync (closure st') = sync (closure st) ∧
  (∀ os, owners (factory st) = Some os → NoDup os →
         ∃ os', owners (factory st') = Some os' ∧ NoDup os').

Definition preserves (f : State → State) : Prop := ∀ st, guarantee st (f st).

(** The factory has been invoked, by a call that has returned. *)
Definition settled (st : State) : Prop :=
  ∃ os, owners (factory st) = Some os ∧ NoDup os ∧
        fetches st = 1 ∧ sync (closure st) = false.

(** The loading component of a factory result that asks for it to be
    shown at once ([delay === 0]). *)
Definition zero_delay_loading (res : Returned) : option Comp :=
  match res with
  | RetConfig cfg =>
      match cfg_loading cfg, cfg_delay cfg with
      | Some l, Some 0 => Some l
      | _, _ => None
      end
  | _ => None
  end.

(** The state while the factory function runs, inside the initiating
    call of the instance [o]; [first] is the argument of the first call to
    [resolve] so far. *)
Definition during_factory_call (o : nat) (first : option Comp) (s : State) : Prop :=
  sync (closure s) = true ∧
  errorComp (factory s) = None ∧
  loading (factory s) = false ∧
  (∀ i, forced i (effects s) = 0) ∧
  match first with
  | None =>
      resolve_fired (closure s) = false ∧ resolved (factory s) = None ∧
      owners (factory s) = Some [o]
  | Some res =>
      resolve_fired (closure s) = true ∧
      resolved (factory s) = Some (ensureCtor res) ∧
      owners (factory s) = Some []
  end.

Definition first_of (first : option Comp) (c : Call) : option Comp :=
  match first, c with
  | Some res, _ => Some res
  | None, CallResolve res => Some res
  | None, CallReject _ => None
  end.

(** *** Factories used as examples *)

(** [(resolve) => { resolve(Comp) }] *)
Definition resolves_at_once : Behaviour :=
  {| sync_calls := [CallResolve (Plain (OptionsObject 1))]; returned := RetNothing |}.

(** [() => import('./Comp')] *)
Definition returns_promise : Behaviour :=
  {| sync_calls := []; returned := RetPromise |}.

(** A factory that resolves at once and also returns a configuration
    with a loading component and no delay:
    [(resolve) => { resolve(Comp);
       return { component: promise, loading: Spinner, delay: 0 } }] *)
Definition resolves_and_configures : Behaviour :=
  {| sync_calls := [CallResolve (Plain (OptionsObject 1))];
     returned := RetConfig {| cfg_error := None;
                              cfg_loading := Some (Plain (OptionsObject 2));
                              cfg_delay := Some 0;
                              cfg_timeout := None |} |}.

(** *** Predicates on what the resolver keeps *)

(** How the fields of a factory hang together: it is in error only when
    it has an error component, it shows or is about to show a loading
    component only when it has one, and it is resolved only by
    [resolve]. *)
Definition coherent (st : State) : Prop :=
  (error (factory st) = true → is_Some (errorComp (factory st))) ∧
  (loading (factory st) = true → is_Some (loadingComp (factory st))) ∧
  (timerLoading (closure st) = true → is_Some (loadingComp (factory st))) ∧
  (is_Some (resolved (factory st)) → resolve_fired (closure st) = true).

(** What [st'] has kept of [st]: the error and loading components, an
    error, a loading state, and the constructor the factory resolved to. *)
Definition lasting (st st' : State) : Prop :=
  errorComp (factory st') = errorComp (factory st) ∧
  loadingComp (factory st') = loadingComp (factory st) ∧
  (error (factory st) = true → error (factory st') = true) ∧
  (loading (factory st) = true → loading (factory st') = true) ∧
  (∀ c, resolved (factory st) = Some c → resolved (factory st') = Some c).

(** The effect is a timer being cleared. *)
Definition is_clear (e : Effect) : bool :=
  match e with ClearTimeout _ => true | _ => false end.

(** *** More factories used as examples *)

(** A factory of the advanced kind: a promise, an error component, a
    loading component shown after 50ms, and a timeout of 3000ms. *)
Definition advanced : Behaviour :=
  {| sync_calls := [];
     returned := RetConfig {| cfg_error := Some (Plain (OptionsObject 3));
                              cfg_loading := Some (Plain (OptionsObject 2));
                              cfg_delay := Some 50;
                              cfg_timeout := Some 3000 |} |}.

End Async.

(** ** The component VNode hooks ([create-component.js]) *)
Module ComponentHooks.

(** A component placeholder that has been given its instance
    ([MountedComponentVNode]); instances are referred to by a number.
    [keepAlive] is the truth value of [vnode.data.keepAlive]. *)
Record VNode := {
  context : nat;
  componentInstance : nat;
  keepAlive : bool
}.

(** Calls into [instance/lifecycle] and [observer/scheduler], neither of
    which is among the sources: they are recorded in the order made. *)
Inductive Effect :=
| CallHookMounted (instance : nat)
| QueueActivatedComponent (instance : nat)
| ActivateChildComponent (instance : nat) (direct : bool).

Global Instance Effect_eq_dec : EqDecision Effect.
Proof. solve_decision. Defined.

(** The instances whose [_isMounted] flag is set, and the calls made. *)
Record State := {
  mounted : gset nat;
  effects : list Effect
}.

Definition _isMounted (instance : nat) (st : State) : bool :=
  bool_decide (instance ∈ mounted st).

Definition set_isMounted (instance : nat) (st : State) : State :=
  {| mounted := {[instance]} ∪ mounted st; effects := effects st |}.

Definition log (e : Effect) (st : State) : State :=
  {| mounted := mounted st; effects := effects st ++ [e] |}.

(** [[
    insert (vnode) {
      const { context, componentInstance } = vnode
      if (!componentInstance._isMounted) {
        componentInstance._isMounted = true
        callHook(componentInstance, 'mounted')
      }
      if (vnode.data.keepAlive) {
        if (context._isMounted) { queueActivatedComponent(componentInstance) }
        else { activateChildComponent(componentInstance, true /* direct */) }
      }
    }
]] *)
Definition insert (vnode : VNode) (st : State) : State :=
  let st :=
    if negb (_isMounted (componentInstance vnode) st)
    then log (CallHookMounted (componentInstance vnode))
           (set_isMounted (componentInstance vnode) st)
    else st in
  if keepAlive vnode then
    if _isMounted (context vnode) st
    then log (QueueActivatedComponent (componentInstance vnode)) st
    else log (ActivateChildComponent (componentInstance vnode) true) st
  else st.

(** The calls [insert] made. *)
Definition made (st st' : State) : list Effect :=
  drop (length (effects st)) (effects st').

(** *** Examples *)

(** A kept-alive child (instance 2) of the instance 1. *)
Definition kept_alive_child : VNode :=
  {| context := 1; componentInstance := 2; keepAlive := true |}.

(** No instance is mounted yet: the tree of instance 1 is being mounted. *)
Definition parent_mounting : State := {| mounted := ∅; effects := [] |}.

(** Instance 1 has been mounted; the child is inserted by an update. *)
Definition parent_mounted : State := {| mounted := {[1]}; effects := [] |}.

(** *** Installing the hooks: [installComponentHooks] and [mergeHook] *)

(** A function found under a key of [data.hook]: one of the four
    functions of [componentVNodeHooks], a function [mergeHook] built
    (its [_merged] property is [true]), or any other function, with the
    truth value of its [_merged] property. *)
Inductive Hook :=
| Builtin (key : string)
| Merged (f1 f2 : Hook)
| Other (fn : nat) (_merged : bool).

Global Instance Hook_eq_dec : EqDecision Hook.
Proof. solve_decision. Defined.

(** [existing._merged] *)
Definition is_merged (h : Hook) : bool :=
  match h with
  | Builtin _ => false
  | Merged _ _ => true
  | Other _ m => m
  end.

(** [const hooksToMerge = Object.keys(componentVNodeHooks)] *)
Definition hooksToMerge : list string := ["init"; "prepatch"; "insert"; "destroy"].

(** [[
    function mergeHook (f1, f2) {
      const merged = (a, b) => { f1(a, b); f2(a, b) }
      merged._merged = true
      return merged
    }
]] *)
Definition mergeHook (f1 f2 : Hook) : Hook := Merged f1 f2.

(** One iteration of the loop of [installComponentHooks]:
[[
    const existing = hooks[key]
    const toMerge = componentVNodeHooks[key]
    if (existing !== toMerge && !(existing && existing._merged)) {
      hooks[key] = existing ? mergeHook(toMerge, existing) : toMerge
    }
]] *)
Definition install_one (hooks : gmap string Hook) (key : string) : gmap string Hook :=
  let toMerge := Builtin key in
  match hooks !! key with
  | Some existing =>
      if negb (bool_decide (existing = toMerge)) && negb (is_merged existing)
      then <[key := mergeHook toMerge existing]> hooks
      else hooks
  | None => <[key := toMerge]> hooks
  end.

(** [installComponentHooks (data)], on [data.hook || (data.hook = {})];
    the result is [data.hook] after the call. *)
Definition installComponentHooks (hook : option (gmap string Hook)) : gmap string Hook :=
  foldl install_one (default ∅ hook) hooksToMerge.

(** The functions a hook calls, in order, when it is invoked: a merged
    hook calls [f1] and then [f2]. *)
Fixpoint calls (h : Hook) : list Hook :=
  match h with
  | Merged f1 f2 => calls f1 ++ calls f2
  | _ => [h]
  end.

(** *** [transformModel] *)

(** The value under a key of [data.on]: a function or an array of
    functions; functions are referred to by a number. *)
Inductive Handler :=
| Single (fn : nat)
| Many (fns : list nat).

Global Instance Handler_eq_dec : EqDecision Handler.
Proof. solve_decision. Defined.

(** [options.model], when it is set: [{ prop, event }]. *)
Record ModelOptions := {
  model_prop : option string;
  model_event : option string
}.

(** [data.model]: [{ value, callback }]; the value is referred to by a
    number. *)
Record Model := {
  model_value : nat;
  model_callback : nat
}.

(** The fields of [data] that [transformModel] reads and writes. *)
Record ModelData := {
  attrs : option (gmap string nat);
  on : option (gmap string Handler);
  model : Model
}.

(** [(options.model && options.model.x) || fallback]: the empty string
    is falsy. *)
Definition model_option (field : ModelOptions → option string)
    (options_model : option ModelOptions) (fallback : string) : string :=
  match options_model ≫= field with
  | Some s => if bool_decide (s = "") then fallback else s
  | None => fallback
  end.

(** The functions under a key of [data.on], in the order they are
    called. *)
Definition handlers (h : option Handler) : list nat :=
  match h with
  | Some (Single fn) => [fn]
  | Some (Many fns) => fns
  | None => []
  end.

Section transformModel.

(** [data.on] is a plain object: reading a key it does not have itself
    yields what [Object.prototype] has under that name, if anything
    ([on['toString']] is a function). *)
Variable inherited : string → option nat.

(** [on[event]] *)
Definition read_on (on : gmap string Handler) (event : string) : option Handler :=
  match on !! event with
  | Some h => Some h
  | None => Single <$> inherited event
  end.

(** [[
    const prop = (options.model && options.model.prop) || 'value'
    const event = (options.model && options.model.event) || 'input'
    ;(data.attrs || (data.attrs = {}))[prop] = data.model.value
    const on = data.on || (data.on = {})
    const existing = on[event]
    const callback = data.model.callback
    if (isDef(existing)) {
      if (Array.isArray(existing)
            ? existing.indexOf(callback) === -1
            : existing !== callback) {
        on[event] = [callback].concat(existing)
      }
    } else {
      on[event] = callback
    }
]] *)
Definition transformModel (options_model : option ModelOptions) (data : ModelData)
    : ModelData :=
  let prop := model_option model_prop options_model "value" in
  let event := model_option model_event options_model "input" in
  let attrs' := <[prop := model_value (model data)]> (default ∅ (attrs data)) in
  let on0 := default ∅ (on data) in
  let callback := model_callback (model data) in
  let on' :=
    match read_on on0 event with
    | Some (Many fns) =>
        if bool_decide (callback ∈ fns) then on0
        else <[event := Many (callback :: fns)]> on0
    | Some (Single fn) =>
        if bool_decide (fn = callback) then on0
        else <[event := Many [callback; fn]]> on0
    | None => <[event := Single callback]> on0
    end in
  {| attrs := Some attrs'; on := Some on'; model := model data |}.

End transformModel.

(** *** Examples *)

(** [data.hook] with a user [insert] hook and a hook of another name. *)
Definition user_hooks : gmap string Hook :=
  {[ "insert" := Other 1 false; "update" := Other 2 false ]}.

(** No name of an event is taken from [Object.prototype]. *)
Definition no_inherited (name : string) : option nat := None.

(** A component with [v-model] and a listener for [input] of its own. *)
Definition with_v_model : ModelData :=
  {| attrs := None; on := Some {[ "input" := Single 5 ]};
     model := {| model_value := 8; model_callback := 9 |} |}.

End ComponentHooks.

(** ** The transition controller ([modules/transition.js]) *)
Module Transition.

(** A hook function as [getHookArgumentsLength] looks at it: a merged
    hook, whose [fns] is a function or an array whose first entry is
    looked at, or a function with its [_length] (0 when absent) and
    [length].  [calls_done] says whether the function, when it is given
    the completion callback, calls it before it returns. *)
Inductive HookFn :=
| Invoker (fns : HookFn)
| Function_ (_length length : nat) (calls_done : bool).

(** [[
    if (isUndef(fn)) { return false }
    const invokerFns = fn.fns
    if (isDef(invokerFns)) {
      return getHookArgumentsLength(Array.isArray(invokerFns) ? invokerFns[0] : invokerFns)
    } else {
      return (fn._length || fn.length) > 1
    }
]] *)
Fixpoint hook_arguments (fn : HookFn) : bool :=
  match fn with
  | Invoker fns => hook_arguments fns
  | Function_ _length length _ =>
      bool_decide (1 < (if bool_decide (_length = 0) then length else _length))
  end.

Definition getHookArgumentsLength (fn : option HookFn) : bool :=
  match fn with
  | None => false
  | Some fn => hook_arguments fn
  end.

Fixpoint completes_at_once (fn : HookFn) : bool :=
  match fn with
  | Invoker fns => completes_at_once fns
  | Function_ _ _ calls_done => calls_done
  end.

(** The [appear] entry of the transition data: absent or [false], the
    empty string (the attribute written without a value), [true], or a
    hook function. *)
Inductive Appear :=
| AppearOff
| AppearAttribute
| AppearOn
| AppearHook (fn : HookFn).

(** [toNumber(isObject(duration) ? duration.enter : duration)]: nothing,
    a number of milliseconds, or a value that is not a valid number. *)
Inductive Duration :=
| Unset
| Millis (ms : nat)
| Invalid.

(** The object [resolveTransition(vnode.data.transition)] returns.  Class
    names may be absent; [css] is [css !== false]. *)
Record Data := {
  css : bool;
  type : option string;
  enterClass : option string;
  enterToClass : option string;
  enterActiveClass : option string;
  appearClass : option string;
  appearToClass : option string;
  appearActiveClass : option string;
  leaveClass : option string;
  leaveToClass : option string;
  leaveActiveClass : option string;
  beforeEnter : option HookFn;
  on_enter : option HookFn;
  afterEnter : option HookFn;
  enterCancelled : option HookFn;
  beforeAppear : option HookFn;
  appear : Appear;
  afterAppear : option HookFn;
  appearCancelled : option HookFn;
  beforeLeave : option HookFn;
  on_leave : option HookFn;
  afterLeave : option HookFn;
  leaveCancelled : option HookFn;
  delayLeave : bool;
  enterDuration : Duration;
  leaveDuration : Duration
}.

(** What [enter] and [leave] read of the VNode: its key, the transition
    data [resolveTransition] finds (if any), [data.show], and
    [isRootInsert]. *)
Record VNode := {
  key : string;
  transition : option Data;
  show : bool;
  isRootInsert : bool
}.

(** [activeInstance], as the search for the context looks at it: its own
    [_isMounted], and the chain [$vnode], [$vnode.parent], ... where each
    placeholder is given by the [_isMounted] of its [context]. *)
Record Active := {
  active_isMounted : bool;
  placeholders : list bool
}.

(** [[
    let context = activeInstance
    let transitionNode = activeInstance.$vnode
    while (transitionNode && transitionNode.parent) {
      context = transitionNode.context
      transitionNode = transitionNode.parent
    }
]]
    The result is [context._isMounted]. *)
Fixpoint context_isMounted (context : bool) (transitionNode : list bool) : bool :=
  match transitionNode with
  | node :: (_ :: _) as parent => context_isMounted node parent
  | _ => context
  end.

Inductive Direction :=
| Entering
| Leaving.

(** The hook variables of [enter] and [leave], by role. *)
Inductive Role :=
| BeforeEnterHook
| EnterHook
| AfterEnterHook
| EnterCancelledHook
| BeforeLeave
| LeaveHook
| AfterLeave
| LeaveCancelled.

(** What the controller does to the element and asks of its
    environment, in order. *)
Inductive Event :=
| AddTransitionClass (cls : option string)
| RemoveTransitionClass (cls : option string)
| Call (hook : Role)
| Rm
| ToggleDisplay
| Warn (direction : Direction)
| MergeInsertHook (cb : nat)
| NextFrame (cb : nat)
| SetTimeout (cb : nat) (ms : nat)
| WhenTransitionEnds (cb : nat)
| DelayLeave (cb : nat)
| SetPending (key : string)
| ClearPending (key : string).

Global Instance Direction_eq_dec : EqDecision Direction.
Proof. solve_decision. Defined.
Global Instance Role_eq_dec : EqDecision Role.
Proof. solve_decision. Defined.
Global Instance Event_eq_dec : EqDecision Event.
Proof. solve_decision. Defined.

(** A completion callback: the function [once] returned, with its
    [cancelled] property, the flag of [once], and the variables of the
    call of [enter] or [leave] its closure captured.  For a leave
    callback [startClass], [toClass] and [activeClass] are [leaveClass],
    [leaveToClass] and [leaveActiveClass]; [mainHook] is [enterHook] or
    [leave], [beforeHook] is [beforeLeave]. *)
Record Callback := {
  direction : Direction;
  cancelled : bool;
  fired : bool;
  expectsCSS : bool;
  userWantsControl : bool;
  startClass : option string;
  toClass : option string;
  activeClass : option string;
  beforeHook : option HookFn;
  mainHook : option HookFn;
  afterHook : option HookFn;
  cancelledHook : option HookFn;
  explicitDuration : Duration;
  vnode_key : string;
  vnode_show : bool
}.

(** The element [el = vnode.elm]: its [_enterCb] and [_leaveCb]
    properties (references to callbacks), [nodeType], whether it has a
    parent and the keys of [parentNode._pending] when that table exists.
    [callbacks] holds the callback functions created so far, which timers
    and hooks may still refer to; [events] is what has been done. *)
Record State := {
  _enterCb : option nat;
  _leaveCb : option nat;
  nodeType : nat;
  parentNode : bool;
  _pending : option (gset string);
  callbacks : gmap nat Callback;
  events : list Event
}.

Definition set_enterCb (cb : option nat) (st : State) : State :=
  {| _enterCb := cb; _leaveCb := _leaveCb st; nodeType := nodeType st;
     parentNode := parentNode st; _pending := _pending st;
     callbacks := callbacks st; events := events st |}.

Definition set_leaveCb (cb : option nat) (st : State) : State :=
  {| _enterCb := _enterCb st; _leaveCb := cb; nodeType := nodeType st;
     parentNode := parentNode st; _pending := _pending st;
     callbacks := callbacks st; events := events st |}.

Definition set_pending (p : option (gset string)) (st : State) : State :=
  {| _enterCb := _enterCb st; _leaveCb := _leaveCb st; nodeType := nodeType st;
     parentNode := parentNode st; _pending := p;
     callbacks := callbacks st; events := events st |}.

Definition set_callbacks (f : gmap nat Callback → gmap nat Callback) (st : State) : State :=
  {| _enterCb := _enterCb st; _leaveCb := _leaveCb st; nodeType := nodeType st;
     parentNode := parentNode st; _pending := _pending st;
     callbacks := f (callbacks st); events := events st |}.

Definition log (es : list Event) (st : State) : State :=
  {| _enterCb := _enterCb st; _leaveCb := _leaveCb st; nodeType := nodeType st;
     parentNode := parentNode st; _pending := _pending st;
     callbacks := callbacks st; events := events st ++ es |}.

(** [hook && hook(el)] *)
Definition call_hook (hook : option HookFn) (role : Role) (st : State) : State :=
  match hook with
  | Some _ => log [Call role] st
  | None => st
  end.

Definition mark_cancelled (cb : Callback) : Callback :=
  {| direction := direction cb; cancelled := true; fired := fired cb;
     expectsCSS := expectsCSS cb; userWantsControl := userWantsControl cb;
     startClass := startClass cb; toClass := toClass cb;
     activeClass := activeClass cb; beforeHook := beforeHook cb;
     mainHook := mainHook cb; afterHook := afterHook cb;
     cancelledHook := cancelledHook cb; explicitDuration := explicitDuration cb;
     vnode_key := vnode_key cb; vnode_show := vnode_show cb |}.

Definition mark_fired (cb : Callback) : Callback :=
  {| direction := direction cb; cancelled := cancelled cb; fired := true;
     expectsCSS := expectsCSS cb; userWantsControl := userWantsControl cb;
     startClass := startClass cb; toClass := toClass cb;
     activeClass := activeClass cb; beforeHook := beforeHook cb;
     mainHook := mainHook cb; afterHook := afterHook cb;
     cancelledHook := cancelledHook cb; explicitDuration := explicitDuration cb;
     vnode_key := vnode_key cb; vnode_show := vnode_show cb |}.

(** The function [enter] wraps in [once]:
[[
    if (expectsCSS) {
      removeTransitionClass(el, toClass)
      removeTransitionClass(el, activeClass)
    }
    if (cb.cancelled) {
      if (expectsCSS) { removeTransitionClass(el, startClass) }
      enterCancelledHook && enterCancelledHook(el)
    } else {
      afterEnterHook && afterEnterHook(el)
    }
    el._enterCb = null
]] *)
Definition enter_completed (cb : Callback) (st : State) : State :=
  let st :=
    if expectsCSS cb
    then log [RemoveTransitionClass (toClass cb); RemoveTransitionClass (activeClass cb)] st
    else st in
  let st :=
    if cancelled cb then
      let st := if expectsCSS cb then log [RemoveTransitionClass (startClass cb)] st else st in
      call_hook (cancelledHook cb) EnterCancelledHook st
    else call_hook (afterHook cb) AfterEnterHook st in
  set_enterCb None st.

(** The function [leave] wraps in [once]:
[[
    if (el.parentNode && el.parentNode._pending) {
      el.parentNode._pending[vnode.key] = null
    }
    if (expectsCSS) {
      removeTransitionClass(el, leaveToClass)
      removeTransitionClass(el, leaveActiveClass)
    }
    if (cb.cancelled) {
      if (expectsCSS) { removeTransitionClass(el, leaveClass) }
      leaveCancelled && leaveCancelled(el)
    } else {
      rm()
      afterLeave && afterLeave(el)
    }
    el._leaveCb = null
]] *)
Definition leave_completed (cb : Callback) (st : State) : State :=
  let st :=
    match parentNode st, _pending st with
    | true, Some keys =>
        log [ClearPending (vnode_key cb)] (set_pending (Some (keys ∖ {[vnode_key cb]})) st)
    | _, _ => st
    end in
  let st :=
    if expectsCSS cb
    then log [RemoveTransitionClass (toClass cb); RemoveTransitionClass (activeClass cb)] st
    else st in
  let st :=
    if cancelled cb then
      let st := if expectsCSS cb then log [RemoveTransitionClass (startClass cb)] st else st in
      call_hook (cancelledHook cb) LeaveCancelled st
    else call_hook (afterHook cb) AfterLeave (log [Rm] st) in
  set_leaveCb None st.

(** Calling the callback [r]: the wrapper of [once] runs the function it
    wraps the first time it is called, and does nothing afterwards. *)
Definition invoke (r : nat) (st : State) : State :=
  match callbacks st !! r with
  | None => st
  | Some _ =>
      Util.once
        (λ st, from_option fired true (callbacks st !! r))
        (set_callbacks (alter mark_fired r))
        (λ st,
           match callbacks st !! r with
           | Some cb =>
               match direction cb with
               | Entering => enter_completed cb st
               | Leaving => leave_completed cb st
               end
           | None => st
           end)
        st
  end.

(** [cb.cancelled = true; cb()] on the callback a property of the element
    refers to, when it is defined. *)
Definition cancel (pending : option nat) (st : State) : State :=
  match pending with
  | Some r => invoke r (set_callbacks (alter mark_cancelled r) st)
  | None => st
  end.

(** A reference for a function object created now. *)
Definition fresh_ref (st : State) : nat :=
  S (max_list (elements (dom (callbacks st)))).

(** [hook && hook(el, cb)]: a hook that is given the callback may call it
    before it returns. *)
Definition call_with_done (hook : option HookFn) (role : Role) (r : nat) (st : State) : State :=
  match hook with
  | Some fn =>
      let st := log [Call role] st in
      if completes_at_once fn then invoke r st else st
  | None => st
  end.

Section controller.

(** [isIE9] and [process.env.NODE_ENV === 'production'] *)
Variable isIE9 : bool.
Variable production : bool.

(** [checkDuration], guarded as at its two call sites: a warning in a
    development build when an explicit duration is not a valid number. *)
Definition check_duration (d : Duration) (dir : Direction) (st : State) : State :=
  match d with
  | Invalid => if production then st else log [Warn dir] st
  | _ => st
  end.

(** [a && a !== '' ? a : b] on class names: [isAppear && appearClass ?
    appearClass : enterClass]. *)
Definition pick_class (isAppear : bool) (appear_cls enter_cls : option string) : option string :=
  match appear_cls with
  | Some s => if isAppear && negb (bool_decide (s = "")) then appear_cls else enter_cls
  | None => enter_cls
  end.

Definition or_hook (a b : option HookFn) : option HookFn :=
  match a with
  | Some _ => a
  | None => b
  end.

(** The part of [enter] after the pending leave has been dealt with. *)
Definition enter_proper (active : Active) (vnode : VNode) (toggleDisplay : bool)
    (st : State) : State :=
  match transition vnode with
  | None => st
  | Some data =>
      if bool_decide (is_Some (_enterCb st)) || negb (bool_decide (nodeType st = 1))
      then st
      else
        let isAppear :=
          negb (context_isMounted (active_isMounted active) (placeholders active))
          || negb (isRootInsert vnode) in
        if isAppear && (if appear data is AppearOff then true else false) then st
        else
          let enterHook :=
            if isAppear
            then match appear data with
                 | AppearHook fn => Some fn
                 | _ => on_enter data
                 end
            else on_enter data in
          let expects := css data && negb isIE9 in
          let cb :=
            {| direction := Entering; cancelled := false; fired := false;
               expectsCSS := expects;
               userWantsControl := getHookArgumentsLength enterHook;
               startClass := pick_class isAppear (appearClass data) (enterClass data);
               toClass := pick_class isAppear (appearToClass data) (enterToClass data);
               activeClass :=
                 pick_class isAppear (appearActiveClass data) (enterActiveClass data);
               beforeHook :=
                 if isAppear then or_hook (beforeAppear data) (beforeEnter data)
                 else beforeEnter data;
               mainHook := enterHook;
               afterHook :=
                 if isAppear then or_hook (afterAppear data) (afterEnter data)
                 else afterEnter data;
               cancelledHook :=
                 if isAppear then or_hook (appearCancelled data) (enterCancelled data)
                 else enterCancelled data;
               explicitDuration := enterDuration data;
               vnode_key := key vnode; vnode_show := show vnode |} in
          let st := check_duration (enterDuration data) Entering st in
          let r := fresh_ref st in
          let st := set_enterCb (Some r) (set_callbacks (<[r := cb]>) st) in
          let st := if show vnode then st else log [MergeInsertHook r] st in
          let st := call_hook (beforeHook cb) BeforeEnterHook st in
          let st :=
            if expects
            then log [AddTransitionClass (startClass cb);
                      AddTransitionClass (activeClass cb); NextFrame r] st
            else st in
          let st :=
            if show vnode
            then call_with_done enterHook EnterHook r
                   (if toggleDisplay then log [ToggleDisplay] st else st)
            else st in
          if negb expects && negb (userWantsControl cb) then invoke r st else st
  end.

(** [enter (vnode, toggleDisplay)]: first
[[
    if (isDef(el._leaveCb)) {
      el._leaveCb.cancelled = true
      el._leaveCb()
    }
]]
    and then the rest. *)
Definition enter (active : Active) (vnode : VNode) (toggleDisplay : bool)
    (st : State) : State :=
  enter_proper active vnode toggleDisplay (cancel (_leaveCb st) st).

(** [performLeave ()], for the callback [r] of the call of [leave] that
    defined it. *)
Definition performLeave (r : nat) (st : State) : State :=
  match callbacks st !! r with
  | None => st
  | Some cb =>
      if cancelled cb then st
      else
        let st :=
          if negb (vnode_show cb) && parentNode st
          then log [SetPending (vnode_key cb)]
                 (set_pending (Some ({[vnode_key cb]} ∪ default ∅ (_pending st))) st)
          else st in
        let st := call_hook (beforeHook cb) BeforeLeave st in
        let st :=
          if expectsCSS cb
          then log [AddTransitionClass (startClass cb);
                    AddTransitionClass (activeClass cb); NextFrame r] st
          else st in
        let st := call_with_done (mainHook cb) LeaveHook r st in
        if negb (expectsCSS cb) && negb (userWantsControl cb) then invoke r st else st
  end.

(** The part of [leave] after the pending enter has been dealt with. *)
Definition leave_proper (vnode : VNode) (st : State) : State :=
  match transition vnode with
  | None => log [Rm] st
  | Some data =>
      if negb (bool_decide (nodeType st = 1)) then log [Rm] st
      else if bool_decide (is_Some (_leaveCb st)) then st
      else
        let expects := css data && negb isIE9 in
        let cb :=
          {| direction := Leaving; cancelled := false; fired := false;
             expectsCSS := expects;
             userWantsControl := getHookArgumentsLength (on_leave data);
             startClass := leaveClass data;
             toClass := leaveToClass data;
             activeClass := leaveActiveClass data;
             beforeHook := beforeLeave data;
             mainHook := on_leave data;
             afterHook := afterLeave data;
             cancelledHook := leaveCancelled data;
             explicitDuration := leaveDuration data;
             vnode_key := key vnode; vnode_show := show vnode |} in
        let st := check_duration (leaveDuration data) Leaving st in
        let r := fresh_ref st in
        let st := set_leaveCb (Some r) (set_callbacks (<[r := cb]>) st) in
        if delayLeave data then log [DelayLeave r] st else performLeave r st
  end.

(** [leave (vnode, rm)]: first
[[
    if (isDef(el._enterCb)) {
      el._enterCb.cancelled = true
      el._enterCb()
    }
]]
    and then the rest. *)
Definition leave (vnode : VNode) (st : State) : State :=
  leave_proper vnode (cancel (_enterCb st) st).

(** The function handed to [nextFrame] by [enter] and by [performLeave]:
[[
    removeTransitionClass(el, startClass)
    if (!cb.cancelled) {
      addTransitionClass(el, toClass)
      if (!userWantsControl) {
        if (isValidDuration(explicitDuration)) { setTimeout(cb, explicitDuration) }
        else { whenTransitionEnds(el, type, cb) }
      }
    }
]] *)
Definition next_frame (r : nat) (st : State) : State :=
  match callbacks st !! r with
  | None => st
  | Some cb =>
      let st := log [RemoveTransitionClass (startClass cb)] st in
      if cancelled cb then st
      else
        let st := log [AddTransitionClass (toClass cb)] st in
        if userWantsControl cb then st
        else
          match explicitDuration cb with
          | Millis ms => log [SetTimeout r ms] st
          | _ => log [WhenTransitionEnds r] st
          end
  end.

(** The hook [enter] merges into the [insert] hook of the VNode, as far
    as this element is concerned: [enterHook && enterHook(el, cb)]. *)
Definition inserted (r : nat) (st : State) : State :=
  match callbacks st !! r with
  | Some cb => call_with_done (mainHook cb) EnterHook r st
  | None => st
  end.

(** What happens to an element over time: the patch calls [enter] and
    [leave] on VNodes of this element; whoever holds a completion
    callback (a timer, the end of the CSS transition, a user hook, the
    pending-leave table, [transition-group]) calls it; the frame callbacks,
    the merged insert hook and a delayed [performLeave] run. *)
Inductive Step :=
| DoEnter (active : Active) (vnode : VNode) (toggleDisplay : bool)
| DoLeave (vnode : VNode)
| Invoke (cb : nat)
| Frame (cb : nat)
| Inserted (cb : nat)
| PerformLeave (cb : nat).

Definition step (e : Step) (st : State) : State :=
  match e with
  | DoEnter active vnode toggleDisplay => enter active vnode toggleDisplay st
  | DoLeave vnode => leave vnode st
  | Invoke r => invoke r st
  | Frame r => next_frame r st
  | Inserted r =>
      match callbacks st !! r with
      | Some cb => if direction cb is Entering then inserted r st else st
      | None => st
      end
  | PerformLeave r =>
      match callbacks st !! r with
      | Some cb => if direction cb is Leaving then performLeave r st else st
      | None => st
      end
  end.

Definition run (steps : list Step) (st : State) : State :=
  foldl (λ s e, step e s) st steps.

End controller.

(** An element that has just been created: no callback is pending. *)
Definition created (nodeType_ : nat) (parent : bool) : State :=
  {| _enterCb := None; _leaveCb := None; nodeType := nodeType_;
     parentNode := parent; _pending := None; callbacks := ∅; events := [] |}.

(** The events of [st'] that come after those of [st]. *)
Definition since (st st' : State) : list Event :=
  drop (length (events st)) (events st').

(** What completing the callback [cb] with a "cancelled" outcome does. *)
Definition cancelled_outcome (cb : Callback) : list Event :=
  (if expectsCSS cb
   then [RemoveTransitionClass (toClass cb); RemoveTransitionClass (activeClass cb);
         RemoveTransitionClass (startClass cb)]
   else []) ++
  match cancelledHook cb, direction cb with
  | Some _, Entering => [Call EnterCancelledHook]
  | Some _, Leaving => [Call LeaveCancelled]
  | None, _ => []
  end.

(** *** Predicates used to state the properties *)

(** The property of the element the callbacks are registered on: a
    registered callback is one of the right direction that has not run
    yet, and at most one of the two properties is set. *)
Definition registered (dir : Direction) (pending : option nat) (st : State) : Prop :=
  ∀ r, pending = Some r →
    ∃ cb, callbacks st !! r = Some cb ∧ direction cb = dir ∧ fired cb = false.

Definition consistent (st : State) : Prop :=
  registered Entering (_enterCb st) st ∧
  registered Leaving (_leaveCb st) st ∧
  (_enterCb st = None ∨ _leaveCb st = None).

(** [st'] differs from [st] in its events and pending table only. *)
Definition same_callbacks (st st' : State) : Prop :=
  _enterCb st' = _enterCb st ∧ _leaveCb st' = _leaveCb st ∧
  callbacks st' = callbacks st ∧ nodeType st' = nodeType st.

(** Whether an event is a user hook of the given direction being called
    (for a leave, [rm()] included). *)
Definition owned_by (dir : Direction) (e : Event) : bool :=
  match dir, e with
  | Entering, Call (BeforeEnterHook | EnterHook | AfterEnterHook | EnterCancelledHook) => true
  | Leaving, Call (BeforeLeave | LeaveHook | AfterLeave | LeaveCancelled) => true
  | Leaving, Rm => true
  | _, _ => false
  end.

(** [st'] has the events of [st] followed by events among which no hook
    of the direction [dir] is called. *)
Definition extends_without (dir : Direction) (st st' : State) : Prop :=
  ∃ tail, events st' = events st ++ tail ∧
          forallb (λ e, negb (owned_by dir e)) tail = true.

Definition other (dir : Direction) : Direction :=
  match dir with Entering => Leaving | Leaving => Entering end.

(** The callback [r] exists and is of the direction [d]. *)
Definition dir_at (r : nat) (d : Direction) (st : State) : Prop :=
  ∃ cb, callbacks st !! r = Some cb ∧ direction cb = d.

(** A piece of [enter] or [leave] that runs once the callback [r] of the
    direction [d] exists: it keeps the element consistent, keeps the
    callback, and calls no hook of the other direction. *)
Definition advance (d : Direction) (r : nat) (st st' : State) : Prop :=
  consistent st → dir_at r d st →
  consistent st' ∧ dir_at r d st' ∧ extends_without (other d) st st'.

(** *** Examples *)

(** A transition with CSS classes and every hook, none of which takes the
    completion callback. *)
Definition fade : Data :=
  let hook := Some (Function_ 0 1 false) in
  {| css := true; type := None;
     enterClass := Some "fade-enter"; enterToClass := Some "fade-enter-to";
     enterActiveClass := Some "fade-enter-active";
     appearClass := None; appearToClass := None; appearActiveClass := None;
     leaveClass := Some "fade-leave"; leaveToClass := Some "fade-leave-to";
     leaveActiveClass := Some "fade-leave-active";
     beforeEnter := hook; on_enter := hook; afterEnter := hook;
     enterCancelled := hook;
     beforeAppear := None; appear := AppearOff; afterAppear := None;
     appearCancelled := None;
     beforeLeave := hook; on_leave := hook; afterLeave := hook;
     leaveCancelled := hook;
     delayLeave := false; enterDuration := Unset; leaveDuration := Unset |}.

Definition item : VNode :=
  {| key := "a"; transition := Some fade; show := false; isRootInsert := true |}.

(** The [<transition>] is at the root of a mounted instance. *)
Definition mounted_context : Active :=
  {| active_isMounted := true; placeholders := [] |}.

(** [hook && hook(el)], as an event. *)
Definition hook_call (hook : option HookFn) (role : Role) : list Event :=
  match hook with
  | Some _ => [Call role]
  | None => []
  end.

(** The warning of [checkDuration]. *)
Definition duration_warning (production : bool) (d : Duration) (dir : Direction)
    : list Event :=
  match d with
  | Invalid => if production then [] else [Warn dir]
  | _ => []
  end.

(** A transition driven by JavaScript hooks alone ([css: false]), none of
    which takes the completion callback. *)
Definition script_only : Data :=
  let hook := Some (Function_ 0 1 false) in
  {| css := false; type := None;
     enterClass := None; enterToClass := None; enterActiveClass := None;
     appearClass := None; appearToClass := None; appearActiveClass := None;
     leaveClass := None; leaveToClass := None; leaveActiveClass := None;
     beforeEnter := hook; on_enter := hook; afterEnter := hook;
     enterCancelled := hook;
     beforeAppear := None; appear := AppearOff; afterAppear := None;
     appearCancelled := None;
     beforeLeave := hook; on_leave := hook; afterLeave := hook;
     leaveCancelled := hook;
     delayLeave := false; enterDuration := Unset; leaveDuration := Unset |}.

Definition script_item : VNode :=
  {| key := "a"; transition := Some script_only; show := false; isRootInsert := true |}.

(** *** Counting removals *)

(** Number of calls of [rm] so far. *)
Definition removals (st : State) : nat :=
  length (filter (λ e, e = Rm) (events st)).

(** 1 when a leave callback is registered on the element, 0 otherwise. *)
Definition leave_pending (st : State) : nat :=
  match _leaveCb st with
  | Some _ => 1
  | None => 0
  end.

(** A leave callback that has not run is the one registered on the
    element. *)
Definition sole_leave (st : State) : Prop :=
  ∀ r cb, callbacks st !! r = Some cb → direction cb = Leaving → fired cb = false →
          _leaveCb st = Some r.

(** A piece of the controller that creates no callback: it keeps
    [sole_leave], and calls [rm] at most once, and only by completing the
    registered leave callback. *)
Definition settles (st st' : State) : Prop :=
  sole_leave st →
  sole_leave st' ∧
  removals st' + leave_pending st' ≤ removals st + leave_pending st.

Definition is_leave (e : Step) : bool :=
  match e with
  | DoLeave _ => true
  | _ => false
  end.

End Transition.

(** ** [transition-group.js]: the render function *)
Module TransitionGroup.

(** A number used as a key.  [render] looks at a key in three places,
    [c.key != null], [String(c.key)] and the property name of
    [map[c.key]], and the last two see a number through the string the
    engine converts it to (Number::toString): "5" for 5, "0.5" for 0.5,
    "1e+21" for 1e21, "NaN" for NaN.  A number is given by that
    string. *)
Record Number := {
  toString : string
}.

(** [vnode.key]: [string | number | void], and [null]. *)
Inductive Key :=
| KUndefined
| KNull
| KString (s : string)
| KNumber (n : Number).

(** [String(key)], which is also the property name [map[key]] uses. *)
Definition String_ (k : Key) : string :=
  match k with
  | KUndefined => "undefined"
  | KNull => "null"
  | KString s => s
  | KNumber n => toString n
  end.

(** [c.key != null && String(c.key).indexOf('__vlist') !== 0] *)
Definition keyed (k : Key) : bool :=
  match k with
  | KUndefined | KNull => false
  | _ => negb (String.prefix "__vlist" (String_ k))
  end.

Record Rect := {
  left : Z;
  top : Z
}.

(** The fields of [vnode.data] the render function writes; the transition
    data is the object [extractTransitionData(this)] returned, referred
    to by a number. *)
Record VNodeData := {
  transition : option nat;
  pos : option Rect
}.

Record ComponentOptions := {
  ctor_name : option string;
  options_tag : option string
}.

(** A child VNode: [tag] (absent for text and comments), [key], [data]
    (possibly [undefined]), the element it was patched to, and the
    component options of a component placeholder. *)
Record VNode := {
  tag : option string;
  key : Key;
  data : option VNodeData;
  elm : option nat;
  componentOptions : option ComponentOptions
}.

(** Truthiness of a string that may be [undefined]. *)
Definition truthy (s : option string) : bool :=
  match s with
  | Some s => negb (bool_decide (s = ""))
  | None => false
  end.

(** [a || b] on strings that may be [undefined]. *)
Definition or_else (a b : option string) : option string :=
  if truthy a then a else b.

(** VNodes are objects: the slot content, [this.children] and the
    rendered tree refer to them, and writes to [c.data] are seen through
    every reference.  [Heap] maps references to the objects. *)
Abbreviation Heap := (gmap nat VNode).

(** The fields of the component instance the render function uses:
    the prop [tag], [$vnode.data.tag], [$slots.default], and the fields
    it maintains ([children], [prevChildren], [kept], [removed]). *)
Record Instance := {
  prop_tag : option string;
  vnode_tag : option string;
  slot_default : option (list nat);
  children : option (list nat);
  prevChildren : option (list nat);
  kept : option (string * list nat);
  removed : list nat
}.

Inductive Result (A : Type) :=
| Ok (a : A)
| TypeError.
Arguments Ok {A} a.
Arguments TypeError {A}.

Definition must_be_keyed (c : VNode) : string :=
  let name :=
    match componentOptions c with
    | Some opts => default "" (or_else (ctor_name opts) (or_else (options_tag opts) None))
    | None => default "" (tag c)
    end in
  "<transition-group> children must be keyed: <" +:+ name +:+ ">".

(** [(c.data || (c.data = {})).transition = transitionData] *)
Definition with_transition (td : nat) (c : VNode) : VNode :=
  {| tag := tag c; key := key c;
     data := Some {| transition := Some td;
                     pos := match data c with Some d => pos d | None => None end |};
     elm := elm c; componentOptions := componentOptions c |}.

(** What the first loop has built so far: [children], [map], the heap and
    the warnings reported. *)
Record Pass := {
  p_children : list nat;
  p_map : gmap string nat;
  p_heap : Heap;
  p_warnings : list string
}.

Section render.

(** [process.env.NODE_ENV === 'production'] *)
Variable production : bool.

(** [elm.getBoundingClientRect()], a reading of the document. *)
Variable getBoundingClientRect : nat → Rect.

(** The object [extractTransitionData(this)] returns; the function is
    defined in [./transition], which is not among the sources. *)
Variable transitionData : nat.

(** One iteration of the loop over [rawChildren]:
[[
    if (c.tag) {
      if (c.key != null && String(c.key).indexOf('__vlist') !== 0) {
        children.push(c)
        map[c.key] = c
        ;(c.data || (c.data = {})).transition = transitionData
      } else if (process.env.NODE_ENV !== 'production') {
        warn(`<transition-group> children must be keyed: <${name}>`)
      }
    }
]] *)
Definition visit_raw (p : Pass) (r : nat) : Pass :=
  match p_heap p !! r with
  | None => p
  | Some c =>
      if truthy (tag c) then
        if keyed (key c) then
          {| p_children := p_children p ++ [r];
             p_map := <[String_ (key c) := r]> (p_map p);
             p_heap := <[r := with_transition transitionData c]> (p_heap p);
             p_warnings := p_warnings p |}
        else if production then p
        else
          {| p_children := p_children p; p_map := p_map p; p_heap := p_heap p;
             p_warnings := p_warnings p ++ [must_be_keyed c] |}
      else p
  end.

(** What the second loop has built so far: [kept], [removed], the heap. *)
Record Sweep := {
  s_kept : list nat;
  s_removed : list nat;
  s_heap : Heap
}.

(** One iteration of the loop over [prevChildren]:
[[
    c.data.transition = transitionData
    c.data.pos = c.elm.getBoundingClientRect()
    if (map[c.key]) { kept.push(c) } else { removed.push(c) }
]]
    Writing to [c.data] when it is [undefined], and calling a method of
    [c.elm] when it is [undefined], raise a [TypeError]. *)
Definition visit_prev (map : gmap string nat) (s : Result Sweep) (r : nat) : Result Sweep :=
  match s with
  | TypeError => TypeError
  | Ok s =>
      match s_heap s !! r with
      | None => TypeError
      | Some c =>
          match data c, elm c with
          | Some d, Some e =>
              let c' :=
                {| tag := tag c; key := key c;
                   data := Some {| transition := Some transitionData;
                                   pos := Some (getBoundingClientRect e) |};
                   elm := elm c; componentOptions := componentOptions c |} in
              let heap := <[r := c']> (s_heap s) in
              match map !! String_ (key c) with
              | Some _ =>
                  Ok {| s_kept := s_kept s ++ [r]; s_removed := s_removed s;
                        s_heap := heap |}
              | None =>
                  Ok {| s_kept := s_kept s; s_removed := s_removed s ++ [r];
                        s_heap := heap |}
              end
          | _, _ => TypeError
          end
      end
  end.

(** What [render] produces: the VNode [h(tag, null, children)] (its tag
    and the references to its children), the instance and the heap as they
    are left, and the warnings reported. *)
Record Rendered := {
  out_tag : string;
  out_children : list nat;
  out_this : Instance;
  out_heap : Heap;
  out_warnings : list string
}.

(** [render (h)] *)
Definition render (this : Instance) (heap : Heap) : Result Rendered :=
  let tag := default "span" (or_else (prop_tag this) (or_else (vnode_tag this) None)) in
  let prev := children this in
  let rawChildren := default [] (slot_default this) in
  let first :=
    foldl visit_raw
      {| p_children := []; p_map := ∅; p_heap := heap; p_warnings := [] |}
      rawChildren in
  match prev with
  | None =>
      Ok {| out_tag := tag; out_children := p_children first;
            out_this := {| prop_tag := prop_tag this; vnode_tag := vnode_tag this;
                           slot_default := slot_default this;
                           children := Some (p_children first);
                           prevChildren := None;
                           kept := kept this; removed := removed this |};
            out_heap := p_heap first; out_warnings := p_warnings first |}
  | Some prevChildren_ =>
      match foldl (visit_prev (p_map first))
              (Ok {| s_kept := []; s_removed := []; s_heap := p_heap first |})
              prevChildren_ with
      | TypeError => TypeError
      | Ok second =>
          Ok {| out_tag := tag; out_children := p_children first;
                out_this := {| prop_tag := prop_tag this; vnode_tag := vnode_tag this;
                               slot_default := slot_default this;
                               children := Some (p_children first);
                               prevChildren := Some prevChildren_;
                               kept := Some (tag, s_kept second);
                               removed := s_removed second |};
                out_heap := s_heap second; out_warnings := p_warnings first |}
      end
  end.

End render.

(** *** Predicates used to state the properties *)

(** An element child ([c.tag] is truthy) the first loop does not keep. *)
Definition unkeyed_element (heap : Heap) (r : nat) : Prop :=
  ∃ c, heap !! r = Some c ∧ truthy (tag c) = true ∧ keyed (key c) = false.

(** An element child the first loop keeps. *)
Definition keyed_element (heap : Heap) (r : nat) : bool :=
  match heap !! r with
  | Some c => truthy (tag c) && keyed (key c)
  | None => false
  end.

(** What holds of [this.children] when [render] is called again: they are
    the children an earlier [render] kept (element children with a usable
    key, given a [data] object), and the patch that followed gave each its
    element. *)
Definition patched (heap : Heap) (this : Instance) : Prop :=
  ∀ r, r ∈ default [] (children this) →
    ∃ c d e, heap !! r = Some c ∧ truthy (tag c) = true ∧ keyed (key c) = true ∧
             data c = Some d ∧ elm c = Some e.

(** The slot content refers to VNodes that exist. *)
Definition slot_allocated (heap : Heap) (this : Instance) : Prop :=
  ∀ r, r ∈ default [] (slot_default this) → is_Some (heap !! r).

(** The warning the first loop reports for the child [r], if any. *)
Definition warning_for (heap : Heap) (r : nat) : option string :=
  match heap !! r with
  | Some c =>
      if truthy (tag c) && negb (keyed (key c)) then Some (must_be_keyed c) else None
  | None => None
  end.

(** [c.data.transition] is the transition data [td]. *)
Definition marked (td : nat) (H : Heap) (r : nat) : Prop :=
  ∃ c d, H !! r = Some c ∧ data c = Some d ∧ transition d = Some td.

(** How the heap [H] of a render in progress relates to the heap [heap]
    the render started from: the same VNodes exist, with the tag, key and
    element they had, and a VNode has been written to only if it is a
    keyed element, in which case it carries the transition data. *)
Definition written (td : nat) (heap H : Heap) : Prop :=
  ∀ r,
    match heap !! r, H !! r with
    | Some c, Some c' =>
        tag c' = tag c ∧ key c' = key c ∧ elm c' = elm c ∧
        (c' = c ∨ (keyed_element heap r = true ∧
                   ∃ d, data c' = Some d ∧ transition d = Some td))
    | None, None => True
    | _, _ => False
    end.

(** The warnings a render reports for the slot content [l]. *)
Definition warnings_for (production : bool) (heap : Heap) (l : list nat) : list string :=
  if production then [] else omap (warning_for heap) l.


(** *** Examples *)

(** Slot content [<li key="a">], [<li>] (no key), a text node, and
    [<li key="__vlist_1_0">]. *)
Definition list_items : Heap :=
  {[ 1 := {| tag := Some "li"; key := KString "a"; data := None; elm := None;
             componentOptions := None |};
     2 := {| tag := Some "li"; key := KUndefined; data := None; elm := None;
             componentOptions := None |};
     3 := {| tag := None; key := KUndefined; data := None; elm := None;
             componentOptions := None |};
     4 := {| tag := Some "li"; key := KString "__vlist_1_0"; data := None;
             elm := None; componentOptions := None |} ]}.

Definition first_render : Instance :=
  {| prop_tag := Some "ul"; vnode_tag := None;
     slot_default := Some [1; 2; 3; 4];
     children := None; prevChildren := None; kept := None; removed := [] |}.

(** A later render of the same list: item 1 was kept and patched to the
    element 10, item 5 is new, item 2 still has no key. *)
Definition patched_items : Heap :=
  {[ 1 := {| tag := Some "li"; key := KString "a";
             data := Some {| transition := Some 7; pos := None |};
             elm := Some 10; componentOptions := None |};
     2 := {| tag := Some "li"; key := KUndefined; data := None; elm := None;
             componentOptions := None |};
     5 := {| tag := Some "li"; key := KNumber {| toString := "5" |}; data := None; elm := None;
             componentOptions := None |} ]}.

Definition later_render : Instance :=
  {| prop_tag := None; vnode_tag := None;
     slot_default := Some [5; 2; 1];
     children := Some [1]; prevChildren := None; kept := None; removed := [] |}.

(** *** Functions and predicates for the previous children *)

(** [String(c.key)] of the VNode [r]: the name under which [map] holds
    it. *)
Definition key_of (heap : Heap) (r : nat) : option string :=
  (λ c, String_ (key c)) <$> heap !! r.

(** [map[c.key]] is set, for the VNode [r]. *)
Definition in_map (map : gmap string nat) (heap : Heap) (r : nat) : bool :=
  match key_of heap r with
  | Some k => bool_decide (is_Some (map !! k))
  | None => false
  end.

(** The VNode [r] has the key, as a string, of one of the VNodes
    [current]. *)
Definition has_key_of (heap : Heap) (current : list nat) (r : nat) : bool :=
  existsb (λ r', bool_decide (key_of heap r' = key_of heap r)) current.

(** [c.data.transition] is the transition data and [c.data.pos] the
    rectangle of [c.elm]. *)
Definition positioned (rect : nat → Rect) (td : nat) (H : Heap) (r : nat) : Prop :=
  ∃ c d e, H !! r = Some c ∧ data c = Some d ∧ elm c = Some e ∧
           transition d = Some td ∧ pos d = Some (rect e).

End TransitionGroup.

(** ** Slot content ([render-helpers/resolve-slots.js]) *)
Module Slots.

(** The fields of [vnode.data] that [resolveSlots] looks at: [attrs]
    (an object, possibly absent) and [slot] ([None] for [null] and
    [undefined]). *)
Record VNodeData := {
  attrs : option (gmap string string);
  slot : option string
}.

(** A child VNode.  [children] refers to VNodes; [context] and
    [fnContext] refer to component instances ([None] for [undefined]);
    [asyncFactory] is the truth value of the property. *)
Record VNode := {
  tag : option string;
  data : option VNodeData;
  children : option (list nat);
  text : option string;
  isComment : bool;
  asyncFactory : bool;
  context : option nat;
  fnContext : option nat
}.

(** VNodes are objects: the array given to [resolveSlots] and the arrays
    it returns refer to them. *)
Abbreviation Heap := (gmap nat VNode).

Inductive Result (A : Type) :=
| Ok (a : A)
| TypeError.
Arguments Ok {A} a.
Arguments TypeError {A}.

(** [[
    function isWhitespace (node) {
      return (node.isComment && !node.asyncFactory) || node.text === ' '
    }
]] *)
Definition isWhitespace (node : VNode) : bool :=
  (isComment node && negb (asyncFactory node)) || bool_decide (text node = Some " ").

(** [if (data && data.attrs && data.attrs.slot) { delete data.attrs.slot }];
    the empty string is falsy. *)
Definition delete_slot_attr (child : VNode) : VNode :=
  match data child with
  | Some d =>
      match attrs d with
      | Some a =>
          match a !! "slot" with
          | Some s =>
              if bool_decide (s = "") then child
              else {| tag := tag child;
                      data := Some {| attrs := Some (delete "slot" a); slot := slot d |};
                      children := children child; text := text child;
                      isComment := isComment child; asyncFactory := asyncFactory child;
                      context := context child; fnContext := fnContext child |}
          | None => child
          end
      | None => child
      end
  | None => child
  end.

(** The slot a child goes to:
[[
    if ((child.context === context || child.fnContext === context) &&
        data && data.slot != null) { const name = data.slot ... }
    else { ... slots.default ... }
]] *)
Definition slot_name (ctx : option nat) (child : VNode) : string :=
  if bool_decide (context child = ctx) || bool_decide (fnContext child = ctx)
  then default "default" (data child ≫= slot)
  else "default".

(** Whether the child is pushed as a named slot's [<template>], whose
    children stand for it. *)
Definition is_template (ctx : option nat) (child : VNode) : bool :=
  (bool_decide (context child = ctx) || bool_decide (fnContext child = ctx)) &&
  bool_decide (is_Some (data child ≫= slot)) &&
  bool_decide (tag child = Some "template").

(** What is pushed for the child [r]:
[[
    if (child.tag === 'template') { slot.push.apply(slot, child.children || []) }
    else { slot.push(child) }
]] *)
Definition pushed (ctx : option nat) (r : nat) (child : VNode) : list nat :=
  if is_template ctx child then default [] (children child) else [r].

Section resolveSlots.

(** [slots] is a plain object: [slots[name]] on a name it does not have
    itself yields what [Object.prototype] has under that name, and
    [inherited name] says that there is such a property (a function or
    an object, never an array). *)
Variable inherited : string → bool.

(** [const slot = (slots[name] || (slots[name] = []))] followed by a push
    of [items].  When [slots[name]] is a property of [Object.prototype],
    [slot.push] is [undefined] and calling it raises a [TypeError]. *)
Definition push_to (slots : gmap string (list nat)) (name : string)
    (items : list nat) : Result (gmap string (list nat)) :=
  match slots !! name with
  | Some slot => Ok (<[name := slot ++ items]> slots)
  | None => if inherited name then TypeError else Ok (<[name := items]> slots)
  end.

(** One iteration of the loop over [children]. *)
Definition visit (ctx : option nat)
    (acc : Result (gmap string (list nat) * Heap)) (r : nat)
    : Result (gmap string (list nat) * Heap) :=
  match acc with
  | TypeError => TypeError
  | Ok (slots, heap) =>
      match heap !! r with
      | None => TypeError
      | Some child =>
          match push_to slots (slot_name ctx child) (pushed ctx r child) with
          | Ok slots' => Ok (slots', <[r := delete_slot_attr child]> heap)
          | TypeError => TypeError
          end
      end
  end.

(** [slots[name].every(isWhitespace)] *)
Definition only_whitespace (heap : Heap) (nodes : list nat) : bool :=
  forallb (λ r, from_option isWhitespace false (heap !! r)) nodes.

(** [[
    for (const name in slots) {
      if (slots[name].every(isWhitespace)) { delete slots[name] }
    }
]] *)
Definition drop_whitespace (heap : Heap) (slots : gmap string (list nat))
    : gmap string (list nat) :=
  filter (λ kv, only_whitespace heap kv.2 = false) slots.

(** [resolveSlots (children, context)]: the slot object returned and the
    heap as it is left. *)
Definition resolveSlots (children : option (list nat)) (ctx : option nat)
    (heap : Heap) : Result (gmap string (list nat) * Heap) :=
  match children with
  | None | Some [] => Ok (∅, heap)
  | Some cs =>
      match foldl (visit ctx) (Ok (∅, heap)) cs with
      | Ok (slots, heap') => Ok (drop_whitespace heap' slots, heap')
      | TypeError => TypeError
      end
  end.

End resolveSlots.

(** *** Functions and predicates used to state the properties *)

(** The nodes that the children [cs] contribute to the slot [name], in
    order. *)
Definition content (heap : Heap) (ctx : option nat) (name : string)
    (cs : list nat) : list nat :=
  flat_map (λ r, match heap !! r with
                 | Some child =>
                     if bool_decide (slot_name ctx child = name)
                     then pushed ctx r child else []
                 | None => []
                 end) cs.

(** How the heap [H] of a call in progress relates to the heap [heap] the
    call started from: a VNode is as it was, or as it was but for
    [data.attrs.slot]. *)
Definition visited (heap H : Heap) : Prop :=
  ∀ r, H !! r = heap !! r ∨ H !! r = delete_slot_attr <$> heap !! r.

(** Every VNode referred to exists. *)
Definition allocated (heap : Heap) (cs : list nat) : Prop :=
  ∀ r, r ∈ cs → is_Some (heap !! r).

(** No child goes to a slot whose name [Object.prototype] defines. *)
Definition plain_names (inherited : string → bool) (heap : Heap) (ctx : option nat)
    (cs : list nat) : Prop :=
  ∀ r child, r ∈ cs → heap !! r = Some child → inherited (slot_name ctx child) = false.

(** [data.attrs.slot] is truthy. *)
Definition has_slot_attr (child : VNode) : bool :=
  match data child with
  | Some d =>
      match attrs d with
      | Some a =>
          match a !! "slot" with
          | Some s => negb (bool_decide (s = ""))
          | None => false
          end
      | None => false
      end
  | None => false
  end.

(** *** Examples *)

(** The names a usual engine finds on [Object.prototype]. *)
Definition object_prototype (name : string) : bool :=
  bool_decide (name ∈ ["constructor"; "toString"; "toLocaleString"; "valueOf";
                       "hasOwnProperty"; "isPrototypeOf"; "propertyIsEnumerable";
                       "__proto__"; "__defineGetter__"; "__defineSetter__";
                       "__lookupGetter__"; "__lookupSetter__"]).

Definition element (tag_ : string) (slot_ : option string) (ctx : nat) : VNode :=
  {| tag := Some tag_;
     data := Some {| attrs := (λ s, {[ "slot" := s ]}) <$> slot_; slot := slot_ |};
     children := None; text := None; isComment := false; asyncFactory := false;
     context := Some ctx; fnContext := None |}.

Definition whitespace : VNode :=
  {| tag := None; data := None; children := None; text := Some " ";
     isComment := false; asyncFactory := false;
     context := Some 1; fnContext := None |}.

(** [<p slot="header">], a blank, [<div>], and [<i slot="footer">] of
    another context; all but the last were rendered by instance 1. *)
Definition page : Heap :=
  {[ 1 := element "p" (Some "header") 1;
     2 := whitespace;
     3 := element "div" None 1;
     4 := element "i" (Some "footer") 2 ]}.

(** A child whose slot is named [toString]. *)
Definition odd_name : Heap :=
  {[ 1 := element "p" (Some "toString") 1 ]}.

End Slots.

(** * Properties *)

(** ** Array helpers *)
Module UtilFacts.
Import Util.

Lemma remove_not_in {A} `{EqDecision A} (arr : list A) (item : A) :
  item ∉ arr → remove arr item = arr.
Proof.
  induction arr as [|x rest IH]; simpl; [done|].
  intros Hn. case_decide as Hx.
  - subst. exfalso. apply Hn. left.
  - f_equal. apply IH. intros Hin. apply Hn. by right.
Qed.

Lemma elem_of_remove {A} `{EqDecision A} (arr : list A) (item x : A) :
  x ∈ remove arr item → x ∈ arr.
Proof.
  induction arr as [|y rest IH]; simpl; [done|].
  case_decide.
  - intros. by right.
  - rewrite !elem_of_cons. intros [->|Hin]; [by left|right; auto].
Qed.

Lemma elem_of_remove_ne {A} `{EqDecision A} (arr : list A) (item x : A) :
  x ≠ item → x ∈ arr → x ∈ remove arr item.
Proof.
  intros Hne. induction arr as [|y rest IH]; simpl; [done|].
  rewrite elem_of_cons. intros [->|Hin].
  - case_decide; [done|left].
  - case_decide; [done|]. right. auto.
Qed.

Lemma remove_NoDup {A} `{EqDecision A} (arr : list A) (item : A) :
  NoDup arr → NoDup (remove arr item) ∧ item ∉ remove arr item.
Proof.
  induction 1 as [|x rest Hx Hnd [IH1 IH2]]; simpl.
  - split; [constructor|]. by intros ?%elem_of_nil.
  - case_decide as Heq.
    + subst. done.
    + split.
      * constructor; [|done]. intros Hin. apply Hx. by eapply elem_of_remove.
      * rewrite elem_of_cons. intros [->|Hin]; [done|]. by apply IH2.
Qed.

Lemma once_fired {S} (fired : S → bool) mark (fn : S → S) s :
  fired s = true → once fired mark fn s = s.
Proof. unfold once. by intros ->. Qed.

End UtilFacts.

(** ** dep.js and watcher.js *)
Module ObserverFacts.
Import Observer.

(** *** The active-watcher pointer *)

Lemma reachable_target_is_top st : reachable st → target_is_top st.
Proof.
  induction 1 as [|t st _ _|st _ _|st st' _ IH Ht Hs]; unfold target_is_top in *; simpl.
  - done.
  - by rewrite last_snoc.
  - by destruct (last (removelast (targetStack st))).
  - by rewrite Ht, Hs.
Qed.

Lemma removelast_snoc {A} (l : list A) (x : A) : removelast (l ++ [x]) = l.
Proof. by rewrite removelast_last. Qed.

(** C9, as the code has it.  From every store the program can reach,
    [pushTarget(w)] followed by [popTarget()] puts the stack back as it
    was and leaves the same watcher active as before (no watcher, when there was none: the
    [null] dep.js starts with is then read back as [undefined], which
    [if (Dep.target)] treats alike).  While an evaluation is in progress
    (the stack is not empty) [Dep.target] is restored exactly; so an
    inner evaluation leaves the outer watcher as the active target.
    With no evaluation in progress [Dep.target] is left [undefined]. *)
Theorem pushTarget_popTarget_restores (w : MaybeWatcher) (st : Store) :
  reachable st →
  let st' := popTarget (pushTarget w st) in
  targetStack st' = targetStack st ∧
  active_watcher (Dep_target st') = active_watcher (Dep_target st) ∧
  (targetStack st ≠ [] → Dep_target st' = Dep_target st) ∧
  (∀ outer, Dep_target st = WatcherRef outer → Dep_target st' = WatcherRef outer) ∧
  (targetStack st = [] → Dep_target st' = JsUndefined).
Proof.
  intros Hr%reachable_target_is_top. unfold target_is_top in Hr.
  simpl. rewrite !removelast_snoc.
  destruct (last (targetStack st)) as [t|] eqn:Hlast; simpl.
  - subst t. repeat split; try done.
    intros Hnil. by rewrite Hnil in Hlast.
  - rewrite Hr. apply last_None in Hlast. repeat split.
    + done.
    + intros outer Ho. rewrite Ho in Hr. done.
Qed.

(** A nested evaluation: the render watcher 1 is being evaluated when the
    computed watcher 2 is pushed and popped. *)
Lemma pushTarget_popTarget_restores_witness :
  let st := pushTarget (WatcherRef 1) initial in
  let st' := popTarget (pushTarget (WatcherRef 2) st) in
  targetStack st' = targetStack st ∧
  active_watcher (Dep_target st') = active_watcher (Dep_target st) ∧
  (targetStack st ≠ [] → Dep_target st' = Dep_target st) ∧
  (∀ outer, Dep_target st = WatcherRef outer → Dep_target st' = WatcherRef outer) ∧
  (targetStack st = [] → Dep_target st' = JsUndefined).
Proof.
  apply (pushTarget_popTarget_restores (WatcherRef 2) (pushTarget (WatcherRef 1) initial)).
  apply reach_push, reach_initial.
Defined.

(** C9 as stated fails for the value dep.js starts with: with no
    evaluation in progress [Dep.target] is [null], and a [pushTarget]
    followed by [popTarget] leaves [undefined] ([targetStack[-1]]), not
    [null]. *)
Lemma pushTarget_popTarget_initial_null :
  let st' := popTarget (pushTarget (WatcherRef 1) initial) in
  Dep_target initial = JsNull ∧
  Dep_target st' = JsUndefined ∧
  Dep_target st' ≠ Dep_target initial.
Proof. cbv zeta. repeat split; done. Qed.

(** *** Notification order *)

Section notify_facts.
Context (update : nat → M unit).



End notify_facts.

Local Instance nat_le_total : Total (≤)%nat.
Proof. intros x y. lia. Qed.


(** In a production build [config.async] is not looked at: the
    subscribers are invoked in insertion order, watcher 2 before 1. *)
Example notify_production_insertion_order :
  (notify true false (λ _, ret tt) 0 two_subscribers).2 = [2; 1].
Proof. reflexivity. Qed.

(** A development build with [config.async] off: watcher 1 is invoked
    first; when its [update] throws, watcher 2 is not invoked. *)
Example notify_stops_at_exception :
  (notify false false (λ _, ret tt) 0 two_subscribers).2 = [1; 2] ∧
  notify false false (λ _, throw (Thrown 0)) 0 two_subscribers =
    (Throw (Thrown 0), two_subscribers, [1]).
Proof. split; reflexivity. Qed.

(** [notify] with the [update] of watcher.js: the node 7 has a
    synchronous watcher that the constructor has evaluated; its
    [update()] runs it at once, and the exception of [run()] leaves
    [notify]. *)
Example notify_invokes_update :
  let built :=
    (constructor ForeignObject parse_simple_path false 0 (Function_ reads_seven)
       (Some {| opt_deep := false; opt_user := false; opt_lazy := false;
                opt_sync := true |}) false one_component).2 in
  let out := notify false false
               (update ForeignObject (λ _, ret tt) throwing_callback) 7 built in
  out.1.1 = Throw TypeError ∧ out.2 = [1].
Proof. vm_compute. split; reflexivity. Qed.

(** *** Tearing a watcher down *)

Lemma bind_ok {A B} (m : M A) (k : A → M B) st a st' :
  m st = (Ok a, st') → bind m k st = k a st'.
Proof. unfold bind. by intros ->. Qed.

Lemma bind_throw {A B} (m : M A) (k : A → M B) st e st' :
  m st = (Throw e, st') → bind m k st = (Throw e, st').
Proof. unfold bind. by intros ->. Qed.

Lemma removeSub_all_watchers w l : ∀ st,
  watchers (foldl (λ s d, removeSub d w s) st l) = watchers st.
Proof. induction l as [|d l IH]; intros st; simpl; [done|]. by rewrite IH. Qed.

(** A [teardown] that completes leaves the watcher inactive. *)
Lemma teardown_inactive w st st' :
  teardown w st = (Ok tt, st') →
  ∃ this, watchers st' !! w = Some this ∧ active this = false.
Proof.
  unfold teardown, bind, this_watcher, this_component, modify, ret.
  destruct (watchers st !! w) as [this|] eqn:Hw; [|done].
  destruct (active this) eqn:Hact.
  - destruct (components st !! vm this) as [owner|]; [|done].
    destruct (_isBeingDestroyed owner); simpl; intros [= <-]; simpl;
      rewrite lookup_alter_eq, removeSub_all_watchers; simpl;
      rewrite Hw; by eexists.
  - intros [= <-]. eauto.
Qed.

(** [teardown] does nothing on an inactive watcher. *)
Lemma teardown_when_inactive w st this :
  watchers st !! w = Some this → active this = false →
  teardown w st = (Ok tt, st).
Proof.
  intros Hw Hact. unfold teardown, bind, this_watcher. by rewrite Hw, Hact.
Qed.

(** C8.  [teardown()] is idempotent: calling it twice is calling it once,
    result and store (the watcher, every subscriber array, the owner's
    watcher list) alike.  The first call leaves [active] false, and on
    that store the second call changes nothing. *)
Theorem teardown_idempotent (w : nat) (st : Store) :
  (teardown w ;; teardown w) st = teardown w st ∧
  ∀ st', teardown w st = (Ok tt, st') →
    (∃ this, watchers st' !! w = Some this ∧ active this = false) ∧
    teardown w st' = (Ok tt, st').
Proof.
  assert (∀ st', teardown w st = (Ok tt, st') →
    (∃ this, watchers st' !! w = Some this ∧ active this = false) ∧
    teardown w st' = (Ok tt, st')) as Hsecond.
  { intros st' H1. destruct (teardown_inactive _ _ _ H1) as (this & Hw & Hact).
    split; [eauto|]. by eapply teardown_when_inactive. }
  split; [|done].
  destruct (teardown w st) as [[[]|e] st'] eqn:H1.
  - rewrite (bind_ok _ _ _ _ _ H1).
    by destruct (Hsecond st' eq_refl) as [_ ->].
  - by rewrite (bind_throw _ _ _ _ _ H1).
Qed.

Lemma removeSub_all_unsubscribed w d l : ∀ st,
  d ∈ l ∨ w ∉ default [] (subs st !! d) →
  NoDup (default [] (subs st !! d)) →
  w ∉ default [] (subs (foldl (λ s d, removeSub d w s) st l) !! d).
Proof.
  induction l as [|x l IH]; intros st Hd Hnd; simpl.
  - destruct Hd as [Hd|Hd]; [by apply elem_of_nil in Hd|done].
  - destruct (decide (x = d)) as [->|Hne].
    + assert (default [] (subs (removeSub d w st) !! d) =
              Util.remove (default [] (subs st !! d)) w) as Heq.
      { simpl. rewrite lookup_alter_eq. by destruct (subs st !! d). }
      destruct (UtilFacts.remove_NoDup _ w Hnd) as [Hnd' Hout].
      apply IH; rewrite Heq; [by right|done].
    + assert (subs (removeSub x w st) !! d = subs st !! d) as Heq.
      { simpl. by rewrite lookup_alter_ne. }
      apply IH; rewrite Heq; [|done].
      destruct Hd as [Hd|Hd]; [|by right]. left.
      apply elem_of_cons in Hd as [->|Hd]; done.
Qed.

(** What the first [teardown] has done, which is why the second has
    nothing to do: the watcher is gone from the subscriber array of every
    node it depended on (an array holds a watcher at most once). *)
Theorem teardown_unsubscribes (w : nat) (st st' : Store) (this : Watcher) :
  watchers st !! w = Some this → active this = true →
  teardown w st = (Ok tt, st') →
  ∀ d, d ∈ deps this → NoDup (default [] (subs st !! d)) →
       w ∉ default [] (subs st' !! d).
Proof.
  intros Hw Hact Htd d Hd Hnd. revert Htd.
  unfold teardown, bind, this_watcher, this_component, modify, ret.
  rewrite Hw, Hact.
  destruct (components st !! vm this) as [owner|]; [|done].
  destruct (_isBeingDestroyed owner); intros [= <-];
    cbn [subs set_watchers]; apply removeSub_all_unsubscribed;
    try (left; by apply elem_of_reverse); done.
Qed.

Lemma teardown_unsubscribes_witness :
  deps first_watcher = [7] ∧
  (1 ∉ default [] (subs (teardown 1 after_first_evaluation).2 !! 7)).
Proof.
  split; [reflexivity|].
  apply (teardown_unsubscribes 1 after_first_evaluation
           (teardown 1 after_first_evaluation).2 first_watcher).
  - reflexivity.
  - reflexivity.
  - reflexivity.
  - left.
  - apply NoDup_singleton.
Defined.

(** *** Construction *)

(** Evaluating a watcher whose getter is [noop] and that has no
    dependencies yet: nothing is read, nothing is thrown, the result is
    [undefined]. *)
Lemma get_noop new_set w st this :
  watchers st !! w = Some this → getter this = Noop → deps this = [] →
  get new_set w st =
    (Ok VUndefined,
     set_watchers (<[w := swap_collections new_set this]>)
       (popTarget (pushTarget (WatcherRef w) st))).
Proof.
  intros Hw Hg Hd. unfold get. simpl. rewrite Hw, Hg. simpl.
  assert (traverse Noop true = ret tt) as Ht by done.
  destruct (deep this); rewrite ?Ht;
    unfold bind, ret, modify, cleanupDeps, this_watcher, bind; simpl;
    rewrite Hw, Hd; simpl; rewrite Hw; done.
Qed.

(** C7.  Constructing a watcher on a string [parsePath] rejects does not
    throw.  The constructor returns the new watcher; its getter is
    [noop]; a warning is reported in a development build and none in a
    production build; and its value is [undefined], which is what [noop]
    yields.  A watcher that is not lazy has been evaluated (its
    collections went through [cleanupDeps]), a lazy one has not. *)
Theorem constructor_unparsable_path (new_set : IdSet)
    (parsePath : string → option Script) (production : bool)
    (vmref : nat) (path : string) (options : option Options)
    (isRenderWatcher : bool) (st : Store) (owner : Component) :
  parsePath path = None →
  components st !! vmref = Some owner →
  ∃ st' this,
    constructor new_set parsePath production vmref (Expression path)
      options isRenderWatcher st = (Ok (S (uid st)), st') ∧
    watchers st' !! S (uid st) = Some this ∧
    getter this = Noop ∧
    value this = VUndefined ∧
    active this = true ∧
    newDepIds this = (if lazy this then SimpleSet ∅ else new_set) ∧
    events st' =
      events st ++ (if production then [] else [Warn (failed_watching path)]).
Proof.
  intros Hparse Hvm.
  unfold constructor, this_component.
  cbv beta iota zeta delta [bind ret modify]. rewrite Hvm, Hparse.
  destruct (from_option opt_lazy false options) eqn:Hlazy.
  - destruct production;
      cbn [lazy uid set_uid set_components set_watchers watchers emit].
    all: do 2 eexists; split; [reflexivity|].
    all: cbn [watchers set_watchers events emit set_components set_uid];
         rewrite lookup_alter_eq, lookup_insert_eq; cbn.
    all: rewrite ?app_nil_r; done.
  - destruct production;
      cbn [lazy uid set_uid set_components set_watchers watchers emit].
    all: erewrite get_noop;
         [|cbn [watchers set_watchers]; apply lookup_insert_eq|done|done].
    all: do 2 eexists; split; [reflexivity|].
    all: cbn [watchers set_watchers events emit set_components set_uid
              popTarget pushTarget set_target];
         rewrite lookup_alter_eq, lookup_insert_eq; cbn.
    all: rewrite ?app_nil_r; done.
Qed.

Lemma constructor_unparsable_path_witness :
  ∃ st' this,
    constructor (SimpleSet ∅) parse_simple_path false 0 (Expression "a + b")
      None false one_component = (Ok 1, st') ∧
    watchers st' !! 1 = Some this ∧
    getter this = Noop ∧
    value this = VUndefined ∧
    active this = true ∧
    newDepIds this = (if lazy this then SimpleSet ∅ else SimpleSet ∅) ∧
    events st' = [] ++ [Warn (failed_watching "a + b")].
Proof.
  apply (constructor_unparsable_path (SimpleSet ∅) parse_simple_path false 0
           "a + b" None false one_component
           {| _isBeingDestroyed := false; _watcher := None; _watchers := [] |});
    reflexivity.
Defined.

(** *** Reconciling the dependency collections *)

(** C1, on the code as it is.  [cleanupDeps] stores the object built by
    [new set([])] in [newDepIds].  When that object is not an id-set (it
    has no [has] method), the first evaluation, made by the constructor,
    completes and leaves it there; the next evaluation reads the same
    property, [addDep] calls [this.newDepIds.has], and [get] ends in a
    [TypeError]: nothing is recorded. *)
Theorem cleanupDeps_installs_foreign_object :
  let built :=
    constructor ForeignObject parse_simple_path false 0 (Function_ reads_seven)
      None false one_component in
  built.1 = Ok 1 ∧
  deps <$> watchers built.2 !! 1 = Some [7] ∧
  depIds <$> watchers built.2 !! 1 = Some (SimpleSet {[7]}) ∧
  newDepIds <$> watchers built.2 !! 1 = Some ForeignObject ∧
  subs built.2 !! 7 = Some [1] ∧
  (get ForeignObject 1 built.2).1 = Throw TypeError.
Proof.
  vm_compute. repeat split; reflexivity.
Qed.

(** *** Collecting dependencies with a proper id-set *)

Lemma store_eta (st : Store) :
  st = {| subs := subs st; watchers := watchers st; components := components st;
          Dep_target := Dep_target st; targetStack := targetStack st;
          uid := uid st; events := events st |}.
Proof. by destruct st. Qed.

Lemma addDep_collecting w this known nd m st d :
  depIds this = SimpleSet known →
  addDep w d (collecting w this nd m st) =
    (Ok tt,
     if bool_decide (d ∈ nd) then collecting w this nd m st
     else collecting w this (nd ++ [d])
            (if bool_decide (d ∈ known) then m
             else <[d := default [] (m !! d) ++ [w]]> m) st).
Proof.
  intros Hk.
  unfold addDep, bind, this_watcher. simpl. rewrite lookup_insert_eq. simpl.
  assert (bool_decide (d ∈ (list_to_set nd : gset nat)) = bool_decide (d ∈ nd)) as ->.
  { apply bool_decide_ext. by rewrite elem_of_list_to_set. }
  destruct (bool_decide (d ∈ nd)) eqn:Hin; [done|].
  unfold modify, ret. simpl. rewrite Hk. simpl.
  assert ({[d]} ∪ list_to_set nd = (list_to_set (nd ++ [d]) : gset nat)) as Hset.
  { rewrite list_to_set_app_L. simpl. set_solver. }
  unfold collecting, set_subs, set_watchers, addSub, set_collecting. simpl.
  rewrite insert_insert_eq, Hset.
  destruct (bool_decide (d ∈ known)); done.
Qed.

Lemma touch_collecting w this known st ds : ∀ nd m,
  depIds this = SimpleSet known →
  Dep_target st = WatcherRef w →
  touch ds (collecting w this nd m st) =
    (Ok tt, collecting w this (collect nd ds) (subscribe w known nd ds m) st).
Proof.
  induction ds as [|d ds IH]; intros nd m Hk Ht; [done|].
  cbn [touch collect subscribe]. unfold bind, depend.
  change (Dep_target (collecting w this nd m st)) with (Dep_target st).
  rewrite Ht. cbn [active_watcher].
  rewrite (addDep_collecting w this known nd m st d Hk).
  destruct (bool_decide (d ∈ nd)); by apply IH.
Qed.

Lemma cleanup_loop_collecting w this nd st ds : ∀ m,
  cleanup_loop w ds (collecting w this nd m st) =
    (Ok tt, collecting w this nd (unsubscribe w (list_to_set nd) ds m) st).
Proof.
  induction ds as [|d ds IH]; intros m; [done|].
  cbn [cleanup_loop unsubscribe]. unfold bind at 1. unfold this_watcher at 1.
  cbn [watchers collecting set_subs set_watchers]. rewrite lookup_insert_eq.
  unfold bind at 1. cbn [newDepIds set_collecting has ret].
  destruct (bool_decide (d ∈ (list_to_set nd : gset nat))); unfold bind, ret, modify;
    apply IH.
Qed.

Lemma elem_of_collect ds : ∀ nd d, d ∈ collect nd ds ↔ d ∈ nd ∨ d ∈ ds.
Proof.
  induction ds as [|x ds IH]; intros nd d; simpl.
  - rewrite elem_of_nil. tauto.
  - rewrite IH, elem_of_cons. case_bool_decide.
    + split; [tauto|]. intros [?|[->|?]]; auto.
    + rewrite elem_of_app, list_elem_of_singleton. tauto.
Qed.

Lemma NoDup_collect ds : ∀ nd, NoDup nd → NoDup (collect nd ds).
Proof.
  induction ds as [|x ds IH]; intros nd Hnd; simpl; [done|].
  apply IH. case_bool_decide; [done|].
  apply NoDup_app. split_and!; [done| |apply NoDup_singleton].
  by intros y Hy ->%list_elem_of_singleton.
Qed.

Lemma lookup_subscribe w known ds : ∀ nd m d,
  subscribe w known nd ds m !! d =
    if bool_decide (d ∈ ds ∧ (d ∉ nd) ∧ (d ∉ known))
    then Some (default [] (m !! d) ++ [w])
    else m !! d.
Proof.
  induction ds as [|x ds IH]; intros nd m d; cbn [subscribe].
  - rewrite bool_decide_eq_false_2; [done|]. rewrite elem_of_nil. tauto.
  - destruct (bool_decide (x ∈ nd)) eqn:Hx.
    + apply bool_decide_eq_true in Hx. rewrite IH.
      apply (f_equal (λ b : bool, if b then _ else _)).
      apply bool_decide_ext. rewrite elem_of_cons.
      split; [tauto|]. intros [[->|?] [? ?]]; [done|tauto].
    + apply bool_decide_eq_false in Hx. rewrite IH.
      destruct (decide (d = x)) as [->|Hne].
      * rewrite (bool_decide_eq_false_2 (x ∈ ds ∧ _)).
        2:{ rewrite elem_of_app, list_elem_of_singleton. tauto. }
        destruct (bool_decide (x ∈ known)) eqn:Hk.
        -- apply bool_decide_eq_true in Hk.
           rewrite bool_decide_eq_false_2; [done|tauto].
        -- apply bool_decide_eq_false in Hk.
           rewrite bool_decide_eq_true_2.
           ++ by rewrite lookup_insert_eq.
           ++ split_and!; [left|done|done].
      * assert ((if bool_decide (x ∈ known) then m
                 else <[x := default [] (m !! x) ++ [w]]> m) !! d = m !! d) as ->.
        { destruct (bool_decide (x ∈ known)); [done|]. by rewrite lookup_insert_ne. }
        apply (f_equal (λ b : bool, if b then _ else _)).
        apply bool_decide_ext.
        rewrite elem_of_cons, elem_of_app, list_elem_of_singleton. tauto.
Qed.

Lemma lookup_unsubscribe w fresh ds : ∀ m d,
  NoDup ds →
  unsubscribe w fresh ds m !! d =
    if bool_decide (d ∈ ds ∧ (d ∉ fresh))
    then (λ l, Util.remove l w) <$> m !! d
    else m !! d.
Proof.
  induction ds as [|x ds IH]; intros m d Hnd; cbn [unsubscribe].
  - rewrite bool_decide_eq_false_2; [done|]. rewrite elem_of_nil. tauto.
  - apply NoDup_cons in Hnd as [Hx Hnd]. rewrite IH by done.
    destruct (decide (d = x)) as [->|Hne].
    + rewrite (bool_decide_eq_false_2 (x ∈ ds ∧ _)) by tauto.
      destruct (bool_decide (x ∈ fresh)) eqn:Hf.
      * apply bool_decide_eq_true in Hf. rewrite bool_decide_eq_false_2; [done|tauto].
      * apply bool_decide_eq_false in Hf. rewrite bool_decide_eq_true_2.
        -- by rewrite lookup_alter_eq.
        -- split; [left|done].
    + assert ((if bool_decide (x ∈ fresh) then m
               else alter (λ l, Util.remove l w) x m) !! d = m !! d) as ->.
      { destruct (bool_decide (x ∈ fresh)); [done|]. by rewrite lookup_alter_ne. }
      apply (f_equal (λ b : bool, if b then _ else _)).
      apply bool_decide_ext. rewrite elem_of_cons. tauto.
Qed.

Lemma collect_app ds1 ds2 : ∀ nd, collect nd (ds1 ++ ds2) = collect (collect nd ds1) ds2.
Proof. induction ds1 as [|d ds1 IH]; intros nd; simpl; [done|]. apply IH. Qed.

Lemma subscribe_app w known ds1 ds2 : ∀ nd m,
  subscribe w known nd (ds1 ++ ds2) m =
  subscribe w known (collect nd ds1) ds2 (subscribe w known nd ds1 m).
Proof.
  induction ds1 as [|d ds1 IH]; intros nd m; simpl; [done|].
  destruct (bool_decide (d ∈ nd)); apply IH.
Qed.

Lemma collecting_start w this st :
  watchers st !! w = Some this →
  newDeps this = [] → newDepIds this = SimpleSet ∅ →
  collecting w this [] (subs st) st = st.
Proof.
  intros Hw Hn Hi. unfold collecting, set_subs, set_watchers. simpl.
  assert (set_collecting (SimpleSet ∅) [] this = this) as ->.
  { destruct this. simpl in *. by subst. }
  rewrite insert_id by done. by destruct st.
Qed.

Lemma cleanupDeps_collecting w this nd m st :
  cleanupDeps (SimpleSet ∅) w (collecting w this nd m st) =
    (Ok tt,
     set_watchers
       (<[w := swap_collections (SimpleSet ∅)
                 (set_collecting (SimpleSet (list_to_set nd)) nd this)]>)
       (set_subs (λ _, unsubscribe w (list_to_set nd) (reverse (deps this)) m) st)).
Proof.
  unfold cleanupDeps, bind at 1, this_watcher at 1.
  cbn [watchers collecting set_subs set_watchers]. rewrite lookup_insert_eq.
  unfold bind at 1. cbn [deps set_collecting].
  change (set_subs (λ _, m) (set_watchers (<[w := set_collecting (SimpleSet (list_to_set nd)) nd this]>) st))
    with (collecting w this nd m st).
  rewrite cleanup_loop_collecting.
  unfold bind, this_watcher, modify.
  cbn [watchers collecting set_subs set_watchers]. rewrite lookup_insert_eq.
  unfold collecting, set_subs, set_watchers. cbn. by rewrite insert_insert_eq.
Qed.

Lemma finally_collecting w this body known nd m st (returned : bool) :
  getter this = Fn body →
  depIds this = SimpleSet known →
  Dep_target st = WatcherRef w →
  let extra := if deep this && returned then deep_reads body else [] in
  let nd' := collect nd extra in
  ((if deep this then traverse (getter this) returned else ret tt) ;;
   modify popTarget ;; cleanupDeps (SimpleSet ∅) w) (collecting w this nd m st) =
    (Ok tt,
     set_watchers
       (<[w := swap_collections (SimpleSet ∅)
                 (set_collecting (SimpleSet (list_to_set nd')) nd' this)]>)
       (set_subs
          (λ _, unsubscribe w (list_to_set nd') (reverse (deps this))
                  (subscribe w known nd extra m))
          (popTarget st))).
Proof.
  intros Hg Hk Ht. cbv zeta. rewrite Hg.
  assert (∀ nd m, (modify popTarget ;; cleanupDeps (SimpleSet ∅) w)
                    (collecting w this nd m st) =
                  cleanupDeps (SimpleSet ∅) w (collecting w this nd m (popTarget st)))
    as Hpop by done.
  destruct (deep this), returned; cbn [andb traverse].
  - unfold bind at 1.
    rewrite (touch_collecting w this known st (deep_reads body) nd m Hk Ht).
    rewrite Hpop. apply cleanupDeps_collecting.
  - unfold bind at 1, ret at 1. rewrite Hpop. apply cleanupDeps_collecting.
  - unfold bind at 1, ret at 1. rewrite Hpop. apply cleanupDeps_collecting.
  - unfold bind at 1, ret at 1. rewrite Hpop. apply cleanupDeps_collecting.
Qed.

Lemma get_settled w st this body known :
  watchers st !! w = Some this →
  getter this = Fn body →
  newDeps this = [] → newDepIds this = SimpleSet ∅ →
  depIds this = SimpleSet known →
  let nd := collect [] (touched this body) in
  let m := unsubscribe w (list_to_set nd) (reverse (deps this))
             (subscribe w known [] (touched this body) (subs st)) in
  get (SimpleSet ∅) w st =
    (completion this body,
     set_watchers
       (<[w := swap_collections (SimpleSet ∅)
                 (set_collecting (SimpleSet (list_to_set nd)) nd this)]>)
       (set_subs (λ _, m)
          (popTarget (reported w this body (pushTarget (WatcherRef w) st))))).
Proof.
  intros Hw Hg Hn Hi Hk. cbv zeta. unfold get.
  set (st1 := pushTarget (WatcherRef w) st).
  assert (watchers st1 !! w = Some this) as Hw1 by done.
  rewrite Hw1. rewrite Hg at 1. unfold call_getter, bind at 1.
  rewrite <- (collecting_start w this st1 Hw1 Hn Hi) at 1.
  rewrite (touch_collecting w this known st1 (reads body) [] (subs st1) Hk eq_refl).
  unfold touched, completion, reported.
  destruct (outcome body) as [v|e] eqn:Hout.
  - unfold ret.
    rewrite (finally_collecting w this body known _ _ st1 true Hg Hk eq_refl).
    rewrite andb_true_r, collect_app, subscribe_app. done.
  - unfold throw. destruct (user this).
    + change (emit (HandleError (Thrown e) w)
                (collecting w this (collect [] (reads body))
                   (subscribe w known [] (reads body) (subs st1)) st1))
        with (collecting w this (collect [] (reads body))
                (subscribe w known [] (reads body) (subs st1))
                (emit (HandleError (Thrown e) w) st1)).
      rewrite (finally_collecting w this body known _ _
                 (emit (HandleError (Thrown e) w) st1) false Hg Hk eq_refl).
      rewrite andb_false_r, app_nil_r. done.
    + rewrite (finally_collecting w this body known _ _ st1 false Hg Hk eq_refl).
      rewrite andb_false_r, app_nil_r. done.
Qed.

(** Dependency soundness, for an id-set that is reset as the constructor
    builds it.  If [new set([])] evaluated to an empty [Set], every
    evaluation of a watcher that is settled would complete as the
    evaluator does (an exception of a user watcher being reported and
    swallowed), reconcile also when the evaluator throws, and leave the
    watcher settled again, with exactly the nodes touched as its
    dependencies, subscribed to them and unsubscribed from the nodes of
    the previous evaluation that were not touched. *)
Theorem get_dependency_soundness (w : nat) (st : Store) (this : Watcher) (body : Script) :
  watchers st !! w = Some this →
  getter this = Fn body →
  settled this →
  ∃ st' this',
    get (SimpleSet ∅) w st = (completion this body, st') ∧
    watchers st' !! w = Some this' ∧
    settled this' ∧
    (∀ d, d ∈ deps this' ↔ d ∈ touched this body) ∧
    (∀ d, d ∈ deps this → d ∉ touched this body →
          subs st' !! d = (λ l, Util.remove l w) <$> subs st !! d) ∧
    (∀ d, (w ∈ default [] (subs st !! d) ↔ d ∈ deps this) →
          NoDup (default [] (subs st !! d)) →
          (w ∈ default [] (subs st' !! d) ↔ d ∈ touched this body)).
Proof.
  intros Hw Hg (Hn & Hi & Hk & Hnd).
  rewrite (get_settled w st this body _ Hw Hg Hn Hi Hk). cbv zeta.
  set (nd := collect [] (touched this body)).
  assert (∀ d, d ∈ nd ↔ d ∈ touched this body) as Hnd_elem.
  { intros d. unfold nd. rewrite elem_of_collect, elem_of_nil. tauto. }
  assert (NoDup nd) as Hnd_nodup by apply NoDup_collect, NoDup_nil_2.
  assert (∀ d, (unsubscribe w (list_to_set nd) (reverse (deps this))
                  (subscribe w (list_to_set (deps this)) [] (touched this body) (subs st)))
               !! d =
             if bool_decide (d ∈ deps this ∧ (d ∉ touched this body))
             then (λ l, Util.remove l w) <$> subs st !! d
             else if bool_decide (d ∈ touched this body ∧ (d ∉ deps this))
                  then Some (default [] (subs st !! d) ++ [w])
                  else subs st !! d) as Hsubs.
  { intros d. rewrite lookup_unsubscribe by (by rewrite reverse_Permutation).
    rewrite lookup_subscribe.
    assert (bool_decide (d ∈ reverse (deps this) ∧ (d ∉ (list_to_set nd : gset nat)))
            = bool_decide (d ∈ deps this ∧ (d ∉ touched this body))) as ->.
    { apply bool_decide_ext. rewrite elem_of_reverse, elem_of_list_to_set, Hnd_elem. done. }
    assert (bool_decide (d ∈ touched this body ∧ (d ∉ []) ∧
                         (d ∉ (list_to_set (deps this) : gset nat)))
            = bool_decide (d ∈ touched this body ∧ (d ∉ deps this))) as ->.
    { apply bool_decide_ext. rewrite elem_of_list_to_set, elem_of_nil. tauto. }
    case_bool_decide as H1; [|done].
    rewrite bool_decide_eq_false_2 by tauto. done. }
  eexists _, _. split; [reflexivity|].
  cbn [watchers set_watchers subs set_subs]. rewrite lookup_insert_eq.
  split; [reflexivity|]. split_and!.
  - done.
  - intros d. cbn. apply Hnd_elem.
  - intros d Hd Hnt. rewrite Hsubs. by rewrite bool_decide_eq_true_2.
  - intros d Hcoh Hnodup. rewrite Hsubs.
    case_bool_decide as H1.
    + destruct H1 as [Hd Hnt].
      destruct (subs st !! d) as [l|] eqn:Hl; simpl in *.
      * destruct (UtilFacts.remove_NoDup l w Hnodup) as [_ Hout]. tauto.
      * rewrite elem_of_nil. tauto.
    + case_bool_decide as H2.
      * destruct H2 as [Ht Hnd']. simpl. rewrite elem_of_app, list_elem_of_singleton.
        tauto.
      * rewrite Hcoh.
        destruct (decide (d ∈ deps this)), (decide (d ∈ touched this body)); tauto.
Qed.

(** With an empty [Set] in place of [new set([])], the constructor leaves
    the example watcher settled, subscribed to the node it read. *)
Example constructor_first_evaluation :
  constructor (SimpleSet ∅) parse_simple_path false 0 (Function_ reads_seven)
    None false one_component =
  (Ok 1,
   set_target JsUndefined []
     (set_uid 1
        (set_components
           (<[0 := {| _isBeingDestroyed := false; _watcher := None;
                      _watchers := [1] |}]>)
           after_first_evaluation))).
Proof. vm_compute. reflexivity. Qed.

(** The watcher the constructor builds for an evaluator that reads the
    node 7, with a proper id-set, evaluated a second time. *)
Lemma get_dependency_soundness_witness :
  ∃ st' this',
    get (SimpleSet ∅) 1 after_first_evaluation =
      (completion first_watcher reads_seven, st') ∧
    watchers st' !! 1 = Some this' ∧
    settled this' ∧
    (∀ d, d ∈ deps this' ↔ d ∈ touched first_watcher reads_seven) ∧
    (∀ d, d ∈ deps first_watcher → d ∉ touched first_watcher reads_seven →
          subs st' !! d = (λ l, Util.remove l 1) <$> subs after_first_evaluation !! d) ∧
    (∀ d, (1 ∈ default [] (subs after_first_evaluation !! d) ↔ d ∈ deps first_watcher) →
          NoDup (default [] (subs after_first_evaluation !! d)) →
          (1 ∈ default [] (subs st' !! d) ↔ d ∈ touched first_watcher reads_seven)).
Proof.
  apply (get_dependency_soundness 1 after_first_evaluation first_watcher reads_seven).
  - reflexivity.
  - reflexivity.
  - repeat split; try reflexivity. apply NoDup_singleton.
Defined.

(** *** The subscriber and scheduler interface *)

(** The evaluation of a settled watcher, whatever [cleanupDeps] installs
    as the next [newDepIds]. *)
Lemma cleanupDeps_collecting_with new_set w this nd m st :
  cleanupDeps new_set w (collecting w this nd m st) =
    (Ok tt,
     set_watchers
       (<[w := swap_collections new_set
                 (set_collecting (SimpleSet (list_to_set nd)) nd this)]>)
       (set_subs (λ _, unsubscribe w (list_to_set nd) (reverse (deps this)) m) st)).
Proof.
  unfold cleanupDeps, bind at 1, this_watcher at 1.
  cbn [watchers collecting set_subs set_watchers]. rewrite lookup_insert_eq.
  unfold bind at 1. cbn [deps set_collecting].
  change (set_subs (λ _, m) (set_watchers (<[w := set_collecting (SimpleSet (list_to_set nd)) nd this]>) st))
    with (collecting w this nd m st).
  rewrite cleanup_loop_collecting.
  unfold bind, this_watcher, modify.
  cbn [watchers collecting set_subs set_watchers]. rewrite lookup_insert_eq.
  unfold collecting, set_subs, set_watchers. cbn. by rewrite insert_insert_eq.
Qed.

Lemma finally_collecting_with new_set w this body known nd m st (returned : bool) :
  getter this = Fn body →
  depIds this = SimpleSet known →
  Dep_target st = WatcherRef w →
  let extra := if deep this && returned then deep_reads body else [] in
  let nd' := collect nd extra in
  ((if deep this then traverse (getter this) returned else ret tt) ;;
   modify popTarget ;; cleanupDeps new_set w) (collecting w this nd m st) =
    (Ok tt,
     set_watchers
       (<[w := swap_collections new_set
                 (set_collecting (SimpleSet (list_to_set nd')) nd' this)]>)
       (set_subs
          (λ _, unsubscribe w (list_to_set nd') (reverse (deps this))
                  (subscribe w known nd extra m))
          (popTarget st))).
Proof.
  intros Hg Hk Ht. cbv zeta. rewrite Hg.
  assert (∀ nd m, (modify popTarget ;; cleanupDeps new_set w)
                    (collecting w this nd m st) =
                  cleanupDeps new_set w (collecting w this nd m (popTarget st)))
    as Hpop by done.
  destruct (deep this), returned; cbn [andb traverse].
  - unfold bind at 1.
    rewrite (touch_collecting w this known st (deep_reads body) nd m Hk Ht).
    rewrite Hpop. apply cleanupDeps_collecting_with.
  - unfold bind at 1, ret at 1. rewrite Hpop. apply cleanupDeps_collecting_with.
  - unfold bind at 1, ret at 1. rewrite Hpop. apply cleanupDeps_collecting_with.
  - unfold bind at 1, ret at 1. rewrite Hpop. apply cleanupDeps_collecting_with.
Qed.

Lemma get_settled_with new_set w st this body known :
  watchers st !! w = Some this →
  getter this = Fn body →
  newDeps this = [] → newDepIds this = SimpleSet ∅ →
  depIds this = SimpleSet known →
  let nd := collect [] (touched this body) in
  let m := unsubscribe w (list_to_set nd) (reverse (deps this))
             (subscribe w known [] (touched this body) (subs st)) in
  get new_set w st =
    (completion this body,
     set_watchers
       (<[w := swap_collections new_set
                 (set_collecting (SimpleSet (list_to_set nd)) nd this)]>)
       (set_subs (λ _, m)
          (popTarget (reported w this body (pushTarget (WatcherRef w) st))))).
Proof.
  intros Hw Hg Hn Hi Hk. cbv zeta. unfold get.
  set (st1 := pushTarget (WatcherRef w) st).
  assert (watchers st1 !! w = Some this) as Hw1 by done.
  rewrite Hw1. rewrite Hg at 1. unfold call_getter, bind at 1.
  rewrite <- (collecting_start w this st1 Hw1 Hn Hi) at 1.
  rewrite (touch_collecting w this known st1 (reads body) [] (subs st1) Hk eq_refl).
  unfold touched, completion, reported.
  destruct (outcome body) as [v|e] eqn:Hout.
  - unfold ret.
    rewrite (finally_collecting_with new_set w this body known _ _ st1 true Hg Hk eq_refl).
    rewrite andb_true_r, collect_app, subscribe_app. done.
  - unfold throw. destruct (user this).
    + change (emit (HandleError (Thrown e) w)
                (collecting w this (collect [] (reads body))
                   (subscribe w known [] (reads body) (subs st1)) st1))
        with (collecting w this (collect [] (reads body))
                (subscribe w known [] (reads body) (subs st1))
                (emit (HandleError (Thrown e) w) st1)).
      rewrite (finally_collecting_with new_set w this body known _ _
                 (emit (HandleError (Thrown e) w) st1) false Hg Hk eq_refl).
      rewrite andb_false_r, app_nil_r. done.
    + rewrite (finally_collecting_with new_set w this body known _ _ st1 false Hg Hk eq_refl).
      rewrite andb_false_r, app_nil_r. done.
Qed.

(** What an evaluation of a settled watcher leaves behind. *)
Lemma get_settled_outcome new_set w st this body :
  watchers st !! w = Some this →
  getter this = Fn body →
  settled this →
  ∃ st' this',
    get new_set w st = (completion this body, st') ∧
    watchers st' = <[w := this']> (watchers st) ∧
    components st' = components st ∧
    evaluated new_set this' ∧
    (∀ d, d ∈ deps this' ↔ d ∈ touched this body) ∧
    getter this' = getter this ∧ value this' = value this ∧
    dirty this' = dirty this ∧ active this' = active this ∧
    deep this' = deep this ∧ user this' = user this ∧
    lazy this' = lazy this ∧ sync this' = sync this ∧ vm this' = vm this ∧
    (∀ d, subs st' !! d =
          if bool_decide (d ∈ deps this ∧ (d ∉ touched this body))
          then (λ l, Util.remove l w) <$> subs st !! d
          else if bool_decide (d ∈ touched this body ∧ (d ∉ deps this))
               then Some (default [] (subs st !! d) ++ [w])
               else subs st !! d).
Proof.
  intros Hw Hg (Hn & Hi & Hk & Hnd).
  rewrite (get_settled_with new_set w st this body _ Hw Hg Hn Hi Hk). cbv zeta.
  set (nd := collect [] (touched this body)).
  assert (∀ d, d ∈ nd ↔ d ∈ touched this body) as Hnd_elem.
  { intros d. unfold nd. rewrite elem_of_collect, elem_of_nil. tauto. }
  assert (NoDup nd) as Hnd_nodup by apply NoDup_collect, NoDup_nil_2.
  eexists _, _. split; [reflexivity|].
  cbn [watchers set_watchers subs set_subs components].
  assert (∀ s, watchers (popTarget (reported w this body s)) = watchers s) as Hws.
  { intros s. unfold reported. by destruct (outcome body), (user this). }
  assert (∀ s, components (popTarget (reported w this body s)) = components s) as Hcs.
  { intros s. unfold reported. by destruct (outcome body), (user this). }
  rewrite Hws, Hcs.
  split; [reflexivity|]. split; [done|].
  split_and!; try done.
  intros d. rewrite lookup_unsubscribe by (by rewrite reverse_Permutation).
  rewrite lookup_subscribe.
  assert (bool_decide (d ∈ reverse (deps this) ∧ (d ∉ (list_to_set nd : gset nat)))
          = bool_decide (d ∈ deps this ∧ (d ∉ touched this body))) as ->.
  { apply bool_decide_ext. rewrite elem_of_reverse, elem_of_list_to_set, Hnd_elem. done. }
  assert (bool_decide (d ∈ touched this body ∧ (d ∉ []) ∧
                       (d ∉ (list_to_set (deps this) : gset nat)))
          = bool_decide (d ∈ touched this body ∧ (d ∉ deps this))) as ->.
  { apply bool_decide_ext. rewrite elem_of_list_to_set, elem_of_nil. tauto. }
  case_bool_decide as H1; [|done].
  rewrite bool_decide_eq_false_2 by tauto. done.
Qed.

(** Dependency soundness of an evaluation that starts with an empty
    [newDeps] and an empty [Set] as [newDepIds] (every first evaluation:
    the constructor builds the two so), whatever object [cleanupDeps]
    installs next.  [get()] completes as the evaluator does (an exception
    of a user watcher being reported and swallowed), reconciles also when
    the evaluator throws, and leaves the watcher with exactly the nodes
    touched as its [deps], none twice, their ids as [depIds], an empty
    [newDeps] and the object installed as [newDepIds]; the watcher is
    removed from the array of every former dependency that was not
    touched, and is subscribed to exactly the nodes touched. *)
Theorem get_reconciles_dependencies (new_set : IdSet) (w : nat) (st : Store)
    (this : Watcher) (body : Script) :
  watchers st !! w = Some this →
  getter this = Fn body →
  settled this →
  ∃ st' this',
    get new_set w st = (completion this body, st') ∧
    watchers st' !! w = Some this' ∧
    evaluated new_set this' ∧
    (∀ d, d ∈ deps this' ↔ d ∈ touched this body) ∧
    (∀ d, d ∈ deps this → d ∉ touched this body →
          subs st' !! d = (λ l, Util.remove l w) <$> subs st !! d) ∧
    (∀ d, (w ∈ default [] (subs st !! d) ↔ d ∈ deps this) →
          NoDup (default [] (subs st !! d)) →
          (w ∈ default [] (subs st' !! d) ↔ d ∈ touched this body)).
Proof.
  intros Hw Hg Hs.
  destruct (get_settled_outcome new_set w st this body Hw Hg Hs)
    as (st' & this' & Hget & Hws & _ & Hev & Hd & _ & _ & _ & _ & _ & _ & _ & _ & _ & Hsubs).
  exists st', this'. rewrite Hws, lookup_insert_eq. split_and!; try done.
  - intros d Hin Hnt. rewrite Hsubs. by rewrite bool_decide_eq_true_2.
  - intros d Hcoh Hnodup. rewrite Hsubs.
    case_bool_decide as H1.
    + destruct H1 as [Hin Hnt].
      destruct (subs st !! d) as [l|] eqn:Hl; simpl in *.
      * destruct (UtilFacts.remove_NoDup l w Hnodup) as [_ Hout]. tauto.
      * rewrite elem_of_nil. tauto.
    + case_bool_decide as H2.
      * destruct H2 as [Ht Hnd']. simpl. rewrite elem_of_app, list_elem_of_singleton.
        tauto.
      * rewrite Hcoh.
        destruct (decide (d ∈ deps this)), (decide (d ∈ touched this body)); tauto.
Qed.

(** A computed watcher read for the first time, with the object of
    [new set([])] installed. *)
Lemma get_reconciles_dependencies_witness :
  let st := set_watchers (<[1 := computed_watcher reads_seven]>) one_component in
  ∃ st' this',
    get ForeignObject 1 st = (completion (computed_watcher reads_seven) reads_seven, st') ∧
    watchers st' !! 1 = Some this' ∧
    evaluated ForeignObject this' ∧
    (∀ d, d ∈ deps this' ↔ d ∈ touched (computed_watcher reads_seven) reads_seven) ∧
    (∀ d, d ∈ deps (computed_watcher reads_seven) →
          d ∉ touched (computed_watcher reads_seven) reads_seven →
          subs st' !! d = (λ l, Util.remove l 1) <$> subs st !! d) ∧
    (∀ d, (1 ∈ default [] (subs st !! d) ↔ d ∈ deps (computed_watcher reads_seven)) →
          NoDup (default [] (subs st !! d)) →
          (1 ∈ default [] (subs st' !! d) ↔
           d ∈ touched (computed_watcher reads_seven) reads_seven)).
Proof.
  apply (get_reconciles_dependencies ForeignObject 1
           (set_watchers (<[1 := computed_watcher reads_seven]>) one_component)
           (computed_watcher reads_seven) reads_seven).
  - reflexivity.
  - reflexivity.
  - repeat split; try reflexivity. apply NoDup_nil_2.
Defined.

(** [run()] on a watcher that has been torn down does not evaluate it and
    does not invoke its callback: the call returns and leaves the store
    exactly as it is, whatever the callback is.  So does [update()] on a
    torn-down watcher that is synchronous and not lazy, whatever the
    scheduler is.  (It is [run] that tests [active]; [evaluate] and [get]
    do not.) *)
Theorem run_after_teardown (new_set : IdSet) (queueWatcher : nat → M unit)
    (cb : nat → Value → Value → M unit) (w : nat) (st st' : Store) :
  teardown w st = (Ok tt, st') →
  run new_set cb w st' = (Ok tt, st') ∧
  ∀ this, watchers st' !! w = Some this → lazy this = false → sync this = true →
    update new_set queueWatcher cb w st' = (Ok tt, st').
Proof.
  intros Ht. destruct (teardown_inactive w st st' Ht) as (this & Hw & Hact).
  assert (run new_set cb w st' = (Ok tt, st')) as Hrun.
  { unfold run, bind, this_watcher. by rewrite Hw, Hact. }
  split; [done|].
  intros this' Hw' Hlazy Hsync.
  unfold update, bind at 1, this_watcher at 1. by rewrite Hw', Hlazy, Hsync.
Qed.

Lemma run_after_teardown_witness :
  let st' := (teardown 1 after_sync_evaluation).2 in
  run (SimpleSet ∅) throwing_callback 1 st' = (Ok tt, st') ∧
  update (SimpleSet ∅) (λ _, throw TypeError) throwing_callback 1 st' = (Ok tt, st').
Proof.
  cbv zeta.
  destruct (run_after_teardown (SimpleSet ∅) (λ _, throw TypeError) throwing_callback 1
              after_sync_evaluation (teardown 1 after_sync_evaluation).2 eq_refl)
    as [H1 H2].
  split; [exact H1|].
  apply (H2 (set_active false sync_watcher)); reflexivity.
Defined.

(** [evaluate()] does not test [active]: a lazy watcher that has been
    torn down is evaluated, and subscribed, when it is read. *)
Example evaluate_after_teardown :
  let st := (teardown 1 (set_watchers (<[1 := computed_watcher reads_seven]>)
                           one_component)).2 in
  let out := evaluate ForeignObject 1 st in
  active <$> watchers st !! 1 = Some false ∧
  out.1 = Ok tt ∧
  value <$> watchers out.2 !! 1 = Some (VPrimitive 1) ∧
  subs out.2 !! 7 = Some [1].
Proof. vm_compute. repeat split; reflexivity. Qed.

(** Reads, and [cleanupDeps], while [newDepIds] holds an object without
    [has]. *)
Lemma touch_foreign w this ds st :
  Dep_target st = WatcherRef w →
  watchers st !! w = Some this →
  newDepIds this = ForeignObject →
  touch ds st = (match ds with [] => Ok tt | _ => Throw TypeError end, st).
Proof.
  intros Ht Hw Hf. destruct ds as [|d ds]; [done|].
  cbn [touch]. unfold bind at 1, depend. rewrite Ht. cbn [active_watcher].
  unfold addDep, bind at 1, this_watcher. rewrite Hw.
  unfold bind at 1. rewrite Hf. done.
Qed.

Lemma cleanupDeps_foreign new_set w this st :
  watchers st !! w = Some this →
  newDepIds this = ForeignObject →
  deps this ≠ [] →
  cleanupDeps new_set w st = (Throw TypeError, st).
Proof.
  intros Hw Hf Hd. unfold cleanupDeps, bind at 1, this_watcher at 1. rewrite Hw.
  destruct (reverse (deps this)) as [|d rest] eqn:Hr.
  { apply (f_equal reverse) in Hr. rewrite reverse_involutive in Hr. done. }
  cbn [cleanup_loop]. unfold bind at 1. unfold bind at 1, this_watcher at 1. rewrite Hw.
  unfold bind at 1. rewrite Hf. done.
Qed.

Lemma get_foreign new_set w st this :
  watchers st !! w = Some this →
  newDepIds this = ForeignObject →
  deps this ≠ [] →
  ∃ st', get new_set w st = (Throw TypeError, st') ∧
         watchers st' = watchers st ∧ subs st' = subs st ∧
         components st' = components st.
Proof.
  intros Hw Hf Hd. unfold get. cbv zeta.
  set (st1 := pushTarget (WatcherRef w) st).
  assert (watchers st1 !! w = Some this) as Hw1 by done.
  assert (Dep_target st1 = WatcherRef w) as Ht1 by done.
  rewrite Hw1.
  assert (∀ s, watchers s !! w = Some this → Dep_target s = WatcherRef w →
               ∃ s', ((if deep this then traverse (getter this) true else ret tt) ;;
                      modify popTarget ;; cleanupDeps new_set w) s = (Throw TypeError, s') ∧
                     watchers s' = watchers s ∧ subs s' = subs s ∧
                     components s' = components s) as Hfin_true.
  { intros s Hs Hts.
    assert (cleanupDeps new_set w (popTarget s) = (Throw TypeError, popTarget s)) as Hc.
    { by apply (cleanupDeps_foreign new_set w this). }
    destruct (deep this).
    - unfold traverse. destruct (getter this) as [|body].
      + unfold bind, ret, modify. rewrite Hc. by eexists.
      + unfold bind at 1. rewrite (touch_foreign w this _ s Hts Hs Hf).
        destruct (deep_reads body).
        * unfold bind, modify. rewrite Hc. by eexists.
        * by eexists.
    - unfold bind, ret, modify. rewrite Hc. by eexists. }
  assert (∀ s, watchers s !! w = Some this →
               ∃ s', ((if deep this then traverse (getter this) false else ret tt) ;;
                      modify popTarget ;; cleanupDeps new_set w) s = (Throw TypeError, s') ∧
                     watchers s' = watchers s ∧ subs s' = subs s ∧
                     components s' = components s) as Hfin_false.
  { intros s Hs.
    assert (cleanupDeps new_set w (popTarget s) = (Throw TypeError, popTarget s)) as Hc.
    { by apply (cleanupDeps_foreign new_set w this). }
    assert (traverse (getter this) false = ret tt) as Htr by (by destruct (getter this)).
    rewrite Htr. destruct (deep this); unfold bind, ret, modify; rewrite Hc; by eexists. }
  destruct (getter this) as [|body] eqn:Hg; cbn [call_getter].
  - unfold ret at 1.
    destruct (Hfin_true st1 Hw1 Ht1) as (s' & -> & H1 & H2 & H3). by exists s'.
  - unfold bind at 1. rewrite (touch_foreign w this _ st1 Ht1 Hw1 Hf).
    destruct (reads body) as [|d ds].
    + destruct (outcome body) as [v|e].
      * unfold ret at 1.
        destruct (Hfin_true st1 Hw1 Ht1) as (s' & -> & H1 & H2 & H3). by exists s'.
      * unfold throw at 1. destruct (user this).
        -- destruct (Hfin_false (emit (HandleError (Thrown e) w) st1)) as (s' & -> & H1 & H2 & H3);
             [done|]. by exists s'.
        -- destruct (Hfin_false st1 Hw1) as (s' & -> & H1 & H2 & H3). by exists s'.
    + destruct (user this).
      * destruct (Hfin_false (emit (HandleError TypeError w) st1)) as (s' & -> & H1 & H2 & H3);
          [done|]. by exists s'.
      * destruct (Hfin_false st1 Hw1) as (s' & -> & H1 & H2 & H3). by exists s'.
Qed.

(** [run()] on a watcher that has been evaluated, in this repository.
    When [newDepIds] holds the object [cleanupDeps] built with
    [new set([])] (no [has] method) and the watcher has a dependency,
    [get()] ends in a [TypeError], raised by [cleanupDeps] in the
    [finally] block at the latest: [run()] on an active watcher throws
    it, whatever the evaluator does, the callback is not invoked, and the
    watchers (their values and collections) and all subscriber arrays are
    left as they were.  So does [update()] when the watcher is
    synchronous and not lazy. *)
Theorem run_throws_after_evaluation (new_set : IdSet) (queueWatcher : nat → M unit)
    (w : nat) (st : Store) (this : Watcher) :
  watchers st !! w = Some this →
  active this = true →
  newDepIds this = ForeignObject →
  deps this ≠ [] →
  ∃ st',
    (∀ cb, run new_set cb w st = (Throw TypeError, st')) ∧
    (lazy this = false → sync this = true →
     ∀ cb, update new_set queueWatcher cb w st = (Throw TypeError, st')) ∧
    watchers st' = watchers st ∧ subs st' = subs st.
Proof.
  intros Hw Hact Hf Hd.
  destruct (get_foreign new_set w st this Hw Hf Hd) as (st' & Hget & Hws & Hss & _).
  assert (∀ cb, run new_set cb w st = (Throw TypeError, st')) as Hrun.
  { intros cb. unfold run. unfold bind at 1, this_watcher at 1. rewrite Hw, Hact.
    unfold bind at 1. by rewrite Hget. }
  exists st'. split_and!; try done.
  intros Hlazy Hsync cb. unfold update, bind at 1, this_watcher at 1.
  rewrite Hw, Hlazy, Hsync. apply Hrun.
Qed.

(** The watcher the constructor builds for an evaluator that reads the
    node 7, as the constructor leaves it. *)
Lemma run_throws_after_evaluation_witness :
  let built :=
    (constructor ForeignObject parse_simple_path false 0 (Function_ reads_seven)
       None false one_component).2 in
  ∃ st',
    (∀ cb, run ForeignObject cb 1 built = (Throw TypeError, st')) ∧
    watchers st' = watchers built ∧ subs st' = subs built.
Proof.
  cbv zeta.
  edestruct (run_throws_after_evaluation ForeignObject (λ _, ret tt) 1
              (constructor ForeignObject parse_simple_path false 0 (Function_ reads_seven)
                 None false one_component).2) as (st' & H1 & _ & H2 & H3).
  - vm_compute. reflexivity.
  - reflexivity.
  - reflexivity.
  - discriminate.
  - exists st'. split_and!; [exact H1|exact H2|exact H3].
Defined.

(** [evaluate()] on a watcher whose [newDeps] is empty and whose
    [newDepIds] is an empty [Set] (a computed property read for the first
    time), whatever object [cleanupDeps] installs next.  When the
    evaluator returns, the watcher holds its result, is no longer dirty,
    and depends on exactly the nodes the evaluator touched.  When the evaluator of a watcher that is not a
    user watcher throws, the exception leaves [evaluate] and the watcher
    keeps its value and stays as dirty as it was, its dependencies being
    reconciled all the same. *)
Theorem evaluate_caches (new_set : IdSet) (w : nat) (st : Store) (this : Watcher)
    (body : Script) :
  watchers st !! w = Some this →
  getter this = Fn body →
  settled this →
  ∃ st' this',
    watchers st' !! w = Some this' ∧
    evaluated new_set this' ∧
    (∀ d, d ∈ deps this' ↔ d ∈ touched this body) ∧
    match completion this body with
    | Ok v =>
        evaluate new_set w st = (Ok tt, st') ∧
        value this' = v ∧ dirty this' = false
    | Throw e =>
        evaluate new_set w st = (Throw e, st') ∧
        value this' = value this ∧ dirty this' = dirty this
    end.
Proof.
  intros Hw Hg Hs.
  destruct (get_settled_outcome new_set w st this body Hw Hg Hs)
    as (st1 & this1 & Hget & Hws & _ & Hs1 & Hd1 & _ & Hv & Hdirty & _).
  destruct (completion this body) as [v|e].
  - eexists _, _. split_and!; [| | |unfold evaluate; by rewrite (bind_ok _ _ _ _ _ Hget)| |].
    + cbn. rewrite !lookup_alter_eq, Hws, lookup_insert_eq. reflexivity.
    + done.
    + done.
    + done.
    + done.
  - exists st1, this1. rewrite Hws, lookup_insert_eq. split_and!; try done.
    unfold evaluate. by rewrite (bind_throw _ _ _ _ _ Hget).
Qed.

Lemma evaluate_caches_witness :
  ∃ st' this',
    watchers st' !! 1 = Some this' ∧
    evaluated ForeignObject this' ∧
    (∀ d, d ∈ deps this' ↔ d ∈ touched (computed_watcher reads_seven) reads_seven) ∧
    match completion (computed_watcher reads_seven) reads_seven with
    | Ok v =>
        evaluate ForeignObject 1
          (set_watchers (<[1 := computed_watcher reads_seven]>) one_component) =
          (Ok tt, st') ∧
        value this' = v ∧ dirty this' = false
    | Throw e =>
        evaluate ForeignObject 1
          (set_watchers (<[1 := computed_watcher reads_seven]>) one_component) =
          (Throw e, st') ∧
        value this' = value (computed_watcher reads_seven) ∧
        dirty this' = dirty (computed_watcher reads_seven)
    end.
Proof.
  apply (evaluate_caches ForeignObject 1
           (set_watchers (<[1 := computed_watcher reads_seven]>) one_component)
           (computed_watcher reads_seven) reads_seven).
  - reflexivity.
  - reflexivity.
  - repeat split; try reflexivity. apply NoDup_nil_2.
Defined.

Lemma touch_no_target ds st :
  active_watcher (Dep_target st) = None → touch ds st = (Ok tt, st).
Proof.
  intros Ht. induction ds as [|d ds IH]; [done|].
  cbn [touch]. unfold bind, depend. by rewrite Ht.
Qed.

Lemma collecting_id w this st :
  watchers st !! w = Some this →
  newDepIds this = SimpleSet (list_to_set (newDeps this)) →
  collecting w this (newDeps this) (subs st) st = st.
Proof.
  intros Hw Hi. unfold collecting, set_subs, set_watchers. simpl.
  assert (set_collecting (SimpleSet (list_to_set (newDeps this))) (newDeps this) this
          = this) as ->.
  { destruct this. simpl in *. by subst. }
  rewrite insert_id by done. by destruct st.
Qed.

(** [depend()] of a watcher (a computed property read while another
    watcher is being evaluated).  With no watcher being evaluated nothing
    happens.  Otherwise the watcher [r] being evaluated collects every
    dependency of the computed watcher: they are added to its [newDeps]
    (none twice), and [r] is appended to the subscriber array of exactly
    those it neither collected already nor knew from its last
    evaluation; no other array changes. *)
Theorem Watcher_depend_forwards (c : nat) (st : Store) (computed : Watcher) :
  watchers st !! c = Some computed →
  (active_watcher (Dep_target st) = None → Watcher_depend c st = (Ok tt, st)) ∧
  ∀ r outer known,
    Dep_target st = WatcherRef r →
    watchers st !! r = Some outer →
    newDepIds outer = SimpleSet (list_to_set (newDeps outer)) →
    depIds outer = SimpleSet known →
    ∃ st' outer',
      Watcher_depend c st = (Ok tt, st') ∧
      watchers st' !! r = Some outer' ∧
      (∀ d, d ∈ newDeps outer' ↔ d ∈ newDeps outer ∨ d ∈ deps computed) ∧
      (NoDup (newDeps outer) → NoDup (newDeps outer')) ∧
      newDepIds outer' = SimpleSet (list_to_set (newDeps outer')) ∧
      deps outer' = deps outer ∧
      ∀ d, subs st' !! d =
           if newly_subscribed computed outer known d
           then Some (default [] (subs st !! d) ++ [r])
           else subs st !! d.
Proof.
  intros Hc. split.
  - intros Ht. unfold Watcher_depend, bind, this_watcher. rewrite Hc.
    by apply touch_no_target.
  - intros r outer known Ht Hr Hi Hk.
    unfold Watcher_depend, bind, this_watcher. rewrite Hc.
    pose proof (touch_collecting r outer known st (reverse (deps computed))
                  (newDeps outer) (subs st) Hk Ht) as Htouch.
    rewrite (collecting_id r outer st Hr Hi) in Htouch. rewrite Htouch.
    eexists _, _. split; [reflexivity|].
    cbn [collecting watchers set_watchers set_subs subs].
    rewrite lookup_insert_eq. split; [reflexivity|].
    cbn [newDeps set_collecting newDepIds deps].
    split_and!; try done.
    + intros d. rewrite elem_of_collect, elem_of_reverse. done.
    + apply NoDup_collect.
    + intros d. rewrite lookup_subscribe. unfold newly_subscribed.
      apply (f_equal (λ b : bool, if b then _ else _)).
      apply bool_decide_ext. by rewrite elem_of_reverse.
Qed.

Lemma Watcher_depend_forwards_witness :
  Watcher_depend 1 after_first_evaluation = (Ok tt, after_first_evaluation) ∧
  ∃ st' outer',
    Watcher_depend 1 evaluating_second = (Ok tt, st') ∧
    watchers st' !! 2 = Some outer' ∧
    (∀ d, d ∈ newDeps outer' ↔ d ∈ newDeps second_watcher ∨ d ∈ deps first_watcher) ∧
    (NoDup (newDeps second_watcher) → NoDup (newDeps outer')) ∧
    newDepIds outer' = SimpleSet (list_to_set (newDeps outer')) ∧
    deps outer' = deps second_watcher ∧
    ∀ d, subs st' !! d =
         if newly_subscribed first_watcher second_watcher ∅ d
         then Some (default [] (subs evaluating_second !! d) ++ [2])
         else subs evaluating_second !! d.
Proof.
  split.
  - apply (proj1 (Watcher_depend_forwards 1 after_first_evaluation first_watcher eq_refl)).
    reflexivity.
  - apply (proj2 (Watcher_depend_forwards 1 evaluating_second first_watcher eq_refl)
             2 second_watcher ∅); reflexivity.
Defined.

Lemma filter_remove_ne (l : list nat) (w : nat) :
  filter (λ x, x ≠ w) (Util.remove l w) = filter (λ x, x ≠ w) l.
Proof.
  induction l as [|x l IH]; [done|]. simpl.
  case_decide as Hx.
  - subst. by rewrite filter_cons_False by (intros H; by apply H).
  - by rewrite !filter_cons_True, IH by done.
Qed.

(** Evaluating a watcher keeps the subscriber arrays free of duplicates:
    if no array holds a watcher twice and the watcher [w], whose
    [newDepIds] is an empty [Set], is subscribed to no node outside its
    [deps], the same holds after [get()], for the new [deps]. *)
Theorem get_keeps_subscriptions_unique (new_set : IdSet) (w : nat) (st : Store)
    (this : Watcher) (body : Script) :
  watchers st !! w = Some this →
  getter this = Fn body →
  settled this →
  subscribed_within w (deps this) st →
  ∃ st' this',
    (get new_set w st).2 = st' ∧
    watchers st' !! w = Some this' ∧
    subscribed_within w (deps this') st'.
Proof.
  intros Hw Hg Hs Hsub.
  destruct (get_settled_outcome new_set w st this body Hw Hg Hs)
    as (st1 & this1 & Hget & Hws & _ & _ & Hd1 & _ & _ & _ & _ & _ & _ & _ & _ & _ & Hsubs).
  exists st1, this1. rewrite Hget, Hws, lookup_insert_eq.
  split; [done|]. split; [done|].
  intros d. destruct (Hsub d) as [Hnd Hin]. rewrite Hsubs, Hd1.
  case_bool_decide as H1.
  - destruct H1 as [Hd Hnt].
    destruct (subs st !! d) as [l|] eqn:Hl; simpl in *.
    + destruct (UtilFacts.remove_NoDup l w Hnd) as [Hnd' Hout]. split; [done|]. tauto.
    + split; [done|]. by intros ?%elem_of_nil.
  - case_bool_decide as H2.
    + destruct H2 as [Ht Hnd']. simpl. split; [|done].
      apply NoDup_app. split_and!; [done| |apply NoDup_singleton].
      intros x Hx ->%list_elem_of_singleton. tauto.
    + split; [done|]. intros Hin'. specialize (Hin Hin').
      destruct (decide (d ∈ touched this body)); tauto.
Qed.

Lemma get_keeps_subscriptions_unique_witness :
  ∃ st' this',
    (get (SimpleSet ∅) 1 after_first_evaluation).2 = st' ∧
    watchers st' !! 1 = Some this' ∧
    subscribed_within 1 (deps this') st'.
Proof.
  apply (get_keeps_subscriptions_unique (SimpleSet ∅) 1 after_first_evaluation first_watcher
           reads_seven).
  - reflexivity.
  - reflexivity.
  - repeat split; try reflexivity. apply NoDup_singleton.
  - intros d. destruct (decide (d = 7)) as [->|Hne].
    + split; [apply NoDup_singleton|]. intros _. left.
    + assert (subs after_first_evaluation !! d = None) as ->.
      { unfold after_first_evaluation. simpl. by rewrite lookup_insert_ne. }
      split; [apply NoDup_nil_2|]. by intros ?%elem_of_nil.
Defined.

(** Evaluating a watcher whose [newDepIds] is an empty [Set] does not
    disturb the subscriptions of any other watcher: in every subscriber
    array the other watchers stay, in the same order; only the watcher
    evaluated is appended or removed. *)
Theorem get_leaves_other_subscribers (new_set : IdSet) (w : nat) (st : Store)
    (this : Watcher) (body : Script) :
  watchers st !! w = Some this →
  getter this = Fn body →
  settled this →
  ∀ d, filter (λ x, x ≠ w) (default [] (subs (get new_set w st).2 !! d)) =
       filter (λ x, x ≠ w) (default [] (subs st !! d)).
Proof.
  intros Hw Hg Hs d.
  destruct (get_settled_outcome new_set w st this body Hw Hg Hs)
    as (st1 & this1 & Hget & _ & _ & _ & _ & _ & _ & _ & _ & _ & _ & _ & _ & _ & Hsubs).
  rewrite Hget. cbn [snd]. rewrite Hsubs.
  case_bool_decide as H1.
  - destruct (subs st !! d) as [l|]; simpl; [|done]. apply filter_remove_ne.
  - case_bool_decide as H2; [|done]. simpl.
    rewrite filter_app, filter_cons_False, filter_nil, app_nil_r; [done|].
    intros H. by apply H.
Qed.

Lemma get_leaves_other_subscribers_witness :
  filter (λ x, x ≠ 1)
    (default [] (subs (get (SimpleSet ∅) 1 after_first_evaluation).2 !! 7)) =
  filter (λ x, x ≠ 1) (default [] (subs after_first_evaluation !! 7)).
Proof.
  apply (get_leaves_other_subscribers (SimpleSet ∅) 1 after_first_evaluation first_watcher
           reads_seven).
  - reflexivity.
  - reflexivity.
  - repeat split; try reflexivity. apply NoDup_singleton.
Defined.

Lemma removeSub_all_subs w l : ∀ st,
  subs (foldl (λ s d, removeSub d w s) st l) = unsubscribe w ∅ l (subs st).
Proof.
  induction l as [|d l IH]; intros st; [done|].
  cbn [foldl unsubscribe]. rewrite IH. done.
Qed.

Lemma removeSub_all_components w l : ∀ st,
  components (foldl (λ s d, removeSub d w s) st l) = components st.
Proof. induction l as [|d l IH]; intros st; [done|]. cbn [foldl]. by rewrite IH. Qed.

Lemma remove_snoc (l : list nat) (x : nat) : x ∉ l → Util.remove (l ++ [x]) x = l.
Proof.
  induction l as [|y l IH]; intros Hx; simpl.
  - by rewrite decide_True.
  - apply not_elem_of_cons in Hx as [Hne Hx].
    rewrite decide_False by done. by rewrite IH.
Qed.

Lemma teardown_active w st this owner :
  watchers st !! w = Some this → active this = true →
  components st !! vm this = Some owner → _isBeingDestroyed owner = false →
  teardown w st =
    (Ok tt,
     set_watchers (alter (set_active false) w)
       (foldl (λ s d, removeSub d w s)
          (set_components (<[vm this := drop_watcher w owner]>) st)
          (reverse (deps this)))).
Proof.
  intros Hw Hact Hc Hbd.
  unfold teardown, bind at 1, this_watcher. rewrite Hw, Hact.
  unfold bind at 1, this_component. rewrite Hc, Hbd. done.
Qed.

(** A watcher that is constructed and then torn down leaves no trace:
    when the constructor returns (the evaluator, if it ran, did not make
    it throw) and the component is not being destroyed, [teardown()]
    leaves the watcher inactive, the component's [_watchers] as they
    were before the construction, and every subscriber array as it
    was. *)
Theorem constructor_teardown_round_trip (new_set : IdSet)
    (parsePath : string → option Script) (production : bool) (vmref : nat) (body : Script) (options : option Options)
    (isRenderWatcher : bool) (st st1 : Store) (owner : Component) (id : nat) :
  components st !! vmref = Some owner →
  _isBeingDestroyed owner = false →
  S (uid st) ∉ _watchers owner →
  (∀ d, S (uid st) ∉ default [] (subs st !! d)) →
  constructor new_set parsePath production vmref (Function_ body) options
    isRenderWatcher st = (Ok id, st1) →
  ∃ st2 this owner',
    teardown id st1 = (Ok tt, st2) ∧
    watchers st2 !! id = Some this ∧ active this = false ∧
    components st2 !! vmref = Some owner' ∧
    _watchers owner' = _watchers owner ∧
    ∀ d, default [] (subs st2 !! d) = default [] (subs st !! d).
Proof.
  intros Hvm Hbd Hfresh Hsubs.
  unfold constructor, this_component.
  cbv beta iota zeta delta [bind ret modify]. rewrite Hvm.
  cbn [lazy uid set_uid set_components set_watchers watchers].
  set (w := S (uid st)).
  set (this0 := {| vm := vmref; deep := _; user := _; lazy := _; sync := _;
                   dirty := _; active := true; deps := []; newDeps := [];
                   depIds := SimpleSet ∅; newDepIds := SimpleSet ∅;
                   getter := Fn body; value := VUndefined |}).
  set (stA := set_watchers (<[w := this0]>)
                (set_components (<[vmref := push_watcher isRenderWatcher w owner]>)
                   (set_uid w st))).
  assert (components stA !! vmref = Some (push_watcher isRenderWatcher w owner)) as HcA.
  { cbn. apply lookup_insert_eq. }
  assert (watchers stA !! w = Some this0) as HwA by apply lookup_insert_eq.
  assert (subs stA = subs st) as HsA by done.
  clearbody stA.
  destruct (from_option opt_lazy false options) eqn:Hlazy.
  - (* lazy: not evaluated *)
    intros [= <- <-].
    erewrite (teardown_active w _ (set_value VUndefined this0));
      [|by cbn; rewrite lookup_alter_eq, HwA|done|by cbn|done].
    eexists _, _, _. split; [reflexivity|].
    cbn [watchers set_watchers set_components components subs].
    rewrite removeSub_all_watchers, removeSub_all_components, removeSub_all_subs.
    cbn [watchers set_watchers set_components components subs vm set_value deps this0].
    change (reverse []) with (@nil nat). cbn [unsubscribe].
    rewrite !lookup_alter_eq, HwA, lookup_insert_eq.
    split; [reflexivity|]. split; [done|]. split; [reflexivity|].
    split; [|by rewrite HsA]. cbn. by apply remove_snoc.
  - (* evaluated at once *)
    destruct (get_settled_outcome new_set w stA this0 body HwA eq_refl)
      as (stB & this1 & Hget & Hws & Hcs & Hs1 & Hd1 & _ & _ & _ & Hact & _ & _ & _ & _
          & Hvm1 & Hsubs1).
    { repeat split; try done. apply NoDup_nil_2. }
    rewrite Hget.
    destruct (completion this0 body) as [v|e]; [|done].
    intros [= <- <-].
    destruct Hs1 as (_ & _ & _ & Hnd1).
    erewrite (teardown_active w _ (set_value v this1));
      [|by cbn; rewrite lookup_alter_eq, Hws, lookup_insert_eq|by cbn
       |by cbn; rewrite Hvm1, Hcs|done].
    eexists _, _, _. split; [reflexivity|].
    cbn [watchers set_watchers set_components components subs].
    rewrite removeSub_all_watchers, removeSub_all_components.
    cbn [watchers set_watchers set_components components subs vm set_value deps].
    rewrite !lookup_alter_eq, Hws, lookup_insert_eq, Hvm1, lookup_insert_eq.
    split; [reflexivity|]. split; [done|]. split; [reflexivity|].
    split; [cbn; by apply remove_snoc|].
    intros d. rewrite removeSub_all_subs. cbn [subs set_components set_watchers].
    rewrite lookup_unsubscribe by (by rewrite reverse_Permutation).
    rewrite Hsubs1, HsA. cbn [deps this0].
    rewrite (bool_decide_eq_false_2 (d ∈ [] ∧ _))
      by (intros [?%elem_of_nil _]; done).
    case_bool_decide as H1; case_bool_decide as H2.
    + cbn. apply remove_snoc. apply Hsubs.
    + exfalso. apply H2. destruct H1 as [H1 _].
      apply elem_of_reverse, Hd1 in H1. split; [done|]. by intros ?%elem_of_nil.
    + exfalso. apply H1. destruct H2 as [H2 _]. split; [|set_solver].
      by apply elem_of_reverse, Hd1.
    + done.
Qed.

Lemma constructor_teardown_round_trip_witness :
  ∃ st2 this owner',
    teardown 1
      (constructor ForeignObject parse_simple_path false 0 (Function_ reads_seven)
         None false one_component).2 = (Ok tt, st2) ∧
    watchers st2 !! 1 = Some this ∧ active this = false ∧
    components st2 !! 0 = Some owner' ∧
    _watchers owner' = [] ∧
    ∀ d, default [] (subs st2 !! d) = default [] (subs one_component !! d).
Proof.
  apply (constructor_teardown_round_trip ForeignObject parse_simple_path false 0
           reads_seven None
           false one_component _
           {| _isBeingDestroyed := false; _watcher := None; _watchers := [] |} 1).
  - reflexivity.
  - reflexivity.
  - apply not_elem_of_nil.
  - intros d. apply not_elem_of_nil.
  - reflexivity.
Defined.

End ObserverFacts.

(** ** The async component resolver *)
Module AsyncFacts.
Import Async.

(** *** Counting effects *)

Lemma fetches_log es st :
  fetches (log es st) = fetches st + length (filter (λ e, e = Fetch) es).
Proof. unfold fetches. simpl. by rewrite filter_app, length_app. Qed.

Lemma no_fetch_in_updates (os : list nat) :
  filter (λ e, e = Fetch) (ForceUpdate <$> os) = [].
Proof.
  induction os as [|o os IH]; [done|].
  rewrite fmap_cons, filter_cons_False by done. done.
Qed.

Lemma forced_updates o (os : list nat) :
  forced o (ForceUpdate <$> os) = length (filter (λ x, x = o) os).
Proof.
  unfold forced. induction os as [|x os IH]; [done|].
  rewrite fmap_cons. destruct (decide (x = o)) as [->|Hne].
  - rewrite !filter_cons_True by done. simpl. by rewrite IH.
  - rewrite !filter_cons_False by congruence. done.
Qed.

Lemma occurrences_NoDup (o : nat) (os : list nat) :
  NoDup os →
  length (filter (λ x, x = o) os) = if bool_decide (o ∈ os) then 1 else 0.
Proof.
  induction 1 as [|x os Hx Hnd IH]; simpl; [done|].
  destruct (decide (x = o)) as [->|Hne].
  - rewrite filter_cons_True by done. simpl. rewrite IH.
    rewrite (bool_decide_eq_false_2 _ Hx).
    rewrite bool_decide_eq_true_2; [done|left].
  - rewrite filter_cons_False by done. rewrite IH.
    assert (bool_decide (o ∈ x :: os) = bool_decide (o ∈ os)) as ->; [|done].
    apply bool_decide_ext. rewrite elem_of_cons. split; [intros [?|?]|]; auto; congruence.
Qed.

Lemma forced_app o es1 es2 : forced o (es1 ++ es2) = forced o es1 + forced o es2.
Proof. unfold forced. by rewrite filter_app, length_app. Qed.

(** *** Invariants of the resolver *)

Lemma guarantee_refl st : guarantee st st.
Proof. repeat split; eauto. Qed.

Lemma guarantee_trans st1 st2 st3 :
  guarantee st1 st2 → guarantee st2 st3 → guarantee st1 st3.
Proof.
  intros (Hf1 & Hs1 & Ho1) (Hf2 & Hs2 & Ho2). repeat split; [congruence..|].
  intros os Hos Hnd. destruct (Ho1 _ Hos Hnd) as (os' & Hos' & Hnd'). eauto.
Qed.

Lemma preserves_compose f g : preserves f → preserves g → preserves (λ st, g (f st)).
Proof. intros Hf Hg st. eapply guarantee_trans; [apply Hf|apply Hg]. Qed.

Lemma preserves_log es : filter (λ e, e = Fetch) es = [] → preserves (log es).
Proof.
  intros Hes st. repeat split; [|eauto].
  rewrite fetches_log, Hes. simpl. lia.
Qed.

Lemma preserves_on_factory f :
  (∀ x, owners (f x) = owners x) → preserves (on_factory f).
Proof. intros Hf st. repeat split. simpl. rewrite Hf. eauto. Qed.

Lemma preserves_on_closure f :
  (∀ x, sync (f x) = sync x) → preserves (on_closure f).
Proof. intros Hf st. repeat split; [apply Hf|eauto]. Qed.

Lemma preserves_clear : preserves (set_owners []).
Proof. intros st. repeat split. intros. eexists. split; [done|constructor]. Qed.

Lemma preserves_if (b : State → bool) f g :
  preserves f → preserves g → preserves (λ st, if b st then f st else g st).
Proof. intros Hf Hg st. destruct (b st); [apply Hf|apply Hg]. Qed.

Lemma preserves_id : preserves (λ st, st).
Proof. intros st. apply guarantee_refl. Qed.

(** [via f]: split the goal [guarantee st (... (f st))] at the state [f st]. *)
Ltac via f :=
  match goal with
  | |- guarantee ?st _ => apply (guarantee_trans st (f st))
  end.

Ltac branch :=
  match goal with
  | |- context [if ?b then _ else _] => destruct b
  | |- context [match ?o with Some _ => _ | None => _ end] => destruct o
  end.

Lemma preserves_forceRender b : preserves (forceRender b).
Proof.
  intros st. unfold forceRender. cbv zeta.
  via (log (ForceUpdate <$> default [] (owners (factory st))));
    [apply preserves_log, no_fetch_in_updates|].
  generalize (log (ForceUpdate <$> default [] (owners (factory st))) st).
  clear st. intros st.
  destruct b; [|apply guarantee_refl].
  via (set_owners []); [apply preserves_clear|].
  generalize (set_owners [] st). clear st. intros st.
  destruct (timerLoading (closure st)).
  - via (λ s, set_timerLoading false (log [ClearTimeout LoadingTimer] s)).
    { via (log [ClearTimeout LoadingTimer]); [by apply preserves_log|].
      by apply preserves_on_closure. }
    cbv beta.
    generalize (set_timerLoading false (log [ClearTimeout LoadingTimer] st)).
    clear st. intros st.
    branch; [|apply guarantee_refl].
    via (log [ClearTimeout TimeoutTimer]); [by apply preserves_log|].
    by apply preserves_on_closure.
  - branch; [|apply guarantee_refl].
    via (log [ClearTimeout TimeoutTimer]); [by apply preserves_log|].
    by apply preserves_on_closure.
Qed.

Lemma preserves_once fired mark f :
  preserves mark → preserves f → preserves (Util.once fired mark f).
Proof.
  intros Hm Hf st. unfold Util.once. destruct (fired st); [apply guarantee_refl|].
  eapply guarantee_trans; [apply Hm|apply Hf].
Qed.

Lemma preserves_resolve res : preserves (resolve res).
Proof.
  apply preserves_once; [by apply preserves_on_closure|].
  intros st. cbv zeta.
  via (set_resolved (ensureCtor res)); [by apply preserves_on_factory|].
  branch; [apply preserves_forceRender|apply preserves_clear].
Qed.

Lemma preserves_reject production reason : preserves (reject production reason).
Proof.
  apply preserves_once; [by apply preserves_on_closure|].
  intros st. cbv zeta.
  via (λ s, if production then s else log [WarnFailed reason] s).
  { destruct production; [apply guarantee_refl|by apply preserves_log]. }
  cbv beta. case_bool_decide; [|apply guarantee_refl].
  match goal with |- guarantee ?s _ => via set_error end;
    [by apply preserves_on_factory|apply preserves_forceRender].
Qed.

Lemma preserves_call production c : preserves (call production c).
Proof. destruct c; [apply preserves_resolve|apply preserves_reject]. Qed.

Lemma preserves_loading_elapsed : preserves loading_elapsed.
Proof.
  intros st. unfold loading_elapsed. cbv zeta.
  via (set_timerLoading false); [by apply preserves_on_closure|].
  branch; [|apply guarantee_refl].
  via set_loading; [by apply preserves_on_factory|apply preserves_forceRender].
Qed.

Lemma preserves_timeout_elapsed production : preserves (timeout_elapsed production).
Proof.
  intros st. unfold timeout_elapsed. cbv zeta.
  via (set_timerTimeout false); [by apply preserves_on_closure|].
  branch; [apply preserves_reject|apply guarantee_refl].
Qed.

Lemma preserves_inspect r : preserves (inspect r).
Proof.
  intros st. destruct r as [| |cfg|]; simpl; try apply guarantee_refl.
  - case_bool_decide; [by apply preserves_log|apply guarantee_refl].
  - via (log [Then]); [by apply preserves_log|].
    generalize (log [Then] st). clear st. intros st.
    via (λ s, match cfg_error cfg with Some e => set_errorComp (ensureCtor e) s | None => s end).
    { destruct (cfg_error cfg); [by apply preserves_on_factory|apply guarantee_refl]. }
    cbv beta.
    generalize (match cfg_error cfg with Some e => set_errorComp (ensureCtor e) st | None => st end).
    clear st. intros st.
    match goal with
    | |- guarantee _ (match _ with Some ms => _ | None => ?mid end) =>
        apply (guarantee_trans st mid)
    end.
    + destruct (cfg_loading cfg) as [l|]; [|apply guarantee_refl].
      via (set_loadingComp (ensureCtor l)); [by apply preserves_on_factory|].
      destruct (cfg_delay cfg) as [[|ms]|].
      * by apply preserves_on_factory.
      * match goal with |- guarantee ?s _ => generalize s end.
        clear st. intros st.
        via (log [SetTimeout LoadingTimer (S ms)]); [by apply preserves_log|].
        by apply preserves_on_closure.
      * match goal with |- guarantee ?s _ => generalize s end.
        clear st. intros st.
        via (log [SetTimeout LoadingTimer 200]); [by apply preserves_log|].
        by apply preserves_on_closure.
    + match goal with |- guarantee ?s _ => generalize s end.
      clear st. intros st.
      destruct (cfg_timeout cfg) as [ms|]; [|apply guarantee_refl].
      via (λ s, set_timerTimeout true (log [SetTimeout TimeoutTimer ms] s)).
      * via (log [SetTimeout TimeoutTimer ms]); [by apply preserves_log|].
        by apply preserves_on_closure.
      * by apply preserves_on_closure.
Qed.

Lemma preserves_calls production calls :
  preserves (λ st, foldl (λ s c, call production c s) st calls).
Proof.
  induction calls as [|c calls IH]; intros st; simpl; [apply guarantee_refl|].
  eapply guarantee_trans; [apply (preserves_call production c)|apply IH].
Qed.

Lemma initiate_settled production behaviour o :
  settled (initiate production behaviour o fresh).2.
Proof.
  unfold initiate. cbv zeta. simpl snd.
  set (st0 := log [Fetch] (log [OnDestroyed o] (open_closure o fresh))).
  destruct (preserves_calls production (sync_calls behaviour) st0) as (Hf & Hs & Ho).
  set (st1 := foldl _ st0 _) in *.
  destruct (preserves_inspect (returned behaviour) st1) as (Hf' & Hs' & Ho').
  set (st2 := inspect _ st1) in *.
  destruct (Ho [o]) as (os1 & Hos1 & Hnd1); [done|apply NoDup_singleton|].
  destruct (Ho' _ Hos1 Hnd1) as (os2 & Hos2 & Hnd2).
  exists os2. repeat split; [done|done|].
  change (fetches st2 = 1). rewrite Hf', Hf. done.
Qed.

Lemma step_settled production behaviour e st :
  settled st → settled (step production behaviour e st).
Proof.
  intros (os & Hos & Hnd & Hf & Hs).
  assert (∀ f, preserves f → settled (f st)) as Hp.
  { intros f Hpf. destruct (Hpf st) as (Hf' & Hs' & Ho').
    destruct (Ho' _ Hos Hnd) as (os' & ? & ?).
    exists os'. repeat split; [done|done|congruence|congruence]. }
  assert (settled st) as Hst by (exists os; done).
  destruct e as [current|res|reason| | |i]; simpl.
  - unfold resolveAsyncComponent. cbv zeta.
    destruct (error (factory st) && _); [done|].
    destruct (bool_decide (is_Some (resolved (factory st)))); [done|].
    rewrite Hos. destruct current as [o|].
    + case_bool_decide as Hin.
      * destruct (loading (factory st) && _); [done|]. by rewrite Hos.
      * assert (settled (set_owners (os ++ [o]) st)) as Hpush.
        { exists (os ++ [o]). repeat split; try done.
          apply NoDup_app. repeat split; [done| |apply NoDup_singleton].
          by intros x Hx ->%list_elem_of_singleton. }
        match goal with |- context [if ?b then _ else _] => destruct b end; done.
    + destruct (loading (factory st) && _); [done|]. done.
  - rewrite Hos. apply Hp, preserves_resolve.
  - rewrite Hos. apply Hp, preserves_reject.
  - branch; [apply Hp, preserves_loading_elapsed|done].
  - branch; [apply Hp, preserves_timeout_elapsed|done].
  - rewrite Hos. destruct (owner (closure st)) as [o|]; [|done].
    case_bool_decide; [|done].
    exists (Util.remove os o). repeat split; try done.
    by apply UtilFacts.remove_NoDup.
Qed.

Lemma step_fresh production behaviour e :
  is_request e = false → step production behaviour e fresh = fresh.
Proof. by destruct e as [[o|]| | | | |]. Qed.

Lemma step_request production behaviour e :
  is_request e = true → settled (step production behaviour e fresh).
Proof.
  destruct e as [[o|]| | | | |]; try done. intros _.
  apply (initiate_settled production behaviour o).
Qed.

Lemma run_snoc production behaviour steps e st :
  run production behaviour (steps ++ [e]) st =
  step production behaviour e (run production behaviour steps st).
Proof. unfold run. by rewrite foldl_app. Qed.

Lemma run_invariant production behaviour steps :
  let st := run production behaviour steps fresh in
  if existsb is_request steps then settled st else st = fresh.
Proof.
  induction steps as [|e steps IH] using rev_ind; [done|].
  cbv zeta in *. rewrite run_snoc, existsb_app. simpl. rewrite orb_false_r.
  destruct (existsb is_request steps); simpl.
  - by apply step_settled.
  - rewrite IH. destruct (is_request e) eqn:He.
    + by apply step_request.
    + by apply step_fresh.
Qed.

Lemma forceRender_completed st os :
  owners (factory st) = Some os →
  ∃ clears,
    effects (forceRender true st) = effects st ++ (ForceUpdate <$> os) ++ clears ∧
    (∀ o, forced o clears = 0) ∧
    owners (factory (forceRender true st)) = Some [] ∧
    resolved (factory (forceRender true st)) = resolved (factory st) ∧
    resolve_fired (closure (forceRender true st)) = resolve_fired (closure st).
Proof.
  intros Hos. unfold forceRender. rewrite Hos. simpl.
  destruct (timerLoading (closure st)) eqn:Hl, (timerTimeout (closure st)) eqn:Ht;
    simpl; rewrite ?Hl, ?Ht; simpl.
  - exists [ClearTimeout LoadingTimer; ClearTimeout TimeoutTimer].
    by rewrite <- !app_assoc.
  - exists [ClearTimeout LoadingTimer]. by rewrite <- !app_assoc.
  - exists [ClearTimeout TimeoutTimer]. by rewrite <- !app_assoc.
  - exists []. by rewrite app_nil_r.
Qed.

Lemma since_app st st' es :
  effects st' = effects st ++ es → since st st' = es.
Proof. unfold since. intros ->. by rewrite drop_app_length. Qed.

(** A resolution that arrives after the initiating call has returned. *)
Lemma resolve_later res st os :
  owners (factory st) = Some os →
  sync (closure st) = false →
  resolve_fired (closure st) = false →
  let st' := resolve res st in
  (∃ clears, since st st' = (ForceUpdate <$> os) ++ clears ∧ ∀ o, forced o clears = 0) ∧
  owners (factory st') = Some [] ∧
  resolved (factory st') = Some (ensureCtor res) ∧
  resolve_fired (closure st') = true.
Proof.
  intros Hos Hsync Hfired. unfold resolve, Util.once. rewrite Hfired.
  cbv beta zeta.
  change (sync (closure (set_resolved (ensureCtor res) (mark_resolve st))))
    with (sync (closure st)).
  rewrite Hsync. cbn [negb].
  destruct (forceRender_completed (set_resolved (ensureCtor res) (mark_resolve st)) os)
    as (clears & He & Hc & Ho & Hr & Hfl); [done|].
  repeat split; [|done|by rewrite Hr|by rewrite Hfl].
  exists clears. split; [|done]. by apply since_app.
Qed.

Lemma resolve_again res st :
  resolve_fired (closure st) = true → resolve res st = st.
Proof. intros H. unfold resolve. by apply UtilFacts.once_fired. Qed.

(** A call of [resolve] after the initiating call has returned: a repeated
    call changes nothing; the first forces one re-render of each owner
    and of no other instance. *)
Lemma resolve_forces_owners production behaviour steps res :
  let st := run production behaviour steps fresh in
  let st' := step production behaviour (Resolve res) st in
  if resolve_fired (closure st) || bool_decide (owners (factory st) = None)
  then st' = st
  else ∀ o, forced o (since st st') =
            if bool_decide (o ∈ default [] (owners (factory st))) then 1 else 0.
Proof.
  cbv zeta. pose proof (run_invariant production behaviour steps) as Hinv.
  cbv zeta in Hinv. set (st := run production behaviour steps fresh) in *.
  clearbody st.
  destruct (existsb is_request steps).
  - destruct Hinv as (os & Hos & Hnd & Hf & Hs).
    cbn [step]. rewrite Hos. cbn [default].
    rewrite bool_decide_eq_false_2 by done. rewrite orb_false_r.
    destruct (resolve_fired (closure st)) eqn:Hfired.
    + by apply resolve_again.
    + intros o.
      destruct (resolve_later res st os Hos Hs Hfired) as ((clears & -> & Hc) & _).
      rewrite forced_app, Hc, forced_updates, Nat.add_0_r.
      by apply occurrences_NoDup.
  - subst st. done.
Qed.

(** C2.  Whatever happens to a factory, in whatever order (renders by any
    instances, calls of [resolve] and [reject], timers, destroyed
    instances): the factory function has been invoked exactly once as soon
    as an instance has asked for it, and not at all before; the owners
    array never holds an instance twice; and a call of [resolve] that
    arrives after the initiating call forces exactly one re-render of
    every instance in the owners array and of no other, unless [resolve]
    has been called before, in which case it changes nothing. *)
Theorem single_flight (production : bool) (behaviour : Behaviour) (steps : list Step) :
  let st := run production behaviour steps fresh in
  fetches st = (if existsb is_request steps then 1 else 0) ∧
  NoDup (default [] (owners (factory st))) ∧
  ∀ res,
    let st' := step production behaviour (Resolve res) st in
    if resolve_fired (closure st) || bool_decide (owners (factory st) = None)
    then st' = st
    else ∀ o, forced o (since st st') =
              if bool_decide (o ∈ default [] (owners (factory st))) then 1 else 0.
Proof.
  cbv zeta. split_and!.
  - pose proof (run_invariant production behaviour steps) as Hinv. cbv zeta in Hinv.
    destruct (existsb is_request steps); [|by rewrite Hinv].
    by destruct Hinv as (os & _ & _ & Hf & _).
  - pose proof (run_invariant production behaviour steps) as Hinv. cbv zeta in Hinv.
    destruct (existsb is_request steps).
    + destruct Hinv as (os & -> & Hnd & _). done.
    + rewrite Hinv. constructor.
  - intros res. apply resolve_forces_owners.
Qed.

Lemma effects_log es st : effects (log es st) = effects st ++ es.
Proof. done. Qed.

Lemma effects_on_closure f st : effects (on_closure f st) = effects st.
Proof. done. Qed.

Lemma effects_on_factory f st : effects (on_factory f st) = effects st.
Proof. done. Qed.

Create Rewrite HintDb async_effects.

Hint Rewrite effects_log effects_on_closure effects_on_factory : async_effects.

Ltac quiet :=
  intros ?; unfold set_resolved, set_error, set_errorComp, set_loading,
    set_loadingComp, set_owners, set_sync, set_timerLoading, set_timerTimeout,
    mark_resolve, mark_reject, set_res_timeout;
  autorewrite with async_effects; rewrite ?forced_app;
  repeat match goal with H : ∀ i, forced i _ = 0 |- _ => rewrite H end; done.

Lemma call_during production o first c s :
  during_factory_call o first s →
  during_factory_call o (first_of first c) (call production c s).
Proof.
  intros (Hsync & Herr & Hload & Hquiet & Hfirst).
  destruct c as [res|reason]; simpl.
  - unfold resolve, Util.once. destruct first as [res0|]; simpl.
    + destruct Hfirst as (Hfired & ? & ?). rewrite Hfired. by repeat split.
    + destruct Hfirst as (Hfired & ? & ?). rewrite Hfired. simpl.
      rewrite Hsync. simpl. by repeat split.
  - unfold reject, Util.once.
    assert (during_factory_call o first s) as Hs by by repeat split.
    destruct (reject_fired (closure s)); [by destruct first|].
    cbv zeta. destruct production; cbn -[forced]; rewrite Herr;
      rewrite bool_decide_eq_false_2 by (by intros [? ?]).
    + by destruct first.
    + repeat split; try done.
      * quiet.
      * by destruct first.
Qed.

Lemma calls_during production o calls : ∀ first s,
  during_factory_call o first s →
  during_factory_call o
    (match first with Some res => Some res | None => first_resolve calls end)
    (foldl (λ s c, call production c s) s calls).
Proof.
  induction calls as [|c calls IH]; intros first s Hs; simpl.
  - by destruct first.
  - apply (call_during production o first c) in Hs.
    apply IH in Hs. destruct first as [res|]; [done|].
    by destruct c.
Qed.

Lemma inspect_quiet r s :
  (∀ i, forced i (effects s) = 0) →
  loading (factory s) = false →
  let s' := inspect r s in
  (∀ i, forced i (effects s') = 0) ∧
  resolved (factory s') = resolved (factory s) ∧
  owners (factory s') = owners (factory s) ∧
  (if loading (factory s')
   then loadingComp (factory s') = ensureCtor <$> zero_delay_loading r ∧
        is_Some (zero_delay_loading r)
   else zero_delay_loading r = None).
Proof.
  intros Hq Hl. destruct r as [| |cfg|]; cbn -[forced].
  - by rewrite Hl.
  - case_bool_decide; cbn -[forced]; rewrite Hl; repeat split; try done.
    quiet.
  - destruct cfg as [e l d t]. cbn -[forced].
    destruct e as [e|], l as [l|], d as [[|d]|], t as [t|]; cbn -[forced]; rewrite ?Hl;
      repeat split; try done; try (by eexists); quiet.
  - by rewrite Hl.
Qed.

(** Synchronous resolution, as the code has it.  When the factory calls
    [resolve(res)] before it returns, the initiating call forces no
    re-render, caches
    [ensureCtor(res)] in [factory.resolved] and empties the owners array.
    It returns the resolved constructor, unless the object the factory
    returned also asks for a loading component with [delay === 0]: then
    [factory.loading] is set and the loading component is returned.  A
    first [resolve] that arrives after the initiating call forces one
    re-render of every instance still in the owners array. *)
Theorem synchronous_resolution (production : bool) (behaviour : Behaviour)
    (o : nat) (res : Comp) :
  first_resolve (sync_calls behaviour) = Some res →
  let out := resolveAsyncComponent production behaviour (Some o) fresh in
  (∀ i, forced i (effects out.2) = 0) ∧
  resolved (factory out.2) = Some (ensureCtor res) ∧
  owners (factory out.2) = Some [] ∧
  out.1 = Some (ensureCtor (default res (zero_delay_loading (returned behaviour)))) ∧
  ∀ behaviour' steps res',
    let st := run production behaviour' steps fresh in
    let st' := step production behaviour' (Resolve res') st in
    resolve_fired (closure st) = false →
    ∀ i, i ∈ default [] (owners (factory st)) → forced i (since st st') = 1.
Proof.
  intros Hfirst. cbv zeta.
  assert (∀ behaviour' steps res',
    resolve_fired (closure (run production behaviour' steps fresh)) = false →
    ∀ i, i ∈ default [] (owners (factory (run production behaviour' steps fresh))) →
      forced i (since (run production behaviour' steps fresh)
                  (step production behaviour' (Resolve res')
                     (run production behaviour' steps fresh))) = 1) as Hlater.
  { intros behaviour' steps res' Hfired i Hi.
    pose proof (resolve_forces_owners production behaviour' steps res') as Hres.
    cbv zeta in Hres. rewrite Hfired in Hres.
    destruct (owners (factory (run production behaviour' steps fresh))) as [os|] eqn:Hos;
      [|by apply elem_of_nil in Hi].
    rewrite bool_decide_eq_false_2 in Hres by done. simpl in Hres.
    rewrite Hres. by rewrite bool_decide_eq_true_2. }
  split_and!; try done.
  all: change (resolveAsyncComponent production behaviour (Some o) fresh)
         with (initiate production behaviour o fresh).
  all: unfold initiate; cbv zeta.
  all: set (s0 := log [Fetch] (log [OnDestroyed o] (open_closure o fresh))).
  all: assert (during_factory_call o None s0) as Hs0 by (by repeat split).
  all: apply (calls_during production o (sync_calls behaviour)) in Hs0.
  all: rewrite Hfirst in Hs0.
  all: destruct Hs0 as (Hsync & Herr & Hload & Hquiet & Hfired & Hres & Hown).
  all: set (s1 := foldl _ s0 _) in *.
  all: destruct (inspect_quiet (returned behaviour) s1 Hquiet Hload)
         as (Hq' & Hres' & Hown' & Hl').
  all: set (s2 := inspect _ s1) in *.
  - done.
  - cbn [snd]. change (resolved (factory s2) = Some (ensureCtor res)). congruence.
  - cbn [snd]. change (owners (factory s2) = Some []). congruence.
  - cbn [fst]. change (loading (factory (set_sync false s2))) with (loading (factory s2)).
    change (loadingComp (factory (set_sync false s2))) with (loadingComp (factory s2)).
    change (resolved (factory (set_sync false s2))) with (resolved (factory s2)).
    destruct (loading (factory s2)).
    + destruct Hl' as (-> & l & ->). done.
    + rewrite Hl'. simpl. congruence.
Qed.

(** C6, on the code as it is.  This factory resolves synchronously and
    also returns a configuration with a loading component and
    [delay: 0].  The resolved constructor is cached in
    [factory.resolved], and yet the initiating call returns the loading
    component, not the resolved constructor: its last statement tests
    [factory.loading] first, which the [delay === 0] branch has set
    without looking at [factory.resolved]. *)
Lemma synchronous_resolution_returns_loading :
  let out := resolveAsyncComponent false resolves_and_configures (Some 1) fresh in
  first_resolve (sync_calls resolves_and_configures) = Some (Plain (OptionsObject 1)) ∧
  resolved (factory out.2) = Some (ensureCtor (Plain (OptionsObject 1))) ∧
  out.1 = Some (ensureCtor (Plain (OptionsObject 2))) ∧
  out.1 ≠ Some (ensureCtor (Plain (OptionsObject 1))).
Proof. cbv zeta. repeat split; done. Qed.

Lemma synchronous_resolution_witness :
  let out := resolveAsyncComponent false resolves_at_once (Some 1) fresh in
  (∀ i, forced i (effects out.2) = 0) ∧
  resolved (factory out.2) = Some (ensureCtor (Plain (OptionsObject 1))) ∧
  owners (factory out.2) = Some [] ∧
  out.1 = Some (ensureCtor (default (Plain (OptionsObject 1))
                              (zero_delay_loading (returned resolves_at_once)))) ∧
  ∀ behaviour' steps res',
    let st := run false behaviour' steps fresh in
    let st' := step false behaviour' (Resolve res') st in
    resolve_fired (closure st) = false →
    ∀ i, i ∈ default [] (owners (factory st)) → forced i (since st st') = 1.
Proof.
  apply (synchronous_resolution false resolves_at_once 1 (Plain (OptionsObject 1))).
  reflexivity.
Defined.

(** Two instances ask for the same pending factory: whichever two
    distinct instances render a factory that returns a promise and calls
    neither [resolve] nor [reject] before it returns, both are recorded
    as owners, in the order they asked, and the factory function is
    invoked once.  When the promise resolves, each of the two is forced
    to re-render exactly once, in that order, and the constructor is
    cached; a second [resolve] changes nothing. *)
Theorem two_requesters (production : bool) (behaviour : Behaviour) (o1 o2 : nat)
    (res again : Comp) :
  sync_calls behaviour = [] →
  returned behaviour = RetPromise →
  o1 ≠ o2 →
  let st := run production behaviour [Render (Some o1); Render (Some o2)] fresh in
  let st' := step production behaviour (Resolve res) st in
  owners (factory st) = Some [o1; o2] ∧
  fetches st = 1 ∧
  resolved (factory st) = None ∧
  since st st' = [ForceUpdate o1; ForceUpdate o2] ∧
  resolved (factory st') = Some (ensureCtor res) ∧
  step production behaviour (Resolve again) st' = st'.
Proof.
  intros Hs Hr Hne. destruct behaviour as [calls ret_]. cbn in Hs, Hr. subst calls ret_.
  cbv zeta. cbn.
  rewrite bool_decide_eq_false_2 by (by intros ->%list_elem_of_singleton).
  cbn. repeat split; reflexivity.
Qed.

Lemma two_requesters_witness :
  let st := run false returns_promise [Render (Some 1); Render (Some 2)] fresh in
  let st' := step false returns_promise (Resolve (Plain (OptionsObject 1))) st in
  owners (factory st) = Some [1; 2] ∧
  fetches st = 1 ∧
  resolved (factory st) = None ∧
  since st st' = [ForceUpdate 1; ForceUpdate 2] ∧
  resolved (factory st') = Some (ensureCtor (Plain (OptionsObject 1))) ∧
  step false returns_promise (Resolve (Plain (OptionsObject 9))) st' = st'.
Proof.
  apply (two_requesters false returns_promise 1 2 (Plain (OptionsObject 1))
           (Plain (OptionsObject 9))).
  - reflexivity.
  - reflexivity.
  - discriminate.
Defined.

(** *** What the resolver keeps *)

Ltac settle :=
  unfold coherent, lasting; cbn; rewrite ?is_Some_alt; cbn;
  intuition (try congruence; eauto).

Lemma lasting_refl st : lasting st st.
Proof. by repeat split. Qed.

Lemma lasting_trans st1 st2 st3 : lasting st1 st2 → lasting st2 st3 → lasting st1 st3.
Proof.
  intros (H1 & H2 & H3 & H4 & H5) (H1' & H2' & H3' & H4' & H5').
  repeat split; [congruence|congruence|auto|auto|auto].
Qed.

Lemma forceRender_keeps b st :
  (coherent st → coherent (forceRender b st)) ∧ lasting st (forceRender b st) ∧
  resolve_fired (closure (forceRender b st)) = resolve_fired (closure st) ∧
  reject_fired (closure (forceRender b st)) = reject_fired (closure st).
Proof.
  unfold forceRender, coherent, lasting. cbv zeta.
  destruct st as [[? ? ? ? ? ?] [? ? tl tt ? ? ?] ?].
  destruct b, tl, tt; settle.
Qed.

Lemma resolve_keeps res st :
  coherent st → coherent (resolve res st) ∧ lasting st (resolve res st).
Proof.
  unfold resolve, Util.once, forceRender, coherent, lasting. cbv zeta.
  destruct st as [[r ? ? ? ? ?] [? s tl tt rf ? ?] ?].
  destruct rf, s, tl, tt, r; settle.
Qed.

Lemma reject_keeps production reason st :
  coherent st →
  coherent (reject production reason st) ∧ lasting st (reject production reason st).
Proof.
  unfold reject, Util.once, forceRender, coherent, lasting. cbv zeta.
  destruct st as [[? ? ec ? ? ?] [? ? tl tt ? jf ?] ?].
  destruct jf, production, ec, tl, tt; settle.
Qed.

Lemma loading_elapsed_keeps st :
  timerLoading (closure st) = true → coherent st →
  coherent (loading_elapsed st) ∧ lasting st (loading_elapsed st).
Proof.
  unfold loading_elapsed, forceRender, coherent, lasting. cbv zeta.
  destruct st as [[r e ? ? ? ?] [? ? tl tt ? ? ?] ?].
  destruct r, e, tl, tt; settle.
Qed.

Lemma timeout_elapsed_keeps production st :
  coherent st →
  coherent (timeout_elapsed production st) ∧ lasting st (timeout_elapsed production st).
Proof.
  intros Hc. unfold timeout_elapsed. cbv zeta.
  assert (coherent (set_timerTimeout false st) ∧ lasting st (set_timerTimeout false st))
    as [Hc' Hl'].
  { revert Hc. unfold coherent, lasting.
    destruct st as [[? ? ? ? ? ?] [? ? ? ? ? ? ?] ?]. settle. }
  case_bool_decide; [|done].
  destruct (reject_keeps production
              (timeout_reason production
                 (default 0 (res_timeout (closure (set_timerTimeout false st)))))
              (set_timerTimeout false st) Hc') as [Hc'' Hl''].
  split; [done|]. by eapply lasting_trans.
Qed.

Lemma call_keeps production c st :
  coherent st → coherent (call production c st) ∧ lasting st (call production c st).
Proof. destruct c; [apply resolve_keeps|apply reject_keeps]. Qed.

(** A step taken once the factory has been invoked. *)
Lemma step_keeps production behaviour e st :
  settled st → coherent st →
  coherent (step production behaviour e st) ∧
  lasting st (step production behaviour e st).
Proof.
  intros (os & Hos & _) Hc.
  destruct e as [current|res|reason| | |i]; cbn [step].
  - unfold resolveAsyncComponent. cbv zeta. rewrite Hos.
    assert (∀ l, coherent (set_owners l st) ∧ lasting st (set_owners l st)) as Hset.
    { intros l. revert Hc. unfold coherent, lasting.
      destruct st as [[? ? ? ? ? ?] [? ? ? ? ? ? ?] ?]. settle. }
    destruct (error (factory st) && _); [by split; [|apply lasting_refl]|].
    destruct (bool_decide (is_Some (resolved (factory st))));
      [by split; [|apply lasting_refl]|].
    destruct current as [o|].
    + case_bool_decide.
      * destruct (loading (factory st) && _); cbn [snd]; rewrite ?Hos;
          by split; [|apply lasting_refl].
      * match goal with |- context [if ?b then _ else _] => destruct b end;
          cbn [snd]; [apply Hset|]. cbn. apply Hset.
    + destruct (loading (factory st) && _); cbn [snd];
        by split; [|apply lasting_refl].
  - rewrite Hos. by apply resolve_keeps.
  - rewrite Hos. by apply reject_keeps.
  - destruct (timerLoading (closure st)) eqn:Ht;
      [by apply loading_elapsed_keeps|by split; [|apply lasting_refl]].
  - destruct (timerTimeout (closure st));
      [by apply timeout_elapsed_keeps|by split; [|apply lasting_refl]].
  - rewrite Hos. destruct (owner (closure st)); [|by split; [|apply lasting_refl]].
    case_bool_decide; [|by split; [|apply lasting_refl]].
    revert Hc. unfold coherent, lasting.
    destruct st as [[? ? ? ? ? ?] [? ? ? ? ? ? ?] ?]. settle.
Qed.

Lemma inspect_keeps r st : coherent st → coherent (inspect r st).
Proof.
  unfold inspect. cbv zeta.
  destruct st as [[rs ? ? ? ? ?] [? ? ? ? ? ? ?] ?].
  destruct r as [| |[e l d t]|]; cbn.
  - done.
  - destruct rs; settle.
  - destruct e, l as [l|], d as [[|d]|], t; settle.
  - done.
Qed.

Lemma calls_keep production calls : ∀ st,
  coherent st → coherent (foldl (λ s c, call production c s) st calls).
Proof.
  induction calls as [|c calls IH]; intros st Hc; [done|].
  cbn [foldl]. apply IH. by apply call_keeps.
Qed.

Lemma initiate_coherent production behaviour o :
  coherent (initiate production behaviour o fresh).2.
Proof.
  unfold initiate. cbv zeta. cbn [snd].
  set (st0 := log [Fetch] (log [OnDestroyed o] (open_closure o fresh))).
  assert (coherent st0) as H0 by (unfold st0; settle).
  pose proof (calls_keep production (sync_calls behaviour) st0 H0) as H1.
  set (st1 := foldl _ st0 _) in *. clearbody st1.
  pose proof (inspect_keeps (returned behaviour) st1 H1) as H2.
  set (st2 := inspect _ st1) in *. clearbody st2.
  revert H2. destruct st2 as [[? ? ? ? ? ?] [? ? ? ? ? ? ?] ?]. settle.
Qed.

(** Every state the resolver reaches is coherent. *)
Lemma run_coherent production behaviour steps :
  coherent (run production behaviour steps fresh).
Proof.
  induction steps as [|e steps IH] using rev_ind; [settle|].
  rewrite run_snoc.
  pose proof (run_invariant production behaviour steps) as Hinv. cbv zeta in Hinv.
  destruct (existsb is_request steps).
  - by apply step_keeps.
  - rewrite Hinv. destruct e as [[o|]| | | | |];
      [apply (initiate_coherent production behaviour o)|settle..].
Qed.

(** What later events leave in place, once the factory has been
    invoked. *)
Lemma run_keeps production behaviour more : ∀ st,
  settled st → coherent st →
  settled (run production behaviour more st) ∧
  coherent (run production behaviour more st) ∧
  lasting st (run production behaviour more st).
Proof.
  induction more as [|e more IH]; intros st Hs Hc.
  - split_and!; [done|done|apply lasting_refl].
  - change (run production behaviour (e :: more) st)
      with (run production behaviour more (step production behaviour e st)).
    destruct (step_keeps production behaviour e st Hs Hc) as [Hc' Hl].
    destruct (IH _ (step_settled production behaviour e st Hs) Hc') as (? & ? & ?).
    split_and!; [done|done|by eapply lasting_trans].
Qed.

(** A state in which something has happened to the factory is one the
    initiating call has left. *)
Lemma run_touched production behaviour steps :
  let st := run production behaviour steps fresh in
  st ≠ fresh → settled st.
Proof.
  cbv zeta. intros Hne.
  pose proof (run_invariant production behaviour steps) as Hinv. cbv zeta in Hinv.
  by destruct (existsb is_request steps).
Qed.

Lemma render_error production behaviour current st c :
  error (factory st) = true → errorComp (factory st) = Some c →
  resolveAsyncComponent production behaviour current st = (Some c, st).
Proof.
  intros He Hc. unfold resolveAsyncComponent. cbv zeta. rewrite He, Hc.
  by rewrite bool_decide_eq_true_2 by by eexists.
Qed.

(** An error is final.  Once [factory.error] is set, whatever happens
    afterwards (a late [resolve] included), every call of
    [resolveAsyncComponent] returns the error component and changes
    nothing. *)
Theorem error_is_final (production : bool) (behaviour : Behaviour)
    (steps more : list Step) (current : option nat) :
  let st := run production behaviour steps fresh in
  error (factory st) = true →
  ∃ c, errorComp (factory st) = Some c ∧
       let st' := run production behaviour more st in
       resolveAsyncComponent production behaviour current st' = (Some c, st').
Proof.
  cbv zeta. intros He.
  pose proof (run_coherent production behaviour steps) as Hc.
  assert (settled (run production behaviour steps fresh)) as Hs.
  { apply run_touched. intros Hf. by rewrite Hf in He. }
  destruct Hc as (Hec & _). destruct (Hec He) as [c Hc'].
  exists c. split; [done|].
  destruct (run_keeps production behaviour more _ Hs (run_coherent _ _ steps))
    as (_ & _ & (Hl1 & _ & Hl3 & _)).
  apply render_error; [by apply Hl3|congruence].
Qed.

Lemma error_is_final_witness :
  let st := run false advanced [Render (Some 1); Reject None] fresh in
  ∃ c, errorComp (factory st) = Some c ∧
       let st' := run false advanced
                    [Resolve (Plain (OptionsObject 1)); Render (Some 2)] st in
       resolveAsyncComponent false advanced (Some 3) st' = (Some c, st').
Proof.
  apply (error_is_final false advanced [Render (Some 1); Reject None]
           [Resolve (Plain (OptionsObject 1)); Render (Some 2)] (Some 3)).
  reflexivity.
Defined.

(** The first resolution wins and is cached.  Once [factory.resolved] is
    set it never changes, whatever happens afterwards (further calls of
    [resolve] with other components included), and every call of
    [resolveAsyncComponent] returns it without changing anything, unless
    the factory is in error, in which case the error component is
    returned. *)
Theorem resolution_is_cached (production : bool) (behaviour : Behaviour)
    (steps more : list Step) (current : option nat) (c : Ctor) :
  let st := run production behaviour steps fresh in
  resolved (factory st) = Some c →
  let st' := run production behaviour more st in
  resolved (factory st') = Some c ∧
  resolveAsyncComponent production behaviour current st' =
    (if error (factory st') then errorComp (factory st') else Some c, st').
Proof.
  cbv zeta. intros Hr.
  assert (settled (run production behaviour steps fresh)) as Hs.
  { apply run_touched. intros Hf. by rewrite Hf in Hr. }
  destruct (run_keeps production behaviour more _ Hs (run_coherent _ _ steps))
    as (_ & (Hec & _) & (_ & _ & _ & _ & Hl5)).
  set (st' := run production behaviour more _) in *.
  pose proof (Hl5 c Hr) as Hr'. split; [done|].
  destruct (error (factory st')) eqn:He.
  - destruct (Hec eq_refl) as [c' Hc']. rewrite Hc'. by apply render_error.
  - unfold resolveAsyncComponent. cbv zeta. rewrite He, Hr'. cbn [andb].
    by rewrite bool_decide_eq_true_2 by by eexists.
Qed.

Lemma resolution_is_cached_witness :
  let st := run false returns_promise
              [Render (Some 1); Resolve (Plain (OptionsObject 1))] fresh in
  let st' := run false returns_promise
               [Resolve (Plain (OptionsObject 9)); Reject None] st in
  resolved (factory st') = Some (Extend 1) ∧
  resolveAsyncComponent false returns_promise (Some 2) st' =
    (if error (factory st') then errorComp (factory st') else Some (Extend 1), st').
Proof.
  apply (resolution_is_cached false returns_promise
           [Render (Some 1); Resolve (Plain (OptionsObject 1))]
           [Resolve (Plain (OptionsObject 9)); Reject None] (Some 2) (Extend 1)).
  reflexivity.
Defined.

Lemma forceRender_completed_effects st os :
  owners (factory st) = Some os →
  ∃ clears,
    effects (forceRender true st) = effects st ++ (ForceUpdate <$> os) ++ clears ∧
    forallb is_clear clears = true ∧
    (timerLoading (closure st) = false → timerTimeout (closure st) = false →
     clears = []) ∧
    owners (factory (forceRender true st)) = Some [] ∧
    timerLoading (closure (forceRender true st)) = false ∧
    timerTimeout (closure (forceRender true st)) = false ∧
    error (factory (forceRender true st)) = error (factory st) ∧
    errorComp (factory (forceRender true st)) = errorComp (factory st) ∧
    resolved (factory (forceRender true st)) = resolved (factory st).
Proof.
  intros Hos. unfold forceRender. cbv zeta. rewrite Hos. cbn [default].
  destruct st as [[? ? ? ? ? ?] [? ? tl tt ? ? ?] effs]. cbn in *.
  destruct tl, tt; cbn.
  - exists [ClearTimeout LoadingTimer; ClearTimeout TimeoutTimer].
    rewrite <- !app_assoc. done.
  - exists [ClearTimeout LoadingTimer]. rewrite <- !app_assoc. done.
  - exists [ClearTimeout TimeoutTimer]. rewrite <- !app_assoc. done.
  - exists []. rewrite app_nil_r. done.
Qed.

(** The first call of [reject] after the initiating call.  In a
    development build a warning is reported, whether or not there is an
    error component.  With an error component the factory is put in
    error, every owner is re-rendered once, the owners array is emptied
    and the pending timers are cleared; from then on the error component
    is what [resolveAsyncComponent] returns.  Without one nothing else
    happens: the factory is left as it was.  A second call of [reject]
    changes nothing. *)
Theorem rejection_outcome (production : bool) (behaviour : Behaviour)
    (st : State) (reason again : option string) (os : list nat) :
  owners (factory st) = Some os →
  reject_fired (closure st) = false →
  let st' := step production behaviour (Reject reason) st in
  let warned := if production then [] else [WarnFailed reason] in
  match errorComp (factory st) with
  | Some c =>
      error (factory st') = true ∧
      owners (factory st') = Some [] ∧
      timerLoading (closure st') = false ∧ timerTimeout (closure st') = false ∧
      (∃ clears, since st st' = warned ++ (ForceUpdate <$> os) ++ clears ∧
                 forallb is_clear clears = true) ∧
      ∀ current, resolveAsyncComponent production behaviour current st' = (Some c, st')
  | None =>
      factory st' = factory st ∧ since st st' = warned
  end ∧
  step production behaviour (Reject again) st' = st'.
Proof.
  intros Hos Hrf. cbv zeta. cbn [step]. rewrite Hos.
  set (st1 := if production then mark_reject st else log [WarnFailed reason] (mark_reject st)).
  assert (reject production reason st =
          if bool_decide (is_Some (errorComp (factory st)))
          then forceRender true (set_error st1) else st1) as ->.
  { unfold reject, Util.once. rewrite Hrf. unfold st1. by destruct production. }
  assert (effects st1 = effects st ++ (if production then [] else [WarnFailed reason]))
    as He1.
  { unfold st1. destruct production; cbn; by rewrite ?app_nil_r. }
  assert (factory st1 = factory st) as Hf1 by (unfold st1; by destruct production).
  assert (reject_fired (closure st1) = true) as Hr1 by (unfold st1; by destruct production).
  clearbody st1.
  destruct (errorComp (factory st)) as [c|] eqn:Hec.
  - rewrite bool_decide_eq_true_2 by by eexists.
    destruct (forceRender_completed_effects (set_error st1) os)
      as (clears & Heff & Hcl & _ & Ho & Htl & Htt & Herr & Hecomp & _).
    { cbn. by rewrite Hf1. }
    assert (reject_fired (closure (forceRender true (set_error st1))) = true) as Hr2.
    { destruct (forceRender_keeps true (set_error st1)) as (_ & _ & _ & ->). done. }
    set (st2 := forceRender true (set_error st1)) in *.
    split.
    + split_and!; try done.
      * exists clears. split; [|done]. apply since_app.
        rewrite Heff. cbn. rewrite He1, <- !app_assoc. done.
      * intros current. apply render_error; [done|]. rewrite Hecomp. cbn. by rewrite Hf1.
    + rewrite Ho. unfold reject. by apply UtilFacts.once_fired.
  - rewrite bool_decide_eq_false_2 by (by intros [? ?]).
    split.
    + split; [done|]. by apply since_app.
    + rewrite Hf1, Hos. unfold reject. by apply UtilFacts.once_fired.
Qed.

Lemma rejection_outcome_witness :
  let st := run false advanced [Render (Some 1); Render (Some 2)] fresh in
  let st' := step false advanced (Reject (Some "network")) st in
  let warned := [WarnFailed (Some "network")] in
  match errorComp (factory st) with
  | Some c =>
      error (factory st') = true ∧
      owners (factory st') = Some [] ∧
      timerLoading (closure st') = false ∧ timerTimeout (closure st') = false ∧
      (∃ clears, since st st' = warned ++ (ForceUpdate <$> [1; 2]) ++ clears ∧
                 forallb is_clear clears = true) ∧
      ∀ current, resolveAsyncComponent false advanced current st' = (Some c, st')
  | None =>
      factory st' = factory st ∧ since st st' = warned
  end ∧
  step false advanced (Reject None) st' = st'.
Proof.
  apply (rejection_outcome false advanced
           (run false advanced [Render (Some 1); Render (Some 2)] fresh)
           (Some "network") None [1; 2]).
  - reflexivity.
  - reflexivity.
Defined.

(** The timeout.  When the timeout timer fires while the factory is
    unresolved, [reject] is called, in a development build with the
    reason [timeout (Nms)]: if [reject] has not run before and there is
    an error component, the factory is put in error, every owner is
    re-rendered once, and the loading timer, if pending, is cleared.
    When the timer fires after the factory has resolved nothing happens
    to the factory or to the owners. *)
Theorem timeout_outcome (production : bool) (behaviour : Behaviour)
    (st : State) (os : list nat) (ms : nat) :
  timerTimeout (closure st) = true →
  res_timeout (closure st) = Some ms →
  owners (factory st) = Some os →
  let st' := step production behaviour TimeoutElapsed st in
  timerTimeout (closure st') = false ∧
  match resolved (factory st) with
  | Some _ => factory st' = factory st ∧ since st st' = []
  | None =>
      reject_fired (closure st) = false →
      ∀ c, errorComp (factory st) = Some c →
        error (factory st') = true ∧
        owners (factory st') = Some [] ∧
        timerLoading (closure st') = false ∧
        since st st' =
          (if production then []
           else [WarnFailed (Some ("timeout (" +:+ pretty ms +:+ "ms)"))]) ++
          (ForceUpdate <$> os) ++
          (if timerLoading (closure st) then [ClearTimeout LoadingTimer] else [])
  end.
Proof.
  intros Ht Hms Hos. cbv zeta. cbn [step]. rewrite Ht.
  unfold timeout_elapsed, reject, Util.once, timeout_reason, forceRender, since.
  cbv zeta.
  destruct st as [[rs ? ec ? ? ?] [? ? tl tt ? jf rt] effs]. cbn in *. subst.
  destruct rs as [r|]; cbn.
  - split_and!; [done|done|]. by rewrite drop_all.
  - destruct jf; cbn.
    + split; [done|]. intros ?. done.
    + split.
      * destruct production, ec; cbn; by destruct tl.
      * intros _ c ->. cbn.
        destruct production, tl; cbn; rewrite <- ?app_assoc;
          rewrite ?drop_app_length; cbn; rewrite ?app_nil_r; done.
Qed.

Lemma timeout_outcome_witness :
  let st := run false advanced [Render (Some 1); Render (Some 2)] fresh in
  let st' := step false advanced TimeoutElapsed st in
  timerTimeout (closure st') = false ∧
  match resolved (factory st) with
  | Some _ => factory st' = factory st ∧ since st st' = []
  | None =>
      reject_fired (closure st) = false →
      ∀ c, errorComp (factory st) = Some c →
        error (factory st') = true ∧
        owners (factory st') = Some [] ∧
        timerLoading (closure st') = false ∧
        since st st' =
          [WarnFailed (Some ("timeout (" +:+ pretty 3000 +:+ "ms)"))] ++
          (ForceUpdate <$> [1; 2]) ++
          (if timerLoading (closure st) then [ClearTimeout LoadingTimer] else [])
  end.
Proof.
  apply (timeout_outcome false advanced
           (run false advanced [Render (Some 1); Render (Some 2)] fresh) [1; 2] 3000).
  - reflexivity.
  - reflexivity.
  - reflexivity.
Defined.

(** The loading component and its delay.  For a factory that returns a
    promise together with a loading component and a delay other than 0
    (200ms when none is given), the initiating call starts the loading
    timer and returns nothing, and so does every call made before the
    timer fires.  When it fires before the factory is resolved, the
    owners are re-rendered and [resolveAsyncComponent] returns the
    loading component from then on.  When [resolve] is called first, the
    timer is cleared and the loading state is never entered. *)
Theorem loading_after_delay (production : bool) (behaviour : Behaviour)
    (cfg : Config) (l : Comp) (o : nat) :
  sync_calls behaviour = [] →
  returned behaviour = RetConfig cfg →
  cfg_loading cfg = Some l →
  cfg_delay cfg ≠ Some 0 →
  let out := resolveAsyncComponent production behaviour (Some o) fresh in
  out.1 = None ∧
  SetTimeout LoadingTimer (default 200 (cfg_delay cfg)) ∈ effects out.2 ∧
  (∀ current, (resolveAsyncComponent production behaviour current out.2).1 = None) ∧
  (let shown := step production behaviour LoadingElapsed out.2 in
   since out.2 shown = [ForceUpdate o] ∧
   owners (factory shown) = Some [o] ∧
   ∀ current,
     (resolveAsyncComponent production behaviour current shown).1 =
     Some (ensureCtor l)) ∧
  (∀ res,
     let early := step production behaviour (Resolve res) out.2 in
     ClearTimeout LoadingTimer ∈ since out.2 early ∧
     loading (factory early) = false ∧
     step production behaviour LoadingElapsed early = early).
Proof.
  intros Hcalls Hret Hl Hd.
  destruct behaviour as [calls ret]. cbn in Hcalls, Hret. subst calls ret.
  destruct cfg as [e l' d t]. cbn in Hl, Hd. subst l'.
  cbv zeta.
  remember (resolveAsyncComponent _ _ (Some o) fresh) as out eqn:Hout.
  assert (∃ ms, default 200 d = ms ∧ ms ≠ 0) as (ms & Hms & Hnz).
  { eexists. split; [done|]. by destruct d as [[|?]|]. }
  assert (∃ st, out = (None, st) ∧
                factory st = {| resolved := None; error := false;
                                errorComp := ensureCtor <$> e; loading := false;
                                loadingComp := Some (ensureCtor l);
                                owners := Some [o] |} ∧
                timerLoading (closure st) = true ∧
                resolve_fired (closure st) = false ∧
                sync (closure st) = false ∧
                SetTimeout LoadingTimer ms ∈ effects st) as (st & -> & Hf & Htl & Hrf & Hsy & Hin).
  { subst out. destruct e as [e|], t as [t|], d as [[|d]|]; try done.
    all: cbn in Hms; subst ms.
    all: eexists; split; [reflexivity|]; cbn.
    all: split_and!; try done; set_solver. }
  clear Hout. cbn [fst snd cfg_delay]. rewrite Hms.
  destruct st as [[? ? ? ? ? ?] [? ? ? tt ? ? ?] effs]. cbn in *. simplify_eq.
  split; [done|]. split; [done|].
  split.
  { intros [c|]; unfold resolveAsyncComponent; cbn; [|done].
    case_bool_decide; cbn; done. }
  split.
  { unfold loading_elapsed, forceRender, since. cbn. rewrite drop_app_length.
    split; [done|]. split; [done|].
    intros [c|]; unfold resolveAsyncComponent; cbn; [|done].
    case_bool_decide; cbn; done. }
  intros res. unfold resolve, Util.once, forceRender, since. cbn.
  destruct tt; cbn; rewrite <- ?app_assoc; rewrite drop_app_length;
    (split; [set_solver|done]).
Qed.

Lemma loading_after_delay_witness :
  let out := resolveAsyncComponent false advanced (Some 1) fresh in
  out.1 = None ∧
  SetTimeout LoadingTimer (default 200 (Some 50)) ∈ effects out.2 ∧
  (∀ current, (resolveAsyncComponent false advanced current out.2).1 = None) ∧
  (let shown := step false advanced LoadingElapsed out.2 in
   since out.2 shown = [ForceUpdate 1] ∧
   owners (factory shown) = Some [1] ∧
   ∀ current,
     (resolveAsyncComponent false advanced current shown).1 =
     Some (ensureCtor (Plain (OptionsObject 2)))) ∧
  (∀ res,
     let early := step false advanced (Resolve res) out.2 in
     ClearTimeout LoadingTimer ∈ since out.2 early ∧
     loading (factory early) = false ∧
     step false advanced LoadingElapsed early = early).
Proof.
  apply (loading_after_delay false advanced
           {| cfg_error := Some (Plain (OptionsObject 3));
              cfg_loading := Some (Plain (OptionsObject 2));
              cfg_delay := Some 50; cfg_timeout := Some 3000 |}
           (Plain (OptionsObject 2)) 1).
  - reflexivity.
  - reflexivity.
  - reflexivity.
  - discriminate.
Defined.

(** Destroyed owners.  The [hook:destroyed] listener is registered on the
    instance that initiated the request, and on no other.  When that
    instance is destroyed it is taken out of the owners array, so a later
    [resolve] does not re-render it; the destruction of any other
    instance leaves the factory as it is, owners array included. *)
Theorem destroyed_initiator_is_dropped (production : bool) (behaviour : Behaviour)
    (steps : list Step) (o : nat) (res : Comp) :
  let st := run production behaviour steps fresh in
  owner (closure st) = Some o →
  let st1 := step production behaviour (Destroyed o) st in
  let st2 := step production behaviour (Resolve res) st1 in
  (o ∉ default [] (owners (factory st1))) ∧
  forced o (since st1 st2) = 0 ∧
  ∀ i, i ≠ o → step production behaviour (Destroyed i) st = st.
Proof.
  cbv zeta. intros Ho.
  assert (settled (run production behaviour steps fresh)) as (os & Hos & Hnd & _).
  { apply run_touched. intros Hf. by rewrite Hf in Ho. }
  assert (o ∉ default [] (owners (factory
            (step production behaviour (Destroyed o)
               (run production behaviour steps fresh))))) as Hout.
  { cbn [step]. rewrite Ho, Hos. rewrite bool_decide_eq_true_2 by done.
    cbn. by apply UtilFacts.remove_NoDup. }
  split; [done|]. split.
  - pose proof (resolve_forces_owners production behaviour (steps ++ [Destroyed o]) res)
      as Hres.
    cbv zeta in Hres. rewrite run_snoc in Hres.
    destruct (resolve_fired _ || _).
    + rewrite Hres. unfold since, forced. by rewrite drop_all.
    + rewrite Hres. by rewrite bool_decide_eq_false_2.
  - intros i Hi. cbn [step]. rewrite Ho, Hos.
    by rewrite bool_decide_eq_false_2 by congruence.
Qed.

Lemma destroyed_initiator_is_dropped_witness :
  let st := run false returns_promise [Render (Some 1); Render (Some 2)] fresh in
  let st1 := step false returns_promise (Destroyed 1) st in
  let st2 := step false returns_promise (Resolve (Plain (OptionsObject 1))) st1 in
  (1 ∉ default [] (owners (factory st1))) ∧
  forced 1 (since st1 st2) = 0 ∧
  ∀ i, i ≠ 1 → step false returns_promise (Destroyed i) st = st.
Proof.
  apply (destroyed_initiator_is_dropped false returns_promise
           [Render (Some 1); Render (Some 2)] 1 (Plain (OptionsObject 1))).
  reflexivity.
Defined.

End AsyncFacts.

(** ** The component VNode hooks *)
Module ComponentHooksFacts.
Import ComponentHooks.

Lemma made_log e st st' :
  effects st' = effects st → made st (log e st') = [e].
Proof. unfold made. simpl. intros ->. by rewrite drop_app_length. Qed.

Lemma made_log2 e1 e2 st st' :
  effects st' = effects st → made st (log e2 (log e1 st')) = [e1; e2].
Proof.
  unfold made. simpl. intros ->.
  by rewrite <- app_assoc, drop_app_length.
Qed.

(** C3, as the code has it.  For a kept-alive component the [insert] hook
    first runs the mounted lifecycle if the instance was not mounted, and
    then looks at the owning context: when the context is already mounted
    (the insertion happens during an update) the instance is queued for
    activation at the end of the patch; when the context is not mounted
    yet (its tree is still mounting) the activated lifecycle is invoked
    directly.  One of the two happens, never both. *)
Theorem insert_keep_alive (vnode : VNode) (st : State) :
  keepAlive vnode = true →
  let ci := componentInstance vnode in
  let st' := insert vnode st in
  made st st' =
    (if _isMounted ci st then [] else [CallHookMounted ci]) ++
    [if _isMounted (context vnode) st' then QueueActivatedComponent ci
     else ActivateChildComponent ci true] ∧
  _isMounted ci st' = true ∧
  (context vnode ≠ ci →
   _isMounted (context vnode) st' = _isMounted (context vnode) st).
Proof.
  intros Hkeep. cbv zeta.
  set (ci := componentInstance vnode).
  set (st1 := if negb (_isMounted ci st)
              then log (CallHookMounted ci) (set_isMounted ci st) else st).
  assert (insert vnode st =
          log (if _isMounted (context vnode) st1 then QueueActivatedComponent ci
               else ActivateChildComponent ci true) st1) as ->.
  { unfold insert. fold ci. fold st1. rewrite Hkeep.
    by destruct (_isMounted (context vnode) st1). }
  assert (∀ i e, _isMounted i (log e st1) = _isMounted i st1) as Hlog by done.
  rewrite !Hlog.
  assert (mounted st1 = {[ci]} ∪ mounted st) as Hm.
  { unfold st1. destruct (_isMounted ci st) eqn:Hci; simpl; [|done].
    apply bool_decide_eq_true in Hci. set_solver. }
  split_and!.
  - unfold st1. destruct (_isMounted ci st); cbn [negb].
    + by apply made_log.
    + by apply made_log2.
  - unfold _isMounted. rewrite Hm. apply bool_decide_eq_true_2. set_solver.
  - intros Hne. unfold _isMounted. rewrite Hm.
    apply bool_decide_ext. set_solver.
Qed.

Lemma insert_keep_alive_witness :
  let ci := componentInstance kept_alive_child in
  let st' := insert kept_alive_child parent_mounted in
  made parent_mounted st' =
    (if _isMounted ci parent_mounted then [] else [CallHookMounted ci]) ++
    [if _isMounted (context kept_alive_child) st' then QueueActivatedComponent ci
     else ActivateChildComponent ci true] ∧
  _isMounted ci st' = true ∧
  (context kept_alive_child ≠ ci →
   _isMounted (context kept_alive_child) st' =
   _isMounted (context kept_alive_child) parent_mounted).
Proof.
  apply (insert_keep_alive kept_alive_child parent_mounted). reflexivity.
Defined.

(** C3 as stated fails in both directions.  While the parent tree is
    still mounting the activated lifecycle is invoked at once and nothing
    is queued; once the parent is mounted the instance is queued and the
    lifecycle is not invoked. *)
Lemma insert_activates_while_parent_mounts :
  made parent_mounting (insert kept_alive_child parent_mounting) =
    [CallHookMounted 2; ActivateChildComponent 2 true] ∧
  (QueueActivatedComponent 2 ∉ effects (insert kept_alive_child parent_mounting)) ∧
  made parent_mounted (insert kept_alive_child parent_mounted) =
    [CallHookMounted 2; QueueActivatedComponent 2] ∧
  (ActivateChildComponent 2 true ∉ effects (insert kept_alive_child parent_mounted)).
Proof.
  repeat split; try reflexivity.
  - intros Hin. vm_compute in Hin. set_solver.
  - intros Hin. vm_compute in Hin. set_solver.
Qed.

(** *** Installing the hooks *)

Lemma install_one_other hooks key k :
  k ≠ key → install_one hooks key !! k = hooks !! k.
Proof.
  intros Hne. unfold install_one.
  destruct (hooks !! key) as [existing|]; [|by rewrite lookup_insert_ne].
  destruct (_ && _); [by rewrite lookup_insert_ne|done].
Qed.

Lemma install_one_key hooks key :
  install_one hooks key !! key =
    Some match hooks !! key with
         | Some existing =>
             if negb (bool_decide (existing = Builtin key)) && negb (is_merged existing)
             then Merged (Builtin key) existing else existing
         | None => Builtin key
         end.
Proof.
  unfold install_one. destruct (hooks !! key) as [existing|] eqn:He;
    [|by rewrite lookup_insert_eq].
  destruct (_ && _); [by rewrite lookup_insert_eq|done].
Qed.

Lemma installComponentHooks_lookup hook k :
  installComponentHooks hook !! k =
    if bool_decide (k ∈ hooksToMerge)
    then Some match default ∅ hook !! k with
              | Some existing =>
                  if negb (bool_decide (existing = Builtin k)) && negb (is_merged existing)
                  then Merged (Builtin k) existing else existing
              | None => Builtin k
              end
    else default ∅ hook !! k.
Proof.
  unfold installComponentHooks, hooksToMerge. cbn [foldl].
  generalize (default ∅ hook). intros hooks.
  destruct (decide (k = "destroy")) as [->|H4].
  { rewrite install_one_key, !install_one_other by done. done. }
  rewrite install_one_other by done.
  destruct (decide (k = "insert")) as [->|H3].
  { rewrite install_one_key, !install_one_other by done. done. }
  rewrite install_one_other by done.
  destruct (decide (k = "prepatch")) as [->|H2].
  { rewrite install_one_key, !install_one_other by done. done. }
  rewrite install_one_other by done.
  destruct (decide (k = "init")) as [->|H1].
  { rewrite install_one_key. done. }
  rewrite install_one_other by done.
  rewrite bool_decide_eq_false_2; [done|].
  rewrite !elem_of_cons, elem_of_nil. naive_solver.
Qed.

(** [installComponentHooks] composes, it does not overwrite, and it does
    not pile up.  Under each of the four names the hook installed calls
    the component's own hook first and then whatever the hook found
    there called; a hook found there that is the component's own or was
    built by [mergeHook] is left as it is; hooks under other names are not
    touched.  Installing the hooks again on the result changes nothing. *)
Theorem installComponentHooks_composes (hook : option (gmap string Hook)) :
  let installed := installComponentHooks hook in
  (∀ key, key ∈ hooksToMerge →
     ∃ h, installed !! key = Some h ∧
          match default ∅ hook !! key with
          | None => h = Builtin key
          | Some existing =>
              if bool_decide (existing = Builtin key) || is_merged existing
              then h = existing
              else calls h = Builtin key :: calls existing
          end) ∧
  (∀ key, (key ∉ hooksToMerge) → installed !! key = default ∅ hook !! key) ∧
  installComponentHooks (Some installed) = installed.
Proof.
  cbv zeta. split_and!.
  - intros key Hkey. rewrite installComponentHooks_lookup.
    rewrite bool_decide_eq_true_2 by done. eexists. split; [reflexivity|].
    destruct (default ∅ hook !! key) as [existing|]; [|done].
    case_bool_decide; cbn; [done|]. destruct (is_merged existing); cbn; done.
  - intros key Hkey. rewrite installComponentHooks_lookup.
    by rewrite bool_decide_eq_false_2.
  - apply map_eq. intros k. rewrite installComponentHooks_lookup.
    change (default ∅ (Some (installComponentHooks hook)))
      with (installComponentHooks hook).
    rewrite installComponentHooks_lookup.
    case_bool_decide as Hk; [|done]. f_equal.
    destruct (default ∅ hook !! k) as [existing|]; cbn.
    + destruct (decide (existing = Builtin k)) as [->|Hne].
      * repeat (rewrite (bool_decide_eq_true_2 (Builtin k = Builtin k)) by done; cbn).
        done.
      * rewrite (bool_decide_eq_false_2 (existing = _)) by done. cbn.
        destruct (is_merged existing) eqn:Hm; cbn.
        -- by rewrite Hm, andb_false_r.
        -- done.
    + by rewrite bool_decide_eq_true_2.
Qed.

(** *** [transformModel] *)

Lemma transformModel_fixed inherited options_model (A : gmap string nat)
    (O : gmap string Handler) (m : Model) :
  A !! model_option model_prop options_model "value" = Some (model_value m) →
  model_callback m ∈
    handlers (read_on inherited O (model_option model_event options_model "input")) →
  transformModel inherited options_model {| attrs := Some A; on := Some O; model := m |}
  = {| attrs := Some A; on := Some O; model := m |}.
Proof.
  intros HA Hin. unfold transformModel. cbn. f_equal.
  - f_equal. by apply insert_id.
  - f_equal. destruct (read_on inherited O _) as [[fn|fns]|]; cbn in Hin.
    + apply list_elem_of_singleton in Hin. by rewrite bool_decide_eq_true_2.
    + by rewrite bool_decide_eq_true_2.
    + by apply elem_of_nil in Hin.
Qed.

(** [transformModel] puts the bound value under the model's prop in
    [data.attrs] and makes the model's callback a handler of the model's
    event: the only one when there was none, and otherwise the first,
    ahead of the handlers that were there, which stay in their order; a
    callback that is already among the handlers is not added again.
    Running it a second time on its own result changes nothing. *)
Theorem transformModel_adds_callback_once (inherited : string → option nat)
    (options_model : option ModelOptions) (data : ModelData) :
  let prop := model_option model_prop options_model "value" in
  let event := model_option model_event options_model "input" in
  let callback := model_callback (model data) in
  let before := handlers (read_on inherited (default ∅ (on data)) event) in
  let data' := transformModel inherited options_model data in
  default ∅ (attrs data') !! prop = Some (model_value (model data)) ∧
  (∀ k, k ≠ prop → default ∅ (attrs data') !! k = default ∅ (attrs data) !! k) ∧
  handlers (read_on inherited (default ∅ (on data')) event) =
    (if bool_decide (callback ∈ before) then before else callback :: before) ∧
  (∀ k, k ≠ event → default ∅ (on data') !! k = default ∅ (on data) !! k) ∧
  transformModel inherited options_model data' = data'.
Proof.
  cbv zeta.
  set (prop := model_option model_prop options_model "value").
  set (event := model_option model_event options_model "input").
  set (callback := model_callback (model data)).
  set (on0 := default ∅ (on data)).
  assert (∃ on', on (transformModel inherited options_model data) = Some on' ∧
                 on' =
                 match read_on inherited on0 event with
                 | Some (Many fns) =>
                     if bool_decide (callback ∈ fns) then on0
                     else <[event := Many (callback :: fns)]> on0
                 | Some (Single fn) =>
                     if bool_decide (fn = callback) then on0
                     else <[event := Many [callback; fn]]> on0
                 | None => <[event := Single callback]> on0
                 end) as (on' & Hon & Hon') by (eexists; done).
  assert (handlers (read_on inherited on' event) =
          if bool_decide (callback ∈ handlers (read_on inherited on0 event))
          then handlers (read_on inherited on0 event)
          else callback :: handlers (read_on inherited on0 event)) as Hh.
  { rewrite Hon'. destruct (read_on inherited on0 event) as [[fn|fns]|] eqn:Hr; cbn.
    - destruct (decide (fn = callback)) as [->|Hne].
      + rewrite bool_decide_eq_true_2 by done.
        rewrite bool_decide_eq_true_2 by left. by rewrite Hr.
      + rewrite bool_decide_eq_false_2 by done.
        rewrite bool_decide_eq_false_2
          by (intros ?%list_elem_of_singleton; congruence).
        unfold read_on. by rewrite lookup_insert_eq.
    - case_bool_decide; [by rewrite Hr|].
      unfold read_on. by rewrite lookup_insert_eq.
    - rewrite bool_decide_eq_false_2 by apply not_elem_of_nil.
      unfold read_on. by rewrite lookup_insert_eq. }
  assert (∀ k, k ≠ event → on' !! k = on0 !! k) as Hother.
  { intros k Hk. rewrite Hon'.
    destruct (read_on inherited on0 event) as [[fn|fns]|];
      repeat case_bool_decide; by rewrite ?lookup_insert_ne. }
  split_and!.
  - cbn. apply lookup_insert_eq.
  - intros k Hk. cbn. by rewrite lookup_insert_ne.
  - rewrite Hon. cbn [default]. done.
  - intros k Hk. rewrite Hon. cbn [default]. by apply Hother.
  - assert (callback ∈ handlers (read_on inherited on' event)) as Hin.
    { rewrite Hh. case_bool_decide; [done|left]. }
    rewrite Hon' in Hin.
    apply (transformModel_fixed inherited options_model).
    + apply lookup_insert_eq.
    + exact Hin.
Qed.

(** A user [insert] hook is kept and runs after the component's own; the
    hook under [update], which is not a component hook, is left alone. *)
Example install_user_hooks :
  let installed := installComponentHooks (Some user_hooks) in
  calls <$> installed !! "insert" = Some [Builtin "insert"; Other 1 false] ∧
  installed !! "init" = Some (Builtin "init") ∧
  installed !! "update" = Some (Other 2 false) ∧
  installComponentHooks (Some installed) = installed.
Proof. cbv zeta. split_and!; reflexivity. Qed.

(** The model's callback goes ahead of the component's own listener. *)
Example v_model_and_listener :
  let data' := transformModel no_inherited None with_v_model in
  default ∅ (attrs data') !! "value" = Some 8 ∧
  default ∅ (on data') !! "input" = Some (Many [9; 5]) ∧
  transformModel no_inherited None data' = data'.
Proof. cbv zeta. split_and!; reflexivity. Qed.

End ComponentHooksFacts.

(** ** The transition controller *)
Module TransitionFacts.
Import Transition.

Lemma consistent_same st st' : same_callbacks st st' → consistent st → consistent st'.
Proof.
  intros (He & Hl & Hc & _) (Ha & Hb & Hx). unfold consistent, registered.
  rewrite He, Hl, Hc. done.
Qed.

Lemma same_callbacks_refl st : same_callbacks st st.
Proof. done. Qed.

Lemma same_callbacks_trans st1 st2 st3 :
  same_callbacks st1 st2 → same_callbacks st2 st3 → same_callbacks st1 st3.
Proof. intros (?&?&?&?) (?&?&?&?). repeat split; congruence. Qed.

Lemma same_call_hook h role st : same_callbacks st (call_hook h role st).
Proof. by destruct h. Qed.

Lemma consistent_created n p : consistent (created n p).
Proof. repeat split; try done. by left. Qed.

Lemma enter_completed_spec cb st :
  let st' := enter_completed cb st in
  _enterCb st' = None ∧ _leaveCb st' = _leaveCb st ∧
  callbacks st' = callbacks st ∧ nodeType st' = nodeType st.
Proof.
  unfold enter_completed, call_hook.
  destruct (expectsCSS cb), (cancelled cb), (cancelledHook cb), (afterHook cb); done.
Qed.

Lemma leave_completed_spec cb st :
  let st' := leave_completed cb st in
  _leaveCb st' = None ∧ _enterCb st' = _enterCb st ∧
  callbacks st' = callbacks st ∧ nodeType st' = nodeType st.
Proof.
  unfold leave_completed, call_hook.
  destruct (parentNode st), (_pending st), (expectsCSS cb), (cancelled cb),
    (cancelledHook cb), (afterHook cb); done.
Qed.

(** Calling a callback: nothing changes if it has run before; otherwise
    it is marked as run and the property of its direction is cleared. *)
Lemma invoke_spec r st :
  let st' := invoke r st in
  match callbacks st !! r with
  | None => st' = st
  | Some cb =>
      if fired cb then st' = st
      else
        callbacks st' = alter mark_fired r (callbacks st) ∧
        nodeType st' = nodeType st ∧
        match direction cb with
        | Entering => _enterCb st' = None ∧ _leaveCb st' = _leaveCb st
        | Leaving => _leaveCb st' = None ∧ _enterCb st' = _enterCb st
        end
  end.
Proof.
  cbv zeta. unfold invoke. destruct (callbacks st !! r) as [cb|] eqn:Hr; [|done].
  unfold Util.once. rewrite Hr. simpl. destruct (fired cb) eqn:Hf; [done|].
  rewrite lookup_alter_eq, Hr. simpl.
  destruct (direction cb).
  - destruct (enter_completed_spec (mark_fired cb) (set_callbacks (alter mark_fired r) st))
      as (? & ? & ? & ?). done.
  - destruct (leave_completed_spec (mark_fired cb) (set_callbacks (alter mark_fired r) st))
      as (? & ? & ? & ?). done.
Qed.

Lemma registered_alter_other dir pending st st' r cb :
  registered dir pending st →
  callbacks st !! r = Some cb → direction cb ≠ dir →
  callbacks st' = alter mark_fired r (callbacks st) →
  registered dir pending st'.
Proof.
  intros Hreg Hr Hdir Hc r' Hp. destruct (Hreg r' Hp) as (cb' & Hr' & Hd' & Hf').
  exists cb'. rewrite Hc. rewrite lookup_alter_ne; [done|].
  intros ->. congruence.
Qed.

Lemma consistent_invoke r st : consistent st → consistent (invoke r st).
Proof.
  intros (Ha & Hb & Hx). pose proof (invoke_spec r st) as Hs. cbv zeta in Hs.
  destruct (callbacks st !! r) as [cb|] eqn:Hr; [|by rewrite Hs].
  destruct (fired cb) eqn:Hf; [by rewrite Hs|].
  destruct Hs as (Hc & Hn & Hd). unfold consistent.
  destruct (direction cb) eqn:Hdir; destruct Hd as [H1 H2]; rewrite H1, H2.
  - split_and!; [by intros ? ?| |by left].
    eapply registered_alter_other; [done..|congruence|done].
  - split_and!; [|by intros ? ?|by right].
    eapply registered_alter_other; [done..|congruence|done].
Qed.

Lemma invoke_unfired r st cb :
  callbacks st !! r = Some cb → fired cb = false →
  invoke r st =
    match direction cb with
    | Entering => enter_completed (mark_fired cb) (set_callbacks (alter mark_fired r) st)
    | Leaving => leave_completed (mark_fired cb) (set_callbacks (alter mark_fired r) st)
    end.
Proof.
  intros Hr Hf. unfold invoke, Util.once. rewrite Hr. cbn [from_option].
  rewrite Hf. cbn [callbacks set_callbacks]. rewrite lookup_alter_eq, Hr. done.
Qed.

Lemma invoke_fired r st cb :
  callbacks st !! r = Some cb → fired cb = true → invoke r st = st.
Proof.
  intros Hr Hf. unfold invoke, Util.once. rewrite Hr. cbn [from_option].
  by rewrite Hf.
Qed.

Lemma consistent_mark_cancelled r st :
  consistent st → consistent (set_callbacks (alter mark_cancelled r) st).
Proof.
  intros (Ha & Hb & Hx).
  assert (∀ dir p, registered dir p st →
            registered dir p (set_callbacks (alter mark_cancelled r) st)) as Hreg.
  { intros dir p H r' Hp. destruct (H r' Hp) as (cb & Hr & Hd & Hf). simpl.
    destruct (decide (r = r')) as [<-|Hne].
    - exists (mark_cancelled cb). rewrite lookup_alter_eq, Hr. done.
    - exists cb. by rewrite lookup_alter_ne. }
  split_and!; [by apply Hreg|by apply Hreg|done].
Qed.

(** Cancelling the pending enter callback: it runs with the cancelled
    outcome and [_enterCb] is cleared. *)
Lemma cancel_enter st r cb :
  consistent st → _enterCb st = Some r → callbacks st !! r = Some cb →
  let st' := cancel (_enterCb st) st in
  consistent st' ∧ _enterCb st' = None ∧ _leaveCb st' = _leaveCb st ∧
  nodeType st' = nodeType st ∧
  direction cb = Entering ∧
  events st' = events st ++ cancelled_outcome cb.
Proof.
  intros Hc He Hr. cbv zeta.
  destruct Hc as (Ha & Hb & Hx). destruct (Ha r He) as (cb' & Hr' & Hdir & Hf).
  assert (cb' = cb) as -> by congruence.
  rewrite He. unfold cancel.
  set (st1 := set_callbacks (alter mark_cancelled r) st).
  assert (consistent st1) as Hc1 by (by apply consistent_mark_cancelled).
  assert (callbacks st1 !! r = Some (mark_cancelled cb)) as Hr1.
  { unfold st1. simpl. by rewrite lookup_alter_eq, Hr. }
  split_and!.
  - by apply consistent_invoke.
  - pose proof (invoke_spec r st1) as Hs. cbv zeta in Hs. rewrite Hr1 in Hs.
    simpl in Hs. rewrite Hf, Hdir in Hs. tauto.
  - pose proof (invoke_spec r st1) as Hs. cbv zeta in Hs. rewrite Hr1 in Hs.
    simpl in Hs. rewrite Hf, Hdir in Hs. tauto.
  - pose proof (invoke_spec r st1) as Hs. cbv zeta in Hs. rewrite Hr1 in Hs.
    simpl in Hs. rewrite Hf in Hs. tauto.
  - done.
  - rewrite (invoke_unfired r st1 _ Hr1 Hf). cbn [direction mark_cancelled].
    rewrite Hdir.
    unfold enter_completed, cancelled_outcome, call_hook. simpl. rewrite Hdir.
    destruct (expectsCSS cb), (cancelledHook cb); simpl;
      rewrite <- ?app_assoc, ?app_nil_r; done.
Qed.

(** Cancelling the pending leave callback. *)
Lemma cancel_leave st r cb :
  consistent st → _leaveCb st = Some r → callbacks st !! r = Some cb →
  let st' := cancel (_leaveCb st) st in
  consistent st' ∧ _leaveCb st' = None ∧ _enterCb st' = _enterCb st ∧
  nodeType st' = nodeType st ∧
  direction cb = Leaving ∧
  events st' =
    events st ++
    (if parentNode st && bool_decide (is_Some (_pending st))
     then [ClearPending (vnode_key cb)] else []) ++
    cancelled_outcome cb.
Proof.
  intros Hc He Hr. cbv zeta.
  destruct Hc as (Ha & Hb & Hx). destruct (Hb r He) as (cb' & Hr' & Hdir & Hf).
  assert (cb' = cb) as -> by congruence.
  rewrite He. unfold cancel.
  set (st1 := set_callbacks (alter mark_cancelled r) st).
  assert (consistent st1) as Hc1 by (by apply consistent_mark_cancelled).
  assert (callbacks st1 !! r = Some (mark_cancelled cb)) as Hr1.
  { unfold st1. simpl. by rewrite lookup_alter_eq, Hr. }
  split_and!.
  - by apply consistent_invoke.
  - pose proof (invoke_spec r st1) as Hs. cbv zeta in Hs. rewrite Hr1 in Hs.
    simpl in Hs. rewrite Hf, Hdir in Hs. tauto.
  - pose proof (invoke_spec r st1) as Hs. cbv zeta in Hs. rewrite Hr1 in Hs.
    simpl in Hs. rewrite Hf, Hdir in Hs. tauto.
  - pose proof (invoke_spec r st1) as Hs. cbv zeta in Hs. rewrite Hr1 in Hs.
    simpl in Hs. rewrite Hf in Hs. tauto.
  - done.
  - rewrite (invoke_unfired r st1 _ Hr1 Hf). cbn [direction mark_cancelled].
    rewrite Hdir.
    unfold leave_completed, cancelled_outcome, call_hook. simpl. rewrite Hdir.
    destruct (parentNode st), (_pending st), (expectsCSS cb), (cancelledHook cb); simpl;
      rewrite <- ?app_assoc, ?app_nil_r; done.
Qed.

Lemma cancel_none st : cancel None st = st.
Proof. done. Qed.

Lemma extends_refl dir st : extends_without dir st st.
Proof. exists []. by rewrite app_nil_r. Qed.

Lemma extends_trans dir st1 st2 st3 :
  extends_without dir st1 st2 → extends_without dir st2 st3 →
  extends_without dir st1 st3.
Proof.
  intros (t1 & H1 & F1) (t2 & H2 & F2). exists (t1 ++ t2).
  rewrite H2, H1, <- app_assoc, forallb_app, F1, F2. done.
Qed.

Lemma extends_log dir es st :
  forallb (λ e, negb (owned_by dir e)) es = true → extends_without dir st (log es st).
Proof. intros. by exists es. Qed.

Lemma extends_same dir st st' :
  events st' = events st → extends_without dir st st'.
Proof. intros H. exists []. by rewrite app_nil_r. Qed.

Lemma extends_call_hook dir h role st :
  owned_by dir (Call role) = false → extends_without dir st (call_hook h role st).
Proof.
  intros H. destruct h; [|apply extends_refl].
  apply extends_log. simpl. by rewrite H.
Qed.

Ltac chain st2 :=
  match goal with
  | |- extends_without ?dir ?st _ => apply (extends_trans dir st st2)
  end.

Lemma extends_enter_completed cb st :
  extends_without Leaving st (enter_completed cb st).
Proof.
  unfold enter_completed, call_hook.
  destruct (expectsCSS cb), (cancelled cb), (cancelledHook cb), (afterHook cb);
    (eexists; split; [simpl; try rewrite <- !app_assoc; try reflexivity;
                      symmetry; apply app_nil_r|done]).
Qed.

Lemma extends_leave_completed cb st :
  extends_without Entering st (leave_completed cb st).
Proof.
  unfold leave_completed, call_hook.
  destruct (parentNode st), (_pending st), (expectsCSS cb), (cancelled cb),
    (cancelledHook cb), (afterHook cb);
    (eexists; split; [simpl; try rewrite <- !app_assoc; try reflexivity;
                      symmetry; apply app_nil_r|done]).
Qed.

(** Calling a callback of one direction calls no hook of the other. *)
Lemma extends_invoke r st cb :
  callbacks st !! r = Some cb →
  extends_without (other (direction cb)) st (invoke r st).
Proof.
  intros Hr. destruct (fired cb) eqn:Hf.
  - rewrite (invoke_fired r st cb Hr Hf). apply extends_refl.
  - rewrite (invoke_unfired r st cb Hr Hf). destruct (direction cb); simpl.
    + chain (set_callbacks (alter mark_fired r) st); [by apply extends_same|].
      apply extends_enter_completed.
    + chain (set_callbacks (alter mark_fired r) st); [by apply extends_same|].
      apply extends_leave_completed.
Qed.

Lemma advance_refl d r st : advance d r st st.
Proof. intros ? ?. split_and!; [done..|apply extends_refl]. Qed.

Lemma advance_trans d r st1 st2 st3 :
  advance d r st1 st2 → advance d r st2 st3 → advance d r st1 st3.
Proof.
  intros H12 H23 Hc Hd. destruct (H12 Hc Hd) as (Hc2 & Hd2 & He2).
  destruct (H23 Hc2 Hd2) as (Hc3 & Hd3 & He3).
  split_and!; [done..|by eapply extends_trans].
Qed.

Lemma advance_log d r es st :
  forallb (λ e, negb (owned_by (other d) e)) es = true → advance d r st (log es st).
Proof.
  intros Hes Hc Hd. split_and!; [by eapply consistent_same|done|by apply extends_log].
Qed.

Lemma advance_call_hook d r h role st :
  owned_by (other d) (Call role) = false → advance d r st (call_hook h role st).
Proof.
  intros Hrole. destruct h; [|apply advance_refl].
  apply advance_log. simpl. by rewrite Hrole.
Qed.

Lemma advance_invoke d r st : advance d r st (invoke r st).
Proof.
  intros Hc (cb & Hr & Hd). split_and!.
  - by apply consistent_invoke.
  - pose proof (invoke_spec r st) as Hs. cbv zeta in Hs. rewrite Hr in Hs.
    destruct (fired cb); [rewrite Hs; by exists cb|].
    destruct Hs as (Hcs & _). exists (mark_fired cb).
    by rewrite Hcs, lookup_alter_eq, Hr.
  - rewrite <- Hd. by apply extends_invoke.
Qed.

Lemma advance_call_with_done d r h role st :
  owned_by (other d) (Call role) = false →
  advance d r st (call_with_done h role r st).
Proof.
  intros Hrole. destruct h as [fn|]; [|apply advance_refl]. simpl.
  eapply advance_trans; [apply (advance_log d r [Call role]); simpl; by rewrite Hrole|].
  destruct (completes_at_once fn); [apply advance_invoke|apply advance_refl].
Qed.

Lemma advance_if d r (b : bool) st st1 st2 :
  advance d r st st1 → advance d r st st2 → advance d r st (if b then st1 else st2).
Proof. by destruct b. Qed.

Section controller_facts.
Context (isIE9 production : bool).

Lemma same_check_duration dur dir st :
  same_callbacks st (check_duration production dur dir st).
Proof. unfold check_duration. by destruct dur, production. Qed.

Lemma extends_check_duration d dur dir st :
  extends_without d st (check_duration production dur dir st).
Proof.
  unfold check_duration. destruct dur, production; try apply extends_refl.
  apply extends_log. by destruct d.
Qed.

Lemma advance_performLeave r st :
  advance Leaving r st (performLeave r st).
Proof.
  unfold performLeave. destruct (callbacks st !! r) as [cb|]; [|apply advance_refl].
  destruct (cancelled cb); [apply advance_refl|]. cbv zeta.
  eapply advance_trans; [|apply advance_if; [apply advance_invoke|apply advance_refl]].
  eapply advance_trans; [|by apply advance_call_with_done].
  eapply advance_trans; [|apply advance_if; [by apply advance_log|apply advance_refl]].
  eapply advance_trans; [|by apply advance_call_hook].
  apply advance_if; [|apply advance_refl].
  intros Hc Hd. split_and!; [by eapply consistent_same|done|].
  eexists. split; [reflexivity|done].
Qed.

Lemma leave_proper_spec vnode st :
  consistent st → _enterCb st = None →
  consistent (leave_proper isIE9 production vnode st) ∧
  extends_without Entering st (leave_proper isIE9 production vnode st).
Proof.
  intros Hc He. unfold leave_proper.
  destruct (transition vnode) as [data|].
  2:{ split; [by eapply consistent_same|by apply extends_log]. }
  destruct (negb (bool_decide (nodeType st = 1))).
  { split; [by eapply consistent_same|by apply extends_log]. }
  case_bool_decide as Hl; [split; [done|apply extends_refl]|].
  cbv zeta.
  set (st1 := check_duration production (leaveDuration data) Leaving st).
  set (r := fresh_ref st1).
  match goal with
  | |- context [set_leaveCb (Some r) (set_callbacks (<[r := ?c]>) st1)] => set (cb := c)
  end.
  set (st2 := set_leaveCb (Some r) (set_callbacks (<[r := cb]>) st1)).
  assert (consistent st2 ∧ dir_at r Leaving st2) as [Hc2 Hd2].
  { split.
    - split_and!.
      + intros r' Hr'. simpl in Hr'.
        assert (_enterCb st1 = _enterCb st) as Hsame
          by apply (same_check_duration (leaveDuration data) Leaving st).
        congruence.
      + intros r' [= <-]. exists cb. simpl. by rewrite lookup_insert_eq.
      + left. simpl.
        assert (_enterCb st1 = _enterCb st) as ->
          by apply (same_check_duration (leaveDuration data) Leaving st).
        done.
    - exists cb. simpl. by rewrite lookup_insert_eq. }
  assert (extends_without Entering st st2) as He2.
  { apply (extends_trans _ _ st1); [apply extends_check_duration|by apply extends_same]. }
  destruct (delayLeave data).
  - split; [by eapply consistent_same|].
    eapply extends_trans; [done|by apply extends_log].
  - destruct (advance_performLeave r st2 Hc2 Hd2) as (Hc3 & _ & He3).
    split; [done|]. by eapply extends_trans.
Qed.

Lemma enter_proper_spec active vnode toggleDisplay st :
  consistent st → _leaveCb st = None →
  consistent (enter_proper isIE9 production active vnode toggleDisplay st) ∧
  extends_without Leaving st (enter_proper isIE9 production active vnode toggleDisplay st).
Proof.
  intros Hc Hl. unfold enter_proper.
  destruct (transition vnode) as [data|]; [|split; [done|apply extends_refl]].
  match goal with |- context [if ?b then st else _] => destruct b end;
    [split; [done|apply extends_refl]|].
  cbv zeta.
  match goal with |- context [if ?b then st else _] => destruct b end;
    [split; [done|apply extends_refl]|].
  set (st1 := check_duration production (enterDuration data) Entering st).
  set (r := fresh_ref st1).
  match goal with
  | |- context [set_enterCb (Some r) (set_callbacks (<[r := ?c]>) st1)] => set (cb := c)
  end.
  set (st2 := set_enterCb (Some r) (set_callbacks (<[r := cb]>) st1)).
  assert (consistent st2 ∧ dir_at r Entering st2) as [Hc2 Hd2].
  { split.
    - split_and!.
      + intros r' [= <-]. exists cb. simpl. by rewrite lookup_insert_eq.
      + intros r' Hr'. simpl in Hr'.
        assert (_leaveCb st1 = _leaveCb st) as Hsame
          by apply (same_check_duration (enterDuration data) Entering st).
        congruence.
      + right. simpl.
        assert (_leaveCb st1 = _leaveCb st) as ->
          by apply (same_check_duration (enterDuration data) Entering st).
        done.
    - exists cb. simpl. by rewrite lookup_insert_eq. }
  assert (extends_without Leaving st st2) as He2.
  { apply (extends_trans _ _ st1); [apply extends_check_duration|by apply extends_same]. }
  match goal with
  | |- consistent ?final ∧ _ =>
      assert (advance Entering r st2 final) as Hadv
  end.
  { eapply advance_trans; [|apply advance_if; [apply advance_invoke|apply advance_refl]].
    eapply advance_trans;
      [|apply advance_if; [|apply advance_refl]].
    2:{ eapply advance_trans; [|by apply advance_call_with_done].
        apply advance_if; [by apply advance_log|apply advance_refl]. }
    eapply advance_trans; [|apply advance_if; [by apply advance_log|apply advance_refl]].
    eapply advance_trans; [|by apply advance_call_hook].
    apply advance_if; [apply advance_refl|by apply advance_log]. }
  destruct (Hadv Hc2 Hd2) as (Hc3 & _ & He3).
  split; [done|]. by eapply extends_trans.
Qed.

Lemma consistent_cancel_leave st :
  consistent st →
  consistent (cancel (_leaveCb st) st) ∧ _leaveCb (cancel (_leaveCb st) st) = None.
Proof.
  intros Hc. destruct (_leaveCb st) as [r|] eqn:Hl; [|done].
  destruct Hc as (Ha & Hb & Hx). destruct (Hb r Hl) as (cb & Hr & _).
  destruct (cancel_leave st r cb) as (? & ? & _); [done..|].
  rewrite Hl in *. done.
Qed.

Lemma consistent_cancel_enter st :
  consistent st →
  consistent (cancel (_enterCb st) st) ∧ _enterCb (cancel (_enterCb st) st) = None.
Proof.
  intros Hc. destruct (_enterCb st) as [r|] eqn:He; [|done].
  destruct Hc as (Ha & Hb & Hx). destruct (Ha r He) as (cb & Hr & _).
  destruct (cancel_enter st r cb) as (? & ? & _); [done..|].
  rewrite He in *. done.
Qed.

Lemma consistent_step e st :
  consistent st → consistent (step isIE9 production e st).
Proof.
  intros Hc. destruct e as [active vnode toggle|vnode|r|r|r|r]; simpl.
  - unfold enter. destruct (consistent_cancel_leave st Hc) as [Hc' Hl'].
    by apply enter_proper_spec.
  - unfold leave. destruct (consistent_cancel_enter st Hc) as [Hc' He'].
    by apply leave_proper_spec.
  - by apply consistent_invoke.
  - unfold next_frame. destruct (callbacks st !! r) as [cb|]; [|done].
    destruct (cancelled cb); [by eapply consistent_same|].
    destruct (userWantsControl cb); [by eapply consistent_same|].
    destruct (explicitDuration cb); by eapply consistent_same.
  - destruct (callbacks st !! r) as [cb|] eqn:Hr; [|done].
    destruct (direction cb) eqn:Hd; [|done].
    unfold inserted. rewrite Hr.
    eapply (advance_call_with_done Entering r); [done|done|by exists cb].
  - destruct (callbacks st !! r) as [cb|] eqn:Hr; [|done].
    destruct (direction cb) eqn:Hd; [done|].
    eapply (advance_performLeave r); [done|by exists cb].
Qed.

Lemma consistent_run steps : ∀ st,
  consistent st → consistent (run isIE9 production steps st).
Proof.
  induction steps as [|e steps IH]; intros st Hc; [done|].
  simpl. apply IH. by apply consistent_step.
Qed.

End controller_facts.

Lemma since_events st st' tail :
  events st' = events st ++ tail → since st st' = tail.
Proof. unfold since. intros ->. by rewrite drop_app_length. Qed.

Lemma not_owned_not_in dir e tail :
  owned_by dir e = true →
  forallb (λ e, negb (owned_by dir e)) tail = true → e ∉ tail.
Proof.
  intros He Hall Hin. rewrite forallb_forall in Hall.
  apply list_elem_of_In in Hin. specialize (Hall e Hin). by rewrite He in Hall.
Qed.

Lemma cancelled_outcome_calls cb e :
  e ∈ cancelled_outcome cb →
  owned_by (direction cb) e = true →
  is_Some (cancelledHook cb) ∧
  e = Call (match direction cb with
            | Entering => EnterCancelledHook
            | Leaving => LeaveCancelled
            end).
Proof.
  unfold cancelled_outcome.
  destruct (expectsCSS cb), (cancelledHook cb), (direction cb); simpl;
    set_unfold; intros Hin Ho; destruct_or?; simplify_eq; simpl in *; eauto; done.
Qed.

(** C5.  Whatever happens to an element (calls of [enter] and [leave],
    completion callbacks called by whoever holds them, frame callbacks,
    insert hooks, delayed leaves), at most one of [_enterCb] and
    [_leaveCb] is set.  When [leave] is called while an enter callback is
    pending, the callback is first completed with the cancelled outcome:
    its classes are removed, the enter-cancelled hook is called if there
    is one, [_enterCb] is cleared, and only then the rest of [leave] runs;
    the after-enter hook is not called.  Symmetrically, [enter] called
    while a leave callback is pending completes it with the cancelled
    outcome first: the leave-cancelled hook is called, the after-leave
    hook and [rm] are not. *)
Theorem cross_cancellation (isIE9 production : bool) (steps : list Step)
    (nodeType_ : nat) (parent : bool) :
  let st := run isIE9 production steps (created nodeType_ parent) in
  (_enterCb st = None ∨ _leaveCb st = None) ∧
  (∀ vnode r, _enterCb st = Some r →
     ∃ cb tail,
       callbacks st !! r = Some cb ∧
       let mid := cancel (_enterCb st) st in
       leave isIE9 production vnode st = leave_proper isIE9 production vnode mid ∧
       _enterCb mid = None ∧
       events mid = events st ++ cancelled_outcome cb ∧
       events (leave isIE9 production vnode st) = events mid ++ tail ∧
       (is_Some (cancelledHook cb) → Call EnterCancelledHook ∈ cancelled_outcome cb) ∧
       (Call AfterEnterHook ∉ since st (leave isIE9 production vnode st))) ∧
  (∀ active vnode toggleDisplay r, _leaveCb st = Some r →
     ∃ cb cleared tail,
       callbacks st !! r = Some cb ∧
       let mid := cancel (_leaveCb st) st in
       enter isIE9 production active vnode toggleDisplay st =
         enter_proper isIE9 production active vnode toggleDisplay mid ∧
       _leaveCb mid = None ∧
       events mid = events st ++ cleared ++ cancelled_outcome cb ∧
       cleared ⊆ [ClearPending (vnode_key cb)] ∧
       events (enter isIE9 production active vnode toggleDisplay st) =
         events mid ++ tail ∧
       (is_Some (cancelledHook cb) → Call LeaveCancelled ∈ cancelled_outcome cb) ∧
       (Call AfterLeave ∉ since st (enter isIE9 production active vnode toggleDisplay st)) ∧
       (Rm ∉ since st (enter isIE9 production active vnode toggleDisplay st))).
Proof.
  cbv zeta.
  pose proof (consistent_run isIE9 production steps _
                (consistent_created nodeType_ parent)) as Hc.
  set (st := run isIE9 production steps (created nodeType_ parent)) in *.
  clearbody st. split_and!.
  - apply Hc.
  - intros vnode r He.
    destruct Hc as (Ha & Hb & Hx). destruct (Ha r He) as (cb & Hr & Hd & Hf).
    destruct (cancel_enter st r cb) as (Hc1 & He1 & Hl1 & Hn1 & _ & Hev1);
      [done..|].
    destruct (leave_proper_spec isIE9 production vnode _ Hc1 He1)
      as (_ & tail & Htail & Hfree).
    exists cb, tail. split_and!; try done.
    + intros [h Hh]. unfold cancelled_outcome. rewrite Hh, Hd.
      apply elem_of_app. right. apply list_elem_of_singleton. done.
    + unfold leave. rewrite (since_events st _ (cancelled_outcome cb ++ tail)).
      2:{ rewrite Htail, Hev1. by rewrite app_assoc. }
      intros [Hin|Hin]%elem_of_app.
      * apply cancelled_outcome_calls in Hin as [_ Hin]; [|by rewrite Hd].
        by rewrite Hd in Hin.
      * exact (not_owned_not_in Entering (Call AfterEnterHook) tail eq_refl Hfree Hin).
  - intros active vnode toggle r Hl.
    destruct Hc as (Ha & Hb & Hx). destruct (Hb r Hl) as (cb & Hr & Hd & Hf).
    destruct (cancel_leave st r cb) as (Hc1 & Hl1 & He1 & Hn1 & _ & Hev1);
      [done..|].
    destruct (enter_proper_spec isIE9 production active vnode toggle _ Hc1 Hl1)
      as (_ & tail & Htail & Hfree).
    eexists cb, _, tail. split_and!; try done.
    + destruct (parentNode st && _); set_solver.
    + intros [h Hh]. unfold cancelled_outcome. rewrite Hh, Hd.
      apply elem_of_app. right. apply list_elem_of_singleton. done.
    + unfold enter. erewrite since_events.
      2:{ rewrite Htail, Hev1. rewrite <- !app_assoc. reflexivity. }
      intros [Hin|[Hin|Hin]%elem_of_app]%elem_of_app.
      * destruct (parentNode st && _); set_solver.
      * apply cancelled_outcome_calls in Hin as [_ Hin]; [|by rewrite Hd].
        by rewrite Hd in Hin.
      * eapply (not_owned_not_in Leaving); [|exact Hfree|exact Hin]. done.
    + unfold enter. erewrite since_events.
      2:{ rewrite Htail, Hev1. rewrite <- !app_assoc. reflexivity. }
      intros [Hin|[Hin|Hin]%elem_of_app]%elem_of_app.
      * destruct (parentNode st && _); set_solver.
      * apply cancelled_outcome_calls in Hin as [_ Hin]; [|by rewrite Hd].
        by rewrite Hd in Hin.
      * eapply (not_owned_not_in Leaving); [|exact Hfree|exact Hin]. done.
Qed.

(** An element enters; before the transition ends it is removed. *)
Example leave_cancels_enter :
  let st := run false false [DoEnter mounted_context item false] (created 1 true) in
  let st' := leave false false item st in
  _enterCb st = Some 1 ∧ _leaveCb st = None ∧
  since st st' =
    [RemoveTransitionClass (Some "fade-enter-to");
     RemoveTransitionClass (Some "fade-enter-active");
     RemoveTransitionClass (Some "fade-enter");
     Call EnterCancelledHook;
     SetPending "a";
     Call BeforeLeave;
     AddTransitionClass (Some "fade-leave");
     AddTransitionClass (Some "fade-leave-active");
     NextFrame 2;
     Call LeaveHook] ∧
  _enterCb st' = None ∧ _leaveCb st' = Some 2.
Proof. vm_compute. repeat split; reflexivity. Qed.

(** The element is being removed when it is entered again. *)
Example enter_cancels_leave :
  let st := run false false [DoLeave item] (created 1 true) in
  let st' := enter false false mounted_context item false st in
  _leaveCb st = Some 1 ∧ _enterCb st = None ∧
  since st st' =
    [ClearPending "a";
     RemoveTransitionClass (Some "fade-leave-to");
     RemoveTransitionClass (Some "fade-leave-active");
     RemoveTransitionClass (Some "fade-leave");
     Call LeaveCancelled;
     MergeInsertHook 2;
     Call BeforeEnterHook;
     AddTransitionClass (Some "fade-enter");
     AddTransitionClass (Some "fade-enter-active");
     NextFrame 2] ∧
  _leaveCb st' = None ∧ _enterCb st' = Some 2.
Proof. vm_compute. repeat split; reflexivity. Qed.

(** *** Transitions that complete at once *)

Lemma events_call_hook h role st :
  events (call_hook h role st) = events st ++ hook_call h role.
Proof. destruct h; cbn; by rewrite ?app_nil_r. Qed.

Lemma events_check_duration production d dir st :
  events (check_duration production d dir st) =
  events st ++ duration_warning production d dir.
Proof. destruct d; cbn; rewrite ?app_nil_r; try done. destruct production; cbn; by rewrite ?app_nil_r. Qed.

Lemma invoke_twice r st : invoke r (invoke r st) = invoke r st.
Proof.
  pose proof (invoke_spec r st) as Hs. cbv zeta in Hs.
  destruct (callbacks st !! r) as [cb|] eqn:Hr; [|by rewrite Hs].
  destruct (fired cb) eqn:Hf; [by rewrite Hs|].
  destruct Hs as (Hc & _).
  eapply invoke_fired.
  - rewrite Hc, lookup_alter_eq, Hr. done.
  - done.
Qed.

(** [performLeave] on a callback that nothing holds back: CSS is not
    expected and the leave hook does not take the callback. *)
Lemma performLeave_at_once r st cb :
  callbacks st !! r = Some cb →
  direction cb = Leaving → fired cb = false → cancelled cb = false →
  expectsCSS cb = false → userWantsControl cb = false →
  let st' := performLeave r st in
  _leaveCb st' = None ∧ _enterCb st' = _enterCb st ∧
  events st' =
    events st ++
    (if negb (vnode_show cb) && parentNode st then [SetPending (vnode_key cb)] else []) ++
    hook_call (beforeHook cb) BeforeLeave ++
    hook_call (mainHook cb) LeaveHook ++
    (if parentNode st && (negb (vnode_show cb) || bool_decide (is_Some (_pending st)))
     then [ClearPending (vnode_key cb)] else []) ++
    [Rm] ++
    hook_call (afterHook cb) AfterLeave.
Proof.
  intros Hr Hd Hf Hc Hcss Hctl. cbv zeta.
  unfold performLeave. rewrite Hr, Hc, Hcss, Hctl. cbv zeta. cbn [negb andb].
  set (stA := if negb (vnode_show cb) && parentNode st then _ else st).
  set (stB := call_hook (beforeHook cb) BeforeLeave stA).
  set (stX := match mainHook cb with
              | Some _ => log [Call LeaveHook] stB
              | None => stB
              end).
  assert (invoke r (call_with_done (mainHook cb) LeaveHook r stB) = invoke r stX) as ->.
  { unfold call_with_done, stX. destruct (mainHook cb) as [fn|]; [|done].
    destruct (completes_at_once fn); [apply invoke_twice|done]. }
  assert (callbacks stX = callbacks st ∧ _enterCb stX = _enterCb st ∧
          parentNode stX = parentNode st ∧
          _pending stX = (if negb (vnode_show cb) && parentNode st
                          then Some ({[vnode_key cb]} ∪ default ∅ (_pending st))
                          else _pending st) ∧
          events stX = events st ++
            (if negb (vnode_show cb) && parentNode st then [SetPending (vnode_key cb)]
             else []) ++
            hook_call (beforeHook cb) BeforeLeave ++
            hook_call (mainHook cb) LeaveHook) as (HcX & HeX & HpX & HqX & HvX).
  { unfold stX, stB, stA.
    destruct (mainHook cb), (beforeHook cb), (negb (vnode_show cb) && parentNode st);
      cbn; rewrite ?app_nil_r, <- ?app_assoc; try done. }
  clearbody stX. clear stA stB.
  rewrite (invoke_unfired r stX cb) by (by rewrite ?HcX). rewrite Hd.
  unfold leave_completed. cbv zeta. cbn [set_callbacks parentNode _pending expectsCSS
    cancelled mark_fired vnode_key afterHook].
  rewrite HpX, HqX, Hcss, Hc.
  assert (∀ (s : State) pre, _enterCb s = _enterCb st →
            events s = events stX ++ pre ++ [Rm] →
            _leaveCb (set_leaveCb None (call_hook (afterHook cb) AfterLeave s)) = None ∧
            _enterCb (set_leaveCb None (call_hook (afterHook cb) AfterLeave s)) =
              _enterCb st ∧
            events (set_leaveCb None (call_hook (afterHook cb) AfterLeave s)) =
              events stX ++ pre ++ [Rm] ++ hook_call (afterHook cb) AfterLeave) as Hfin.
  { intros s pre Hse Hsv. destruct (afterHook cb); cbn; rewrite Hse, Hsv, <- ?app_assoc;
      rewrite ?app_nil_r; done. }
  destruct (parentNode st) eqn:Hp, (negb (vnode_show cb)) eqn:Hs; cbn [andb orb].
  2: destruct (_pending st) as [keys|] eqn:Hq;
       [rewrite bool_decide_eq_true_2 by (by eexists)
       |rewrite bool_decide_eq_false_2 by (by intros [? ?])].
  all: match goal with
       | |- context [call_hook _ AfterLeave (log [Rm] (log ?es ?s))] =>
           destruct (Hfin (log [Rm] (log es s)) es) as (H1 & H2 & H3);
             [done|cbn; rewrite <- ?app_assoc; done|]
       | |- context [call_hook _ AfterLeave (log [Rm] ?s)] =>
           destruct (Hfin (log [Rm] s) []) as (H1 & H2 & H3);
             [done|cbn; rewrite <- ?app_assoc; done|]
       end.
  all: split_and!; [exact H1|exact H2|].
  all: rewrite H3, HvX; cbn [andb app]; rewrite <- ?app_assoc; cbn [app];
       rewrite <- ?app_assoc; rewrite ?app_nil_r; done.
Qed.

(** A leave that nothing delays.  When CSS is not expected ([css: false],
    or IE9), the leave hook does not take the completion callback and
    there is no [delayLeave], [leave] completes before it returns: the
    hooks are called in the order before-leave, leave, after-leave, [rm]
    is called once, between the last two, and no callback is left
    pending on the element. *)
Theorem leave_completes_at_once (isIE9 production : bool) (vnode : VNode) (data : Data)
    (st : State) :
  _enterCb st = None → _leaveCb st = None → nodeType st = 1 →
  transition vnode = Some data →
  css data && negb isIE9 = false →
  getHookArgumentsLength (on_leave data) = false →
  delayLeave data = false →
  let st' := leave isIE9 production vnode st in
  _leaveCb st' = None ∧ _enterCb st' = None ∧
  since st st' =
    duration_warning production (leaveDuration data) Leaving ++
    (if negb (show vnode) && parentNode st then [SetPending (key vnode)] else []) ++
    hook_call (beforeLeave data) BeforeLeave ++
    hook_call (on_leave data) LeaveHook ++
    (if parentNode st && (negb (show vnode) || bool_decide (is_Some (_pending st)))
     then [ClearPending (key vnode)] else []) ++
    [Rm] ++
    hook_call (afterLeave data) AfterLeave.
Proof.
  intros He Hl Hn Ht Hcss Hctl Hdelay. cbv zeta.
  unfold leave. rewrite He. cbn [cancel].
  unfold leave_proper. rewrite Ht, Hn, Hl, Hcss, Hctl, Hdelay. cbn [bool_decide negb].
  rewrite bool_decide_eq_true_2 by done. cbn [negb].
  rewrite bool_decide_eq_false_2 by (by intros [? ?]). cbv zeta.
  set (st0 := check_duration production (leaveDuration data) Leaving st).
  set (r := fresh_ref st0).
  set (cb := {| direction := Leaving; cancelled := false |}).
  set (st1 := set_leaveCb (Some r) (set_callbacks (<[r := cb]>) st0)).
  assert (events st1 = events st ++ duration_warning production (leaveDuration data) Leaving
          ∧ parentNode st1 = parentNode st ∧ _pending st1 = _pending st
          ∧ _enterCb st1 = None) as (Hv1 & Hp1 & Hq1 & He1).
  { unfold st1, st0. cbn. rewrite events_check_duration.
    destruct (leaveDuration data); cbn; try done. by destruct production. }
  destruct (performLeave_at_once r st1 cb) as (H1 & H2 & H3); try done.
  { cbn. apply lookup_insert_eq. }
  split_and!; [done|congruence|].
  apply since_events. rewrite H3, Hv1, Hp1, Hq1. cbn [vnode_show vnode_key beforeHook
    mainHook afterHook cb]. by rewrite <- !app_assoc.
Qed.

Lemma leave_completes_at_once_witness :
  let st := created 1 true in
  let st' := leave false false script_item st in
  _leaveCb st' = None ∧ _enterCb st' = None ∧
  since st st' =
    duration_warning false (leaveDuration script_only) Leaving ++
    (if negb (show script_item) && parentNode st then [SetPending (key script_item)]
     else []) ++
    hook_call (beforeLeave script_only) BeforeLeave ++
    hook_call (on_leave script_only) LeaveHook ++
    (if parentNode st && (negb (show script_item) || bool_decide (is_Some (_pending st)))
     then [ClearPending (key script_item)] else []) ++
    [Rm] ++
    hook_call (afterLeave script_only) AfterLeave.
Proof.
  apply (leave_completes_at_once false false script_item script_only (created 1 true));
    reflexivity.
Defined.

(** The events of the example: the element is taken out between the
    leave hook and the after-leave hook. *)
Example script_only_leave :
  since (created 1 true) (leave false false script_item (created 1 true)) =
    [SetPending "a"; Call BeforeLeave; Call LeaveHook; ClearPending "a"; Rm; Call AfterLeave].
Proof. reflexivity. Qed.

Lemma fresh_ref_check_duration production d dir st :
  fresh_ref (check_duration production d dir st) = fresh_ref st.
Proof. destruct d; try done. by destruct production. Qed.

(** An enter that nothing delays.  On an element that is the root of an
    insertion ([vnode.isRootInsert]) in a mounted context, so that the
    enter is not an appear, when CSS is not expected and the enter hook
    does not take the completion callback, [enter] completes before it
    returns: the
    before-enter hook is called, then (for [v-show]) the enter hook, then
    the after-enter hook, and no callback is left pending.  For an
    element that is not managed by [v-show] the enter hook is called
    later, by the insert hook, after the after-enter hook has run, and
    calling the completion callback there has no further effect. *)
Theorem enter_completes_at_once (isIE9 production : bool) (active : Active)
    (vnode : VNode) (toggleDisplay : bool) (data : Data) (st : State) :
  _enterCb st = None → _leaveCb st = None → nodeType st = 1 →
  transition vnode = Some data →
  context_isMounted (active_isMounted active) (placeholders active) = true →
  isRootInsert vnode = true →
  css data && negb isIE9 = false →
  getHookArgumentsLength (on_enter data) = false →
  let r := fresh_ref st in
  let st' := enter isIE9 production active vnode toggleDisplay st in
  _enterCb st' = None ∧ _leaveCb st' = None ∧
  since st st' =
    duration_warning production (enterDuration data) Entering ++
    (if show vnode then [] else [MergeInsertHook r]) ++
    hook_call (beforeEnter data) BeforeEnterHook ++
    (if show vnode
     then (if toggleDisplay then [ToggleDisplay] else []) ++
          hook_call (on_enter data) EnterHook
     else []) ++
    hook_call (afterEnter data) AfterEnterHook ∧
  (show vnode = false →
   since st' (step isIE9 production (Inserted r) st') =
     hook_call (on_enter data) EnterHook).
Proof.
  intros He Hl Hn Ht Hm Hroot Hcss Hctl. cbv zeta.
  unfold enter. rewrite Hl. cbn [cancel].
  unfold enter_proper. rewrite Ht, He, Hn, Hm, Hroot.
  rewrite bool_decide_eq_false_2 by (by intros [? ?]).
  rewrite bool_decide_eq_true_2 by done. cbn [negb orb andb]. cbv zeta.
  rewrite Hcss, Hctl. cbn [negb orb andb].
  cbn [userWantsControl beforeHook show].
  rewrite fresh_ref_check_duration.
  set (st0 := check_duration production (enterDuration data) Entering st).
  set (r := fresh_ref st).
  set (cb := {| direction := Entering; cancelled := false |}).
  set (st1 := set_enterCb (Some r) (set_callbacks (<[r := cb]>) st0)).
  cbn [negb andb orb].
  set (stM := if show vnode then st1 else log [MergeInsertHook r] st1).
  set (stB := call_hook (beforeEnter data) BeforeEnterHook stM).
  set (stX := if show vnode
              then match on_enter data with
                   | Some _ =>
                       log [Call EnterHook]
                         (if toggleDisplay then log [ToggleDisplay] stB else stB)
                   | None => if toggleDisplay then log [ToggleDisplay] stB else stB
                   end
              else stB).
  assert (invoke r
            (if show vnode
             then call_with_done (on_enter data) EnterHook r
                    (if toggleDisplay then log [ToggleDisplay] stB else stB)
             else stB) = invoke r stX) as ->.
  { unfold stX, call_with_done. destruct (show vnode); [|done].
    destruct (on_enter data) as [fn|]; [|done].
    destruct (completes_at_once fn); [apply invoke_twice|done]. }
  assert (callbacks stX = <[r := cb]> (callbacks st) ∧ _leaveCb stX = None ∧
          events stX = events st ++
            duration_warning production (enterDuration data) Entering ++
            (if show vnode then [] else [MergeInsertHook r]) ++
            hook_call (beforeEnter data) BeforeEnterHook ++
            (if show vnode
             then (if toggleDisplay then [ToggleDisplay] else []) ++
                  hook_call (on_enter data) EnterHook
             else [])) as (HcX & HlX & HvX).
  { assert (callbacks st0 = callbacks st ∧ _leaveCb st0 = None ∧
            events st0 = events st ++
              duration_warning production (enterDuration data) Entering)
      as (Hc0 & Hl0 & Hv0).
    { unfold st0. rewrite events_check_duration.
      destruct (enterDuration data); try done. by destruct production. }
    unfold stX, stB, stM, st1.
    destruct (show vnode), (on_enter data), (beforeEnter data), toggleDisplay;
      cbn; rewrite Hc0, Hl0, Hv0, <- ?app_assoc; cbn; rewrite ?app_nil_r; done. }
  clearbody stX. clear stM stB st1.
  rewrite (invoke_unfired r stX cb) by (by rewrite ?HcX, ?lookup_insert_eq).
  cbn [direction cb]. unfold enter_completed. cbv zeta.
  cbn [expectsCSS cancelled mark_fired afterHook cb].
  set (stF := set_enterCb None
                (call_hook (afterEnter data) AfterEnterHook
                   (set_callbacks (alter mark_fired r) stX))).
  assert (_enterCb stF = None ∧ _leaveCb stF = None ∧
          callbacks stF = <[r := mark_fired cb]> (callbacks st) ∧
          events stF = events stX ++ hook_call (afterEnter data) AfterEnterHook)
    as (HeF & HlF & HcF & HvF).
  { unfold stF. destruct (afterEnter data); cbn; rewrite HcX, HlX, ?app_nil_r;
      (split_and!; [done|done| |done]); apply map_eq; intros k;
      (destruct (decide (k = r)) as [->|Hne];
        [by rewrite lookup_alter_eq, !lookup_insert_eq
        |by rewrite lookup_alter_ne, !lookup_insert_ne by done]). }
  clearbody stF.
  split_and!; [done|done| |].
  - apply since_events. rewrite HvF, HvX, <- !app_assoc. done.
  - intros _. cbn [step]. rewrite HcF, lookup_insert_eq. cbn [direction mark_fired cb].
    unfold inserted. rewrite HcF, lookup_insert_eq. cbn [mainHook mark_fired cb].
    unfold call_with_done. destruct (on_enter data) as [fn|]; cbn [hook_call].
    + assert (invoke r (log [Call EnterHook] stF) = log [Call EnterHook] stF) as Hno.
      { eapply invoke_fired; [cbn; by rewrite HcF, lookup_insert_eq|done]. }
      rewrite Hno. destruct (completes_at_once fn); by apply since_events.
    + apply since_events. by rewrite app_nil_r.
Qed.

Lemma enter_completes_at_once_witness :
  let st := created 1 true in
  let r := fresh_ref st in
  let st' := enter false false mounted_context script_item false st in
  _enterCb st' = None ∧ _leaveCb st' = None ∧
  since st st' =
    duration_warning false (enterDuration script_only) Entering ++
    (if show script_item then [] else [MergeInsertHook r]) ++
    hook_call (beforeEnter script_only) BeforeEnterHook ++
    (if show script_item
     then (if false then [ToggleDisplay] else []) ++
          hook_call (on_enter script_only) EnterHook
     else []) ++
    hook_call (afterEnter script_only) AfterEnterHook ∧
  since st' (step false false (Inserted r) st') =
    hook_call (on_enter script_only) EnterHook.
Proof.
  destruct (enter_completes_at_once false false mounted_context script_item false
              script_only (created 1 true)) as (H1 & H2 & H3 & H4); try reflexivity.
  split_and!; [exact H1|exact H2|exact H3|exact (H4 eq_refl)].
Defined.

(** *** [rm] is called at most once for each leave *)

Lemma removals_log es st :
  removals (log es st) = removals st + length (filter (λ e, e = Rm) es).
Proof. unfold removals. cbn. by rewrite filter_app, length_app. Qed.

Lemma removals_call_hook h role st :
  removals (call_hook h role st) = removals st.
Proof.
  destruct h; [|done]. cbn [call_hook].
  rewrite removals_log, filter_cons_False, filter_nil by done. cbn. lia.
Qed.

Lemma removals_if_log (b : bool) es st :
  filter (λ e, e = Rm) es = [] →
  removals (if b then log es st else st) = removals st.
Proof. intros H. destruct b; [|done]. rewrite removals_log, H. cbn. lia. Qed.

Lemma removals_enter_completed cb st :
  removals (enter_completed cb st) = removals st.
Proof.
  unfold enter_completed. cbv zeta.
  change (removals (set_enterCb None ?s)) with (removals s).
  destruct (cancelled cb).
  - by rewrite removals_call_hook, !removals_if_log.
  - by rewrite removals_call_hook, removals_if_log.
Qed.

Lemma removals_leave_completed cb st :
  removals (leave_completed cb st) ≤ removals st + 1.
Proof.
  unfold leave_completed. cbv zeta.
  change (removals (set_leaveCb None ?s)) with (removals s).
  assert (removals (match parentNode st, _pending st with
                    | true, Some keys =>
                        log [ClearPending (vnode_key cb)]
                          (set_pending (Some (keys ∖ {[vnode_key cb]})) st)
                    | _, _ => st
                    end) = removals st) as H0.
  { destruct (parentNode st), (_pending st); try done. by rewrite removals_log. }
  destruct (cancelled cb).
  - rewrite removals_call_hook, !removals_if_log, H0 by done. lia.
  - rewrite removals_call_hook, removals_log, removals_if_log, H0 by done.
    change (length (filter (λ e, e = Rm) [Rm])) with 1. lia.
Qed.

Lemma settles_refl st : settles st st.
Proof. intros ?. split; [done|lia]. Qed.

Lemma settles_trans st1 st2 st3 : settles st1 st2 → settles st2 st3 → settles st1 st3.
Proof.
  intros H12 H23 H1. destruct (H12 H1) as [H2 Hle]. destruct (H23 H2) as [H3 Hle'].
  split; [done|lia].
Qed.

(** A change of the state that leaves the callbacks alone and calls no
    [rm]. *)
Lemma settles_same st st' :
  callbacks st' = callbacks st → _leaveCb st' = _leaveCb st →
  removals st' = removals st → settles st st'.
Proof.
  intros Hc Hl Hr Hs. split.
  - intros r cb. rewrite Hc, Hl. apply Hs.
  - unfold leave_pending. rewrite Hl, Hr. lia.
Qed.

Lemma settles_log es st :
  filter (λ e, e = Rm) es = [] → settles st (log es st).
Proof.
  intros Hes. apply settles_same; [done|done|]. rewrite removals_log, Hes. cbn. lia.
Qed.

Lemma settles_call_hook h role st : settles st (call_hook h role st).
Proof. destruct h; [by apply settles_log|apply settles_refl]. Qed.

Lemma settles_if (b : bool) st st1 st2 :
  settles st st1 → settles st st2 → settles st (if b then st1 else st2).
Proof. by destruct b. Qed.

Lemma settles_mark_cancelled r st :
  settles st (set_callbacks (alter mark_cancelled r) st).
Proof.
  intros Hs. split; [|cbn; unfold leave_pending, removals; cbn; lia].
  intros r' cb'. cbn. destruct (decide (r' = r)) as [->|Hne].
  - rewrite lookup_alter_eq. destruct (callbacks st !! r) as [cb|] eqn:Hr; [|done].
    cbn. intros [= <-]. cbn. by apply Hs.
  - rewrite lookup_alter_ne by done. apply Hs.
Qed.

Lemma settles_invoke r st : settles st (invoke r st).
Proof.
  destruct (callbacks st !! r) as [cb|] eqn:Hr.
  2: { unfold invoke. rewrite Hr. apply settles_refl. }
  destruct (fired cb) eqn:Hf.
  { rewrite (invoke_fired r st cb Hr Hf). apply settles_refl. }
  rewrite (invoke_unfired r st cb Hr Hf).
  intros Hs.
  assert (∀ st' : State,
            callbacks st' = alter mark_fired r (callbacks st) →
            (direction cb = Entering → _leaveCb st' = _leaveCb st) →
            (direction cb = Leaving → _leaveCb st' = None) →
            sole_leave st') as Hsole.
  { intros st' Hc He Hl r' cb'. rewrite Hc.
    destruct (decide (r' = r)) as [->|Hne].
    - rewrite lookup_alter_eq, Hr. cbn. by intros [= <-].
    - rewrite lookup_alter_ne by done. intros Hr' Hd' Hf'.
      pose proof (Hs r' cb' Hr' Hd' Hf') as Hreg.
      destruct (direction cb) eqn:Hd.
      + by rewrite He.
      + pose proof (Hs r cb Hr Hd Hf). congruence. }
  destruct (direction cb) eqn:Hd.
  - destruct (enter_completed_spec (mark_fired cb)
                (set_callbacks (alter mark_fired r) st)) as (_ & Hl & Hc & _).
    split; [by apply Hsole|].
    unfold leave_pending. rewrite Hl. cbn [_leaveCb set_callbacks].
    rewrite removals_enter_completed.
    change (removals (set_callbacks ?f st)) with (removals st). lia.
  - pose proof (Hs r cb Hr Hd Hf) as Hreg.
    destruct (leave_completed_spec (mark_fired cb)
                (set_callbacks (alter mark_fired r) st)) as (Hl & _ & Hc & _).
    split; [by apply Hsole|].
    unfold leave_pending. rewrite Hl, Hreg.
    pose proof (removals_leave_completed (mark_fired cb)
                  (set_callbacks (alter mark_fired r) st)) as Hrm.
    change (removals (set_callbacks (alter mark_fired r) st)) with (removals st) in Hrm.
    lia.
Qed.

Lemma settles_cancel pending st : settles st (cancel pending st).
Proof.
  destruct pending as [r|]; [|apply settles_refl]. cbn [cancel].
  eapply settles_trans; [apply settles_mark_cancelled|apply settles_invoke].
Qed.

Lemma settles_call_with_done h role r st :
  settles st (call_with_done h role r st).
Proof.
  destruct h as [fn|]; [|apply settles_refl]. cbn [call_with_done]. cbv zeta.
  apply (settles_trans _ (log [Call role] st)); [by apply settles_log|].
  destruct (completes_at_once fn); [apply settles_invoke|apply settles_refl].
Qed.

Lemma settles_set_pending p st : settles st (set_pending p st).
Proof. by apply settles_same. Qed.

Ltac settle_down :=
  lazymatch goal with
  | |- settles ?s ?s => apply settles_refl
  | |- settles ?s (if ?b then _ else _) => destruct b; settle_down
  | |- settles ?s (invoke ?r ?y) =>
      apply (settles_trans s y); [settle_down|apply settles_invoke]
  | |- settles ?s (call_with_done ?h ?role ?r ?y) =>
      apply (settles_trans s y); [settle_down|apply settles_call_with_done]
  | |- settles ?s (call_hook ?h ?role ?y) =>
      apply (settles_trans s y); [settle_down|apply settles_call_hook]
  | |- settles ?s (log ?es ?y) =>
      apply (settles_trans s y); [settle_down|by apply settles_log]
  | |- settles ?s (set_pending ?p ?y) =>
      apply (settles_trans s y); [settle_down|apply settles_set_pending]
  | |- _ => assumption
  end.

Lemma settles_performLeave r st : settles st (performLeave r st).
Proof.
  unfold performLeave. destruct (callbacks st !! r) as [cb|]; [|apply settles_refl].
  destruct (cancelled cb); [apply settles_refl|]. cbv zeta. settle_down.
Qed.

Lemma settles_check_duration production d dir st :
  settles st (check_duration production d dir st).
Proof.
  destruct d; try apply settles_refl. cbn.
  destruct production; [apply settles_refl|by apply settles_log].
Qed.

Section removals.
Context (isIE9 production : bool).

Lemma settles_enter_proper active vnode toggleDisplay st :
  settles st (enter_proper isIE9 production active vnode toggleDisplay st).
Proof.
  unfold enter_proper. destruct (transition vnode) as [data|]; [|apply settles_refl].
  destruct (_ || _); [apply settles_refl|]. cbv zeta.
  destruct (_ && _); [apply settles_refl|].
  set (st0 := check_duration production (enterDuration data) Entering st).
  set (r := fresh_ref st0).
  match goal with
  | |- context [set_enterCb (Some r) (set_callbacks (<[r := ?c]>) st0)] => set (cb := c)
  end.
  set (st1 := set_enterCb (Some r) (set_callbacks (<[r := cb]>) st0)).
  assert (settles st st1) as H1.
  { apply (settles_trans _ st0); [apply settles_check_duration|].
    intros Hs. split; [|unfold leave_pending, removals; cbn; lia].
    intros r' cb'. cbn. destruct (decide (r' = r)) as [->|Hne].
    - rewrite lookup_insert_eq. by intros [= <-].
    - rewrite lookup_insert_ne by done. apply Hs. }
  clearbody st1. settle_down.
Qed.

Lemma leave_proper_removals vnode st :
  sole_leave st →
  let st' := leave_proper isIE9 production vnode st in
  sole_leave st' ∧
  removals st' + leave_pending st' ≤ removals st + leave_pending st + 1.
Proof.
  intros Hs. cbv zeta. unfold leave_proper.
  assert (sole_leave (log [Rm] st) ∧
          removals (log [Rm] st) + leave_pending (log [Rm] st) ≤
          removals st + leave_pending st + 1) as Hrm.
  { split; [done|]. rewrite removals_log.
    change (length (filter (λ e, e = Rm) [Rm])) with 1.
    change (leave_pending (log [Rm] st)) with (leave_pending st). lia. }
  destruct (transition vnode) as [data|]; [|done].
  destruct (negb _); [done|].
  case_bool_decide as Hl; [split; [done|lia]|].
  assert (_leaveCb st = None) as Hnone.
  { destruct (_leaveCb st); [|done]. exfalso. apply Hl. by eexists. }
  cbv zeta.
  set (st0 := check_duration production (leaveDuration data) Leaving st).
  set (r := fresh_ref st0).
  match goal with
  | |- context [set_leaveCb (Some r) (set_callbacks (<[r := ?c]>) st0)] => set (cb := c)
  end.
  set (st1 := set_leaveCb (Some r) (set_callbacks (<[r := cb]>) st0)).
  destruct (settles_check_duration production (leaveDuration data) Leaving st Hs)
    as [Hs0 Hle0].
  fold st0 in Hs0, Hle0.
  assert (_leaveCb st0 = None) as Hnone0.
  { unfold st0. destruct (leaveDuration data); try done. by destruct production. }
  assert (sole_leave st1 ∧ removals st1 + leave_pending st1 ≤
                           removals st + leave_pending st + 1) as [Hs1 Hle1].
  { split.
    - intros r' cb'. cbn. destruct (decide (r' = r)) as [->|Hne]; [done|].
      rewrite lookup_insert_ne by done. intros Hr' Hd' Hf'.
      pose proof (Hs0 r' cb' Hr' Hd' Hf'). congruence.
    - assert (leave_pending st = 0) as Hp by (unfold leave_pending; by rewrite Hnone).
      assert (leave_pending st0 = 0) as Hp0 by (unfold leave_pending; by rewrite Hnone0).
      assert (leave_pending st1 = 1) as Hp1 by done.
      assert (removals st1 = removals st0) as Hr1 by done.
      lia. }
  destruct (delayLeave data).
  - destruct (settles_log [DelayLeave r] st1 eq_refl Hs1) as [? ?]. split; [done|lia].
  - destruct (settles_performLeave r st1 Hs1) as [? ?]. split; [done|lia].
Qed.

Lemma step_removals e st :
  sole_leave st →
  let st' := step isIE9 production e st in
  sole_leave st' ∧
  removals st' + leave_pending st' ≤
  removals st + leave_pending st + (if is_leave e then 1 else 0).
Proof.
  intros Hs. cbv zeta.
  assert (∀ st', settles st st' →
                 sole_leave st' ∧
                 removals st' + leave_pending st' ≤ removals st + leave_pending st + 0)
    as Hsettles.
  { intros st' H. destruct (H Hs). split; [done|lia]. }
  destruct e as [active vnode toggle|vnode|r|r|r|r]; cbn [step is_leave].
  - apply Hsettles. unfold enter.
    eapply settles_trans; [apply settles_cancel|apply settles_enter_proper].
  - unfold leave.
    destruct (settles_cancel (_enterCb st) st Hs) as [Hs' Hle'].
    destruct (leave_proper_removals vnode _ Hs') as [Hs'' Hle''].
    split; [done|lia].
  - apply Hsettles, settles_invoke.
  - apply Hsettles. unfold next_frame.
    destruct (callbacks st !! r) as [cb|]; [|apply settles_refl]. cbv zeta.
    eapply settles_trans; [by apply (settles_log [RemoveTransitionClass (startClass cb)])|].
    apply settles_if; [apply settles_refl|].
    eapply settles_trans; [by apply (settles_log [AddTransitionClass (toClass cb)])|].
    apply settles_if; [apply settles_refl|].
    destruct (explicitDuration cb); by apply settles_log.
  - apply Hsettles. destruct (callbacks st !! r) as [cb|] eqn:Hr; [|apply settles_refl].
    destruct (direction cb); [|apply settles_refl].
    unfold inserted. rewrite Hr. apply settles_call_with_done.
  - apply Hsettles. destruct (callbacks st !! r) as [cb|] eqn:Hr; [|apply settles_refl].
    destruct (direction cb); [apply settles_refl|]. apply settles_performLeave.
Qed.

Lemma run_removals steps : ∀ st,
  sole_leave st →
  let st' := run isIE9 production steps st in
  sole_leave st' ∧
  removals st' + leave_pending st' ≤
  removals st + leave_pending st + length (filter (λ e, is_leave e = true) steps).
Proof.
  induction steps as [|e steps IH]; intros st Hs; cbv zeta.
  - split; [done|]. cbn. lia.
  - change (run isIE9 production (e :: steps) st)
      with (run isIE9 production steps (step isIE9 production e st)).
    destruct (step_removals e st Hs) as [Hs1 Hle1].
    destruct (IH _ Hs1) as [Hs2 Hle2]. split; [done|].
    destruct (is_leave e) eqn:He.
    + rewrite filter_cons_True by done. cbn [length]. lia.
    + rewrite filter_cons_False by (by rewrite He). lia.
Qed.

End removals.

(** An element is never taken out twice for one leave.  Whatever happens
    to an element (calls of [enter] and [leave], completion callbacks
    called any number of times by whoever holds them, frames, insert
    hooks, delayed leaves), [rm] has been called at most as often as
    [leave]; and while a leave callback is pending, at least one call of
    [leave] has not led to a call of [rm] yet. *)
Theorem rm_at_most_once_per_leave (isIE9 production : bool) (steps : list Step)
    (nodeType_ : nat) (parent : bool) :
  let st := run isIE9 production steps (created nodeType_ parent) in
  removals st + leave_pending st ≤ length (filter (λ e, is_leave e = true) steps).
Proof.
  cbv zeta.
  destruct (run_removals isIE9 production steps (created nodeType_ parent)) as [_ Hle].
  { intros r cb Hr. unfold created in Hr. cbn in Hr. by rewrite lookup_empty in Hr. }
  exact Hle.
Qed.

End TransitionFacts.

(** ** [transition-group]: the render function *)
Module TransitionGroupFacts.
Import TransitionGroup.

Lemma written_refl td heap : written td heap heap.
Proof. intros r. destruct (heap !! r); [|done]. repeat split; by left. Qed.

Lemma written_lookup td heap H r c' :
  written td heap H → H !! r = Some c' →
  ∃ c, heap !! r = Some c ∧ tag c' = tag c ∧ key c' = key c ∧ elm c' = elm c ∧
       (c' = c ∨ (keyed_element heap r = true ∧
                  ∃ d, data c' = Some d ∧ transition d = Some td)).
Proof.
  intros Hw Hr. specialize (Hw r). rewrite Hr in Hw.
  destruct (heap !! r) as [c|]; [|done]. by exists c.
Qed.

Lemma written_insert td heap H r c' c'' d :
  written td heap H → H !! r = Some c' →
  keyed_element heap r = true →
  tag c'' = tag c' → key c'' = key c' → elm c'' = elm c' →
  data c'' = Some d → transition d = Some td →
  written td heap (<[r := c'']> H).
Proof.
  intros Hw Hr Hk Ht Hkey He Hd Htd r'.
  destruct (decide (r = r')) as [<-|Hne].
  - rewrite lookup_insert_eq.
    destruct (written_lookup _ _ _ _ _ Hw Hr) as (c & -> & ? & ? & ? & _).
    repeat split; [congruence..|]. right. eauto.
  - rewrite lookup_insert_ne by done. apply Hw.
Qed.

Lemma marked_insert td H r c d r' :
  data c = Some d → transition d = Some td →
  marked td H r' → marked td (<[r := c]> H) r'.
Proof.
  intros Hd Htd (c' & d' & Hr' & Hd' & Htd'). unfold marked.
  destruct (decide (r = r')) as [<-|Hne].
  - rewrite lookup_insert_eq. eauto.
  - rewrite lookup_insert_ne by done. eauto.
Qed.

Lemma keyed_element_written td heap H r c' :
  written td heap H → H !! r = Some c' →
  keyed_element heap r = truthy (tag c') && keyed (key c').
Proof.
  intros Hw Hr.
  destruct (written_lookup _ _ _ _ _ Hw Hr) as (c & Hc & -> & -> & _).
  unfold keyed_element. by rewrite Hc.
Qed.

Lemma warning_for_written td heap H r c' :
  written td heap H → H !! r = Some c' →
  warning_for heap r =
    if truthy (tag c') && negb (keyed (key c')) then Some (must_be_keyed c') else None.
Proof.
  intros Hw Hr.
  destruct (written_lookup _ _ _ _ _ Hw Hr) as (c & Hc & Ht & Hk & _ & Hsame).
  unfold warning_for. rewrite Hc, <- Ht, <- Hk.
  destruct (truthy (tag c') && negb (keyed (key c'))) eqn:Hcond; [|done].
  destruct Hsame as [->|[Hkeyed _]]; [done|].
  unfold keyed_element in Hkeyed. rewrite Hc, <- Ht, <- Hk in Hkeyed.
  destruct (truthy (tag c')), (keyed (key c')); done.
Qed.

Section loops.
Context (production : bool) (rect : nat → Rect) (td : nat) (heap : Heap).

Lemma warnings_for_cons r l :
  warnings_for production heap (r :: l) =
  warnings_for production heap [r] ++ warnings_for production heap l.
Proof.
  unfold warnings_for. destruct production; [done|]. simpl.
  by destruct (warning_for heap r).
Qed.

Lemma visit_raw_step p r :
  written td heap (p_heap p) →
  (∀ r, r ∈ p_children p → marked td (p_heap p) r) →
  is_Some (heap !! r) →
  let p' := visit_raw production td p r in
  written td heap (p_heap p') ∧
  (∀ r, r ∈ p_children p' → marked td (p_heap p') r) ∧
  p_children p' = p_children p ++ filter (λ r, keyed_element heap r = true) [r] ∧
  p_warnings p' = p_warnings p ++ warnings_for production heap [r].
Proof.
  intros Hw Hm [c Hc]. cbv zeta.
  assert (is_Some (p_heap p !! r)) as [c' Hr].
  { specialize (Hw r). rewrite Hc in Hw.
    destruct (p_heap p !! r); [by eexists|done]. }
  pose proof (keyed_element_written _ _ _ _ _ Hw Hr) as Hk.
  pose proof (warning_for_written _ _ _ _ _ Hw Hr) as Hwarn.
  unfold visit_raw, warnings_for. rewrite Hr. simpl omap. rewrite Hwarn.
  destruct (truthy (tag c')) eqn:Htag; cbn [andb negb] in *.
  - destruct (keyed (key c')) eqn:Hkey; cbn [negb p_heap p_children p_warnings].
    + rewrite filter_cons_True by done. split_and!.
      * by eapply written_insert.
      * intros r0 [Hin| ->%list_elem_of_singleton]%elem_of_app.
        -- eapply marked_insert; [done..|by apply Hm].
        -- exists (with_transition td c'). eexists. by rewrite lookup_insert_eq.
      * done.
      * destruct production; by rewrite app_nil_r.
    + rewrite filter_cons_False by (by rewrite Hk).
      destruct production; cbn [p_heap p_children p_warnings];
        rewrite ?app_nil_r; done.
  - rewrite filter_cons_False by (by rewrite Hk).
    destruct production; rewrite ?app_nil_r; done.
Qed.

Lemma first_loop l : ∀ p,
  written td heap (p_heap p) →
  (∀ r, r ∈ p_children p → marked td (p_heap p) r) →
  (∀ r, r ∈ l → is_Some (heap !! r)) →
  let p' := foldl (visit_raw production td) p l in
  written td heap (p_heap p') ∧
  (∀ r, r ∈ p_children p' → marked td (p_heap p') r) ∧
  p_children p' = p_children p ++ filter (λ r, keyed_element heap r = true) l ∧
  p_warnings p' = p_warnings p ++ warnings_for production heap l.
Proof.
  induction l as [|r l IH]; intros p Hw Hm Hall; cbn [foldl].
  - unfold warnings_for. rewrite !app_nil_r.
    destruct production; rewrite ?app_nil_r; done.
  - destruct (visit_raw_step p r Hw Hm) as (Hw1 & Hm1 & Hc1 & Hwn1);
      [apply Hall; left|].
    destruct (IH _ Hw1 Hm1) as (Hw2 & Hm2 & Hc2 & Hwn2);
      [intros; apply Hall; by right|].
    split_and!; [done|done|..].
    + rewrite Hc2, Hc1, <- app_assoc. f_equal.
      change (r :: l) with ([r] ++ l). by rewrite filter_app.
    + rewrite Hwn2, Hwn1, <- app_assoc. f_equal.
      by rewrite (warnings_for_cons r l).
Qed.

Lemma visit_prev_step map s r :
  written td heap (s_heap s) →
  (∃ c d e, heap !! r = Some c ∧ truthy (tag c) = true ∧ keyed (key c) = true ∧
            data c = Some d ∧ elm c = Some e) →
  ∃ s', visit_prev rect td map (Ok s) r = Ok s' ∧
        written td heap (s_heap s') ∧
        (∀ r', marked td (s_heap s) r' → marked td (s_heap s') r').
Proof.
  intros Hw (c & d & e & Hc & Htag & Hkey & Hd & He).
  assert (keyed_element heap r = true) as Hk.
  { unfold keyed_element. by rewrite Hc, Htag, Hkey. }
  assert (∃ c' d', s_heap s !! r = Some c' ∧ data c' = Some d' ∧ elm c' = Some e)
    as (c' & d' & Hr & Hd' & He').
  { pose proof (Hw r) as Hwr. rewrite Hc in Hwr.
    destruct (s_heap s !! r) as [c'|]; [|done].
    destruct Hwr as (_ & _ & Helm & [->|(_ & d' & Hd' & _)]).
    - exists c, d. done.
    - exists c', d'. split_and!; [done|done|congruence]. }
  unfold visit_prev. rewrite Hr, Hd', He'.
  set (c'' := {| tag := tag c'; key := key c';
                 data := Some {| transition := Some td; pos := Some (rect e) |};
                 elm := Some e; componentOptions := componentOptions c' |}).
  assert (written td heap (<[r := c'']> (s_heap s))) as Hw'.
  { by eapply (written_insert td heap (s_heap s) r c' c''). }
  assert (∀ r', marked td (s_heap s) r' → marked td (<[r := c'']> (s_heap s)) r') as Hm'.
  { intros r'. by eapply marked_insert. }
  destruct (map !! String_ (key c')); eexists; (split; [reflexivity|]); done.
Qed.

Lemma second_loop map l : ∀ s,
  written td heap (s_heap s) →
  (∀ r, r ∈ l →
     ∃ c d e, heap !! r = Some c ∧ truthy (tag c) = true ∧ keyed (key c) = true ∧
              data c = Some d ∧ elm c = Some e) →
  ∃ s', foldl (visit_prev rect td map) (Ok s) l = Ok s' ∧
        written td heap (s_heap s') ∧
        (∀ r', marked td (s_heap s) r' → marked td (s_heap s') r').
Proof.
  induction l as [|r l IH]; intros s Hw Hall; cbn [foldl].
  - exists s. done.
  - destruct (visit_prev_step map s r Hw) as (s1 & -> & Hw1 & Hm1);
      [apply Hall; left|].
    destruct (IH s1 Hw1) as (s2 & -> & Hw2 & Hm2); [intros; apply Hall; by right|].
    exists s2. split_and!; [done..|]. auto.
Qed.

End loops.

(** C10.  When [render] is called on an instance whose previous children
    have been patched, it completes, and: the children of the VNode it
    returns are the element children of the slot that carry a usable key,
    in slot order; an element child whose key is [null] or [undefined], or
    whose key as a string starts with [__vlist], is not among them and its
    VNode is left exactly as it was (no transition data is written to it);
    for each such child a warning is reported in a development build and
    nothing at all in a production build; and every child that is kept
    has the extracted transition data in [data.transition]. *)
Theorem render_drops_unkeyed (production : bool) (rect : nat → Rect) (td : nat)
    (this : Instance) (heap : Heap) :
  patched heap this →
  slot_allocated heap this →
  ∃ out,
    render production rect td this heap = Ok out ∧
    out_children out =
      filter (λ r, keyed_element heap r = true) (default [] (slot_default this)) ∧
    (∀ r, r ∈ default [] (slot_default this) → unkeyed_element heap r →
          (r ∉ out_children out) ∧ out_heap out !! r = heap !! r) ∧
    (∀ r, r ∈ out_children out → marked td (out_heap out) r) ∧
    out_warnings out = warnings_for production heap (default [] (slot_default this)).
Proof.
  intros Hprev Hslot. unfold render. cbv zeta.
  set (raw := default [] (slot_default this)) in *.
  destruct (first_loop production td heap raw
              {| p_children := []; p_map := ∅; p_heap := heap; p_warnings := [] |})
    as (Hw & Hm & Hc & Hwn); [apply written_refl|by intros ? ?%elem_of_nil|done|].
  cbn [p_children p_warnings app] in Hc, Hwn.
  set (first := foldl _ _ raw) in *.
  assert (∀ H r, written td heap H → unkeyed_element heap r → H !! r = heap !! r) as Hsame.
  { intros H r HwH (c & Hcr & Htag & Hkey). specialize (HwH r). rewrite Hcr in HwH.
    destruct (H !! r) as [c'|]; [|done].
    destruct HwH as (_ & _ & _ & [->|[Hk _]]); [done|].
    unfold keyed_element in Hk. rewrite Hcr, Htag, Hkey in Hk. done. }
  assert (∀ r, unkeyed_element heap r → r ∉ p_children first) as Hout.
  { intros r (c & Hcr & Htag & Hkey). rewrite Hc, list_elem_of_filter.
    unfold keyed_element. rewrite Hcr, Htag, Hkey. by intros [? _]. }
  destruct (children this) as [prev|] eqn:Hchildren.
  - destruct (second_loop rect td heap (p_map first) prev
                {| s_kept := []; s_removed := []; s_heap := p_heap first |})
      as (second & -> & Hw2 & Hm2); [done| |].
    { intros r Hr. apply Hprev. by rewrite Hchildren. }
    eexists. split; [reflexivity|]. cbn [out_children out_heap out_warnings].
    split_and!; [done| |by auto|done].
    intros r _ Hun. split; [by apply Hout|by apply Hsame].
  - eexists. split; [reflexivity|]. cbn [out_children out_heap out_warnings].
    split_and!; [done| |done|done].
    intros r _ Hun. split; [by apply Hout|by apply Hsame].
Qed.

Lemma render_drops_unkeyed_witness :
  ∃ out,
    render false (λ _, {| left := 0; top := 0 |}) 7 later_render patched_items = Ok out ∧
    out_children out =
      filter (λ r, keyed_element patched_items r = true)
        (default [] (slot_default later_render)) ∧
    (∀ r, r ∈ default [] (slot_default later_render) →
          unkeyed_element patched_items r →
          (r ∉ out_children out) ∧ out_heap out !! r = patched_items !! r) ∧
    (∀ r, r ∈ out_children out → marked 7 (out_heap out) r) ∧
    out_warnings out =
      warnings_for false patched_items (default [] (slot_default later_render)).
Proof.
  apply (render_drops_unkeyed false (λ _, {| left := 0; top := 0 |}) 7
           later_render patched_items).
  - intros r Hr. simpl in Hr. apply list_elem_of_singleton in Hr as ->.
    vm_compute. eauto 10.
  - intros r Hr. simpl in Hr. set_unfold in Hr.
    destruct Hr as [->|[->|[->|[]]]]; vm_compute; eauto.
Defined.

(** The first render of the example list keeps item 1 alone, in a
    development build with two warnings and in a production build with
    none; the text node is skipped silently. *)
Example first_render_keeps_keyed :
  match render false (λ _, {| left := 0; top := 0 |}) 7 first_render list_items,
        render true (λ _, {| left := 0; top := 0 |}) 7 first_render list_items with
  | Ok dev, Ok prod =>
      out_children dev = [1] ∧
      out_warnings dev = ["<transition-group> children must be keyed: <li>";
                          "<transition-group> children must be keyed: <li>"] ∧
      out_children prod = [1] ∧
      out_warnings prod = []
  | _, _ => False
  end.
Proof. vm_compute. repeat split; reflexivity. Qed.

(** *** The previous children: kept and removed *)

Lemma existsb_elem {A} (f : A → bool) (l : list A) :
  existsb f l = true ↔ ∃ x, x ∈ l ∧ f x = true.
Proof.
  induction l as [|y l IH]; cbn.
  - split; [done|]. intros (x & Hx & _). by apply elem_of_nil in Hx.
  - rewrite orb_true_iff, IH. split.
    + intros [?|(x & ? & ?)]; [exists y; split; [left|done]|exists x; split; [by right|done]].
    + intros (x & [->|?]%elem_of_cons & ?); [by left|right; by exists x].
Qed.

Section previous.
Context (production : bool) (rect : nat → Rect) (td : nat) (heap : Heap).

Lemma key_of_written H r :
  written td heap H → key_of H r = key_of heap r.
Proof.
  intros Hw. specialize (Hw r). unfold key_of.
  destruct (heap !! r) as [c|], (H !! r) as [c'|]; try done.
  destruct Hw as (_ & Hk & _). cbn. by rewrite Hk.
Qed.

Lemma visit_raw_map p r :
  written td heap (p_heap p) →
  is_Some (heap !! r) →
  let p' := visit_raw production td p r in
  written td heap (p_heap p') ∧
  ∀ k, is_Some (p_map p' !! k) ↔
       is_Some (p_map p !! k) ∨
       (keyed_element heap r = true ∧ key_of heap r = Some k).
Proof.
  intros Hw [c Hc]. cbv zeta.
  assert (is_Some (p_heap p !! r)) as [c' Hr].
  { specialize (Hw r). rewrite Hc in Hw.
    destruct (p_heap p !! r); [by eexists|done]. }
  pose proof (keyed_element_written _ _ _ _ _ Hw Hr) as Hk.
  pose proof (key_of_written _ r Hw) as Hkey. unfold key_of in Hkey at 1.
  rewrite Hr in Hkey. cbn in Hkey.
  unfold visit_raw. rewrite Hr.
  destruct (truthy (tag c')) eqn:Htag; cbn [andb] in Hk.
  - destruct (keyed (key c')) eqn:Hkeyed; cbn [p_heap p_map].
    + split; [by eapply written_insert|].
      intros k. destruct (decide (k = String_ (key c'))) as [->|Hne].
      * rewrite lookup_insert_eq. split; [|by eexists]. intros _. right. done.
      * rewrite lookup_insert_ne by done. split; [by left|].
        intros [?|[_ Heq]]; [done|]. congruence.
    + destruct production; cbn [p_heap p_map]; (split; [done|]);
        intros k; (split; [by left|]); intros [?|[? _]]; done || congruence.
  - split; [done|]. intros k. split; [by left|]. intros [?|[? _]]; [done|congruence].
Qed.

Lemma first_loop_map l : ∀ p,
  written td heap (p_heap p) →
  (∀ r, r ∈ l → is_Some (heap !! r)) →
  let p' := foldl (visit_raw production td) p l in
  ∀ k, is_Some (p_map p' !! k) ↔
       is_Some (p_map p !! k) ∨
       ∃ r, r ∈ l ∧ keyed_element heap r = true ∧ key_of heap r = Some k.
Proof.
  induction l as [|r l IH]; intros p Hw Hall; cbv zeta.
  - intros k. split; [by left|]. intros [?|(r & Hr & _)]; [done|].
    by apply elem_of_nil in Hr.
  - cbn [foldl].
    destruct (visit_raw_map p r Hw) as (Hw' & Hstep); [apply Hall; left|].
    intros k. rewrite (IH _ Hw'), Hstep by (intros r' Hr'; apply Hall; by right).
    split.
    + intros [[?|[? ?]]|(r' & ? & ? & ?)]; [by left|right..].
      * exists r. split_and!; [left|done|done].
      * exists r'. split_and!; [by right|done|done].
    + intros [?|(r' & [->|?]%elem_of_cons & ? & ?)]; [by left; left|by left; right|].
      right. by exists r'.
Qed.

Lemma positioned_insert H r c r' :
  (r' = r → positioned rect td (<[r := c]> H) r) →
  positioned rect td H r' → positioned rect td (<[r := c]> H) r'.
Proof.
  intros Hsame Hp. destruct (decide (r' = r)) as [->|Hne]; [by apply Hsame|].
  destruct Hp as (c0 & d & e & ? & ?). exists c0, d, e. by rewrite lookup_insert_ne.
Qed.

Lemma visit_prev_sorts map s r :
  written td heap (s_heap s) →
  (∃ c d e, heap !! r = Some c ∧ truthy (tag c) = true ∧ keyed (key c) = true ∧
            data c = Some d ∧ elm c = Some e) →
  ∃ s', visit_prev rect td map (Ok s) r = Ok s' ∧
        written td heap (s_heap s') ∧
        s_kept s' = s_kept s ++ filter (λ r, in_map map heap r = true) [r] ∧
        s_removed s' = s_removed s ++ filter (λ r, in_map map heap r = false) [r] ∧
        positioned rect td (s_heap s') r ∧
        (∀ r', positioned rect td (s_heap s) r' → positioned rect td (s_heap s') r').
Proof.
  intros Hw (c & d & e & Hc & Htag & Hkey & Hd & He).
  assert (keyed_element heap r = true) as Hk.
  { unfold keyed_element. by rewrite Hc, Htag, Hkey. }
  assert (∃ c' d', s_heap s !! r = Some c' ∧ data c' = Some d' ∧ elm c' = Some e ∧
                   key c' = key c)
    as (c' & d' & Hr & Hd' & He' & Hk').
  { pose proof (Hw r) as Hwr. rewrite Hc in Hwr.
    destruct (s_heap s !! r) as [c'|]; [|done].
    destruct Hwr as (_ & Hkk & Helm & [->|(_ & d' & Hd' & _)]).
    - exists c, d. done.
    - exists c', d'. split_and!; [done|done|congruence|done]. }
  unfold visit_prev. rewrite Hr, Hd', He'.
  set (c'' := {| tag := tag c'; key := key c';
                 data := Some {| transition := Some td; pos := Some (rect e) |};
                 elm := Some e; componentOptions := componentOptions c' |}).
  assert (written td heap (<[r := c'']> (s_heap s))) as Hw'.
  { by eapply (written_insert td heap (s_heap s) r c' c''). }
  assert (positioned rect td (<[r := c'']> (s_heap s)) r) as Hpos.
  { exists c'', {| transition := Some td; pos := Some (rect e) |}, e.
    by rewrite lookup_insert_eq. }
  assert (∀ r', positioned rect td (s_heap s) r' →
                positioned rect td (<[r := c'']> (s_heap s)) r') as Hkeep.
  { intros r'. by apply positioned_insert. }
  assert (in_map map heap r = bool_decide (is_Some (map !! String_ (key c')))) as Hin.
  { unfold in_map, key_of. rewrite Hc. cbn. by rewrite Hk'. }
  destruct (map !! String_ (key c')) as [x|] eqn:Hm; eexists; (split; [reflexivity|]);
    cbn [s_kept s_removed s_heap].
  - rewrite filter_cons_True, filter_cons_False, filter_nil, app_nil_r;
      [done|by rewrite Hin, bool_decide_eq_true_2|by rewrite Hin, bool_decide_eq_true_2].
  - assert (in_map map heap r = false) as Hf.
    { rewrite Hin. apply bool_decide_eq_false_2. by intros [? ?]. }
    rewrite filter_cons_False, filter_cons_True, filter_nil, app_nil_r;
      [done|done|by rewrite Hf].
Qed.

Lemma second_loop_sorts map l : ∀ s,
  written td heap (s_heap s) →
  (∀ r, r ∈ l →
     ∃ c d e, heap !! r = Some c ∧ truthy (tag c) = true ∧ keyed (key c) = true ∧
              data c = Some d ∧ elm c = Some e) →
  ∃ s', foldl (visit_prev rect td map) (Ok s) l = Ok s' ∧
        s_kept s' = s_kept s ++ filter (λ r, in_map map heap r = true) l ∧
        s_removed s' = s_removed s ++ filter (λ r, in_map map heap r = false) l ∧
        (∀ r, r ∈ l → positioned rect td (s_heap s') r) ∧
        (∀ r', positioned rect td (s_heap s) r' → positioned rect td (s_heap s') r').
Proof.
  induction l as [|r l IH]; intros s Hw Hl.
  - exists s. split_and!; try done; rewrite ?app_nil_r; try done.
    intros r Hr. by apply elem_of_nil in Hr.
  - destruct (visit_prev_sorts map s r Hw) as (s1 & Hs1 & Hw1 & Hk1 & Hr1 & Hp1 & Hkeep1).
    { apply Hl. left. }
    destruct (IH s1 Hw1) as (s' & Hs' & Hk' & Hr' & Hp' & Hkeep').
    { intros r' Hr'. apply Hl. by right. }
    exists s'. cbn [foldl]. rewrite Hs1. split_and!; [done| | | |by auto].
    + rewrite Hk', Hk1, <- app_assoc. f_equal.
      by rewrite <- filter_app.
    + rewrite Hr', Hr1, <- app_assoc. f_equal.
      by rewrite <- filter_app.
    + intros r' [->|Hin]%elem_of_cons; [by apply Hkeep'|by apply Hp'].
Qed.

End previous.

(** What [render] does with the children of the previous render.  Each
    of them is given the transition data and, in [data.pos], the
    rectangle of its element; those whose key, as a string, is the key of
    a child of this render are [kept] and the others are [removed], in
    both cases in the order they had, so that the two lists together
    hold every previous child once. *)
Theorem render_sorts_previous_children (production : bool) (rect : nat → Rect)
    (td : nat) (this : Instance) (heap : Heap) (prev : list nat) :
  patched heap this →
  slot_allocated heap this →
  children this = Some prev →
  ∃ out tag_ kept_,
    render production rect td this heap = Ok out ∧
    prevChildren (out_this out) = Some prev ∧
    kept (out_this out) = Some (tag_, kept_) ∧
    kept_ = filter (λ r, has_key_of heap (out_children out) r = true) prev ∧
    removed (out_this out) =
      filter (λ r, has_key_of heap (out_children out) r = false) prev ∧
    (∀ r, r ∈ prev → positioned rect td (out_heap out) r).
Proof.
  intros Hprev Hslot Hchildren. unfold render. cbv zeta. rewrite Hchildren.
  set (raw := default [] (slot_default this)) in *.
  set (p0 := {| p_children := []; p_map := ∅; p_heap := heap; p_warnings := [] |}).
  destruct (first_loop production td heap raw p0)
    as (Hw & _ & Hc & _); [apply written_refl|by intros ? ?%elem_of_nil|done|].
  pose proof (first_loop_map production td heap raw p0 (written_refl td heap) Hslot) as Hmap.
  cbv zeta in Hmap. cbn [p_children app p0] in Hc.
  set (first := foldl _ p0 raw) in *.
  destruct (second_loop_sorts rect td heap (p_map first) prev
              {| s_kept := []; s_removed := []; s_heap := p_heap first |})
    as (second & -> & Hk & Hr & Hp & _); [done| |].
  { intros r Hr. apply Hprev. by rewrite Hchildren. }
  cbn [s_kept s_removed app] in Hk, Hr.
  assert (∀ r, in_map (p_map first) heap r = has_key_of heap (p_children first) r) as Hsame.
  { intros r. unfold in_map, has_key_of.
    destruct (key_of heap r) as [k|] eqn:Hkr.
    - apply eq_true_iff_eq. rewrite bool_decide_eq_true, Hmap.
      cbn [p_map p0]. rewrite existsb_elem, Hc.
      split.
      + intros [[? Hx]|(r' & Hr' & Hkeyed & Hk')]; [by rewrite lookup_empty in Hx|].
        exists r'. split; [|by rewrite bool_decide_eq_true].
        apply list_elem_of_filter. done.
      + intros (r' & Hin & Heq%bool_decide_eq_true).
        apply list_elem_of_filter in Hin as [Hkeyed Hr'].
        right. by exists r'.
    - symmetry. apply not_true_iff_false. rewrite existsb_elem.
      intros (r' & Hin & Heq%bool_decide_eq_true).
      rewrite Hc in Hin. apply list_elem_of_filter in Hin as [Hkeyed _].
      unfold keyed_element, key_of in *. by destruct (heap !! r'). }
  eexists _, _, _. split; [reflexivity|].
  cbn [out_this out_children out_heap prevChildren kept removed].
  split_and!; [done|reflexivity| | |done].
  - rewrite Hk. apply list_filter_iff. intros r. by rewrite Hsame.
  - rewrite Hr. apply list_filter_iff. intros r. by rewrite Hsame.
Qed.

Lemma render_sorts_previous_children_witness :
  ∃ out tag_ kept_,
    render false (λ _, {| left := 0; top := 0 |}) 7 later_render patched_items = Ok out ∧
    prevChildren (out_this out) = Some [1] ∧
    kept (out_this out) = Some (tag_, kept_) ∧
    kept_ = filter (λ r, has_key_of patched_items (out_children out) r = true) [1] ∧
    removed (out_this out) =
      filter (λ r, has_key_of patched_items (out_children out) r = false) [1] ∧
    (∀ r, r ∈ [1] →
          positioned (λ _, {| left := 0; top := 0 |}) 7 (out_heap out) r).
Proof.
  apply (render_sorts_previous_children false (λ _, {| left := 0; top := 0 |}) 7
           later_render patched_items [1]).
  - intros r Hr. apply list_elem_of_singleton in Hr as ->.
    by eexists _, _, _.
  - intros r Hr. repeat (apply elem_of_cons in Hr as [->|Hr]); [..|by apply elem_of_nil in Hr];
      by eexists.
  - reflexivity.
Defined.

End TransitionGroupFacts.

(** ** Slot content *)
Module SlotsFacts.
Import Slots.

Lemma delete_slot_attr_keeps child :
  let child' := delete_slot_attr child in
  tag child' = tag child ∧ children child' = children child ∧
  text child' = text child ∧ isComment child' = isComment child ∧
  asyncFactory child' = asyncFactory child ∧
  context child' = context child ∧ fnContext child' = fnContext child ∧
  data child' ≫= slot = data child ≫= slot ∧
  has_slot_attr child' = false.
Proof.
  cbv zeta. unfold delete_slot_attr, has_slot_attr.
  destruct child as [t [[[a|] s]|] c x ic af cx fc]; cbn; try done.
  destruct (a !! "slot") as [v|] eqn:Ha; cbn; [|by rewrite Ha].
  case_bool_decide as Hv; cbn.
  - rewrite Ha. by rewrite bool_decide_eq_true_2.
  - by rewrite lookup_delete_eq.
Qed.

Lemma delete_slot_attr_idem child :
  delete_slot_attr (delete_slot_attr child) = delete_slot_attr child.
Proof.
  unfold delete_slot_attr.
  destruct child as [t [[[a|] s]|] c x ic af cx fc]; cbn; try done.
  destruct (a !! "slot") as [v|] eqn:Ha; cbn; [|by rewrite Ha].
  case_bool_decide as Hv; cbn.
  - rewrite Ha. by rewrite bool_decide_eq_true_2.
  - by rewrite lookup_delete_eq.
Qed.


Lemma delete_slot_attr_none child :
  has_slot_attr child = false → delete_slot_attr child = child.
Proof.
  unfold delete_slot_attr, has_slot_attr.
  destruct child as [t [[[a|] s]|] c x ic af cx fc]; cbn; try done.
  destruct (a !! "slot") as [v|]; [|done].
  by intros ->%negb_false_iff.
Qed.

Lemma slot_name_delete ctx child :
  slot_name ctx (delete_slot_attr child) = slot_name ctx child.
Proof.
  destruct (delete_slot_attr_keeps child) as (_ & _ & _ & _ & _ & Hc & Hf & Hs & _).
  unfold slot_name. by rewrite Hc, Hf, Hs.
Qed.

Lemma pushed_delete ctx r child :
  pushed ctx r (delete_slot_attr child) = pushed ctx r child.
Proof.
  destruct (delete_slot_attr_keeps child) as (Ht & Hch & _ & _ & _ & Hc & Hf & Hs & _).
  unfold pushed, is_template. by rewrite Hc, Hf, Hs, Ht, Hch.
Qed.

Lemma isWhitespace_delete child :
  isWhitespace (delete_slot_attr child) = isWhitespace child.
Proof.
  destruct (delete_slot_attr_keeps child) as (_ & _ & Ht & Hi & Ha & _).
  unfold isWhitespace. by rewrite Ht, Hi, Ha.
Qed.

Lemma visited_refl heap : visited heap heap.
Proof. intros r. by left. Qed.

Lemma visited_lookup heap H r child' :
  visited heap H → H !! r = Some child' →
  ∃ child, heap !! r = Some child ∧
           delete_slot_attr child' = delete_slot_attr child ∧
           ∀ ctx, slot_name ctx child' = slot_name ctx child ∧
                  pushed ctx r child' = pushed ctx r child.
Proof.
  intros Hv Hr. destruct (Hv r) as [Heq|Heq]; rewrite Hr in Heq.
  - exists child'. by split_and!.
  - destruct (heap !! r) as [child|]; [|done]. cbn in Heq. injection Heq as ->.
    exists child. split_and!; [done|apply delete_slot_attr_idem|].
    intros ctx. split; [apply slot_name_delete|apply pushed_delete].
Qed.

Lemma visited_whitespace heap H r :
  visited heap H →
  from_option isWhitespace false (H !! r) = from_option isWhitespace false (heap !! r).
Proof.
  intros Hv. destruct (Hv r) as [->| ->]; [done|].
  destruct (heap !! r); [|done]. cbn. apply isWhitespace_delete.
Qed.

Lemma visited_insert heap H r child :
  visited heap H → heap !! r = Some child →
  visited heap (<[r := delete_slot_attr child]> H).
Proof.
  intros Hv Hr r'. destruct (decide (r' = r)) as [->|Hne].
  - right. by rewrite lookup_insert_eq, Hr.
  - rewrite lookup_insert_ne by done. apply Hv.
Qed.

Lemma content_cons heap ctx name r cs child :
  heap !! r = Some child →
  content heap ctx name (r :: cs) =
    (if bool_decide (slot_name ctx child = name) then pushed ctx r child else []) ++
    content heap ctx name cs.
Proof. intros Hr. unfold content. cbn. by rewrite Hr. Qed.

(** The loop over [children]. *)
Lemma visit_loop inherited ctx heap cs : ∀ slots H,
  visited heap H →
  allocated heap cs →
  plain_names inherited heap ctx cs →
  ∃ slots' H',
    foldl (visit inherited ctx) (Ok (slots, H)) cs = Ok (slots', H') ∧
    (∀ name, default [] (slots' !! name) =
             default [] (slots !! name) ++ content heap ctx name cs) ∧
    visited heap H' ∧
    (∀ r, r ∈ cs → H' !! r = delete_slot_attr <$> heap !! r) ∧
    (∀ r, r ∉ cs → H' !! r = H !! r).
Proof.
  induction cs as [|r cs IH]; intros slots H Hv Hall Hplain.
  - exists slots, H. split_and!; try done.
    + intros name. by rewrite app_nil_r.
    + intros r Hr. by apply elem_of_nil in Hr.
  - destruct (Hall r) as [child Hchild]; [left|].
    destruct (H !! r) as [child'|] eqn:Hr.
    2: { destruct (Hv r) as [Heq|Heq]; rewrite Hr, Hchild in Heq; done. }
    destruct (visited_lookup heap H r child' Hv Hr) as (c & Hc & Hdel & Hsame).
    rewrite Hchild in Hc. injection Hc as <-.
    destruct (Hsame ctx) as [Hname Hpushed].
    assert (inherited (slot_name ctx child) = false) as Hin
      by (eapply Hplain; [left|done]).
    cbn [foldl]. unfold visit at 2. rewrite Hr, Hname, Hpushed, Hdel.
    set (name0 := slot_name ctx child). set (items := pushed ctx r child).
    assert (∃ slots1, push_to inherited slots name0 items = Ok slots1 ∧
                      ∀ name, default [] (slots1 !! name) =
                              default [] (slots !! name) ++
                              if bool_decide (name0 = name) then items else [])
      as (slots1 & -> & Hslots1).
    { unfold push_to. fold name0 in Hin. rewrite Hin.
      destruct (slots !! name0) as [slot0|] eqn:Hs; eexists; (split; [done|]);
        intros name; case_bool_decide as Hn.
      - subst name. by rewrite lookup_insert_eq, Hs.
      - by rewrite lookup_insert_ne, app_nil_r.
      - subst name. by rewrite lookup_insert_eq, Hs.
      - by rewrite lookup_insert_ne, app_nil_r. }
    destruct (IH slots1 (<[r := delete_slot_attr child]> H)) as (slots' & H' & -> & Hc' & Hv' & Hin' & Hout').
    { by apply visited_insert. }
    { intros r' Hr'. apply Hall. by right. }
    { intros r' c' Hr' Hc''. eapply Hplain; [by right|done]. }
    exists slots', H'. split_and!; try done.
    + intros name. rewrite Hc', Hslots1, (content_cons _ _ _ _ _ _ Hchild).
      by rewrite <- app_assoc.
    + intros r' Hr'. destruct (decide (r' ∈ cs)) as [Hcs|Hcs]; [by apply Hin'|].
      apply elem_of_cons in Hr' as [->|?]; [|done].
      by rewrite Hout', lookup_insert_eq, Hchild.
    + intros r' Hr'. apply not_elem_of_cons in Hr' as [Hne Hcs].
      by rewrite Hout', lookup_insert_ne.
Qed.

Lemma only_whitespace_visited heap H l :
  visited heap H → only_whitespace H l = only_whitespace heap l.
Proof.
  intros Hv. unfold only_whitespace. induction l as [|r l IH]; [done|].
  cbn. by rewrite IH, (visited_whitespace heap H r Hv).
Qed.

Lemma drop_whitespace_lookup heap slots name :
  drop_whitespace heap slots !! name =
    if only_whitespace heap (default [] (slots !! name)) then None else slots !! name.
Proof.
  unfold drop_whitespace. rewrite map_lookup_filter.
  destruct (slots !! name) as [l|]; [|done].
  cbn [mbind option_bind default snd]. unfold id.
  destruct (only_whitespace heap l) eqn:Hw.
  - by rewrite option_guard_False.
  - by rewrite option_guard_True.
Qed.

(** What [resolveSlots] returns.  When no child goes to a slot whose name
    is a property of [Object.prototype], the call completes, and under
    every name the slot object has the nodes the children contribute to
    that slot, in the order of the children: a child that names a slot
    and was rendered in the given context contributes itself, or its own
    children if it is a [<template>], to the slot it names; any other
    child contributes itself to [default].  A slot all of whose nodes are
    whitespace (and so one without nodes) is left out.  Without children
    the slot object is empty. *)
Theorem resolveSlots_content (inherited : string → bool) (children : option (list nat))
    (ctx : option nat) (heap : Heap) :
  allocated heap (default [] children) →
  plain_names inherited heap ctx (default [] children) →
  ∃ slots heap',
    resolveSlots inherited children ctx heap = Ok (slots, heap') ∧
    ∀ name,
      slots !! name =
        let nodes := content heap ctx name (default [] children) in
        if only_whitespace heap nodes then None else Some nodes.
Proof.
  intros Hall Hplain.
  destruct children as [[|r cs]|]; cbn [default] in *; unfold id in *.
  - exists ∅, heap. split; [done|]. intros name. by rewrite lookup_empty.
  - destruct (visit_loop inherited ctx heap (r :: cs) ∅ heap (visited_refl heap) Hall Hplain)
      as (slots & H' & Hloop & Hc & Hv & _).
    unfold resolveSlots. rewrite Hloop.
    eexists _, _. split; [reflexivity|].
    intros name. cbv zeta. rewrite drop_whitespace_lookup.
    rewrite (only_whitespace_visited heap H' _ Hv), Hc, lookup_empty. cbn [default app].
    pose proof (Hc name) as Hn. rewrite lookup_empty in Hn.
    change (default [] None ++ ?l) with l in Hn.
    destruct (only_whitespace heap (content heap ctx name (r :: cs))) eqn:Hw; [done|].
    destruct (slots !! name) as [l|].
    + change (l = content heap ctx name (r :: cs)) in Hn. by rewrite Hn.
    + change ([] = content heap ctx name (r :: cs)) in Hn. by rewrite <- Hn in Hw.
  - exists ∅, heap. split; [done|]. intros name. by rewrite lookup_empty.
Qed.

Ltac each_child Hr :=
  repeat (apply elem_of_cons in Hr as [->|Hr]); [..|by apply elem_of_nil in Hr].

Lemma resolveSlots_content_witness :
  ∃ slots heap',
    resolveSlots object_prototype (Some [1; 2; 3; 4]) (Some 1) page = Ok (slots, heap') ∧
    ∀ name,
      slots !! name =
        let nodes := content page (Some 1) name (default [] (Some [1; 2; 3; 4])) in
        if only_whitespace page nodes then None else Some nodes.
Proof.
  apply (resolveSlots_content object_prototype (Some [1; 2; 3; 4]) (Some 1) page).
  - intros r Hr. each_child Hr; by eexists.
  - intros r child Hr Hc.
    each_child Hr; vm_compute in Hc; injection Hc as <-; reflexivity.
Defined.

(** The slot content of the example: the header, and the other three
    children under [default], the blank included; the [<i>] of another
    context goes to [default] although it names a slot. *)
Example page_slots :
  fst <$> (match resolveSlots object_prototype (Some [1; 2; 3; 4]) (Some 1) page with
           | Ok out => Some out | TypeError => None end) =
  Some {[ "header" := [1]; "default" := [2; 3; 4] ]}.
Proof. by vm_compute. Qed.

(** [resolveSlots] removes the [slot] attribute of the children it is
    given, and changes nothing else: after the call no child has a
    [data.attrs.slot], each child is otherwise as it was, and VNodes that
    are not among the children (the children of a [<template>], say) are
    untouched. *)
Theorem resolveSlots_deletes_slot_attrs (inherited : string → bool)
    (cs : list nat) (ctx : option nat) (heap : Heap) :
  allocated heap cs →
  plain_names inherited heap ctx cs →
  ∃ slots heap',
    resolveSlots inherited (Some cs) ctx heap = Ok (slots, heap') ∧
    (∀ r, r ∈ cs →
       ∃ child child', heap !! r = Some child ∧ heap' !! r = Some child' ∧
         has_slot_attr child' = false ∧
         tag child' = tag child ∧ children child' = children child ∧
         text child' = text child ∧ isComment child' = isComment child ∧
         context child' = context child ∧ fnContext child' = fnContext child ∧
         data child' ≫= slot = data child ≫= slot ∧
         (has_slot_attr child = false → child' = child)) ∧
    (∀ r, r ∉ cs → heap' !! r = heap !! r).
Proof.
  intros Hall Hplain.
  destruct cs as [|r0 cs].
  { exists ∅, heap. split; [done|]. split; [|done].
    intros r Hr. by apply elem_of_nil in Hr. }
  destruct (visit_loop inherited ctx heap (r0 :: cs) ∅ heap (visited_refl heap) Hall Hplain)
    as (slots & H' & Hloop & _ & _ & Hin & Hout).
  unfold resolveSlots. rewrite Hloop. eexists _, _. split; [reflexivity|].
  split; [|done].
  intros r Hr. destruct (Hall r Hr) as [child Hchild].
  exists child, (delete_slot_attr child). rewrite (Hin r Hr), Hchild.
  destruct (delete_slot_attr_keeps child) as (? & ? & ? & ? & ? & ? & ? & ? & ?).
  split_and!; try done. apply delete_slot_attr_none.
Qed.

Lemma resolveSlots_deletes_slot_attrs_witness :
  ∃ slots heap',
    resolveSlots object_prototype (Some [1; 2; 3; 4]) (Some 1) page = Ok (slots, heap') ∧
    (∀ r, r ∈ [1; 2; 3; 4] →
       ∃ child child', page !! r = Some child ∧ heap' !! r = Some child' ∧
         has_slot_attr child' = false ∧
         tag child' = tag child ∧ children child' = children child ∧
         text child' = text child ∧ isComment child' = isComment child ∧
         context child' = context child ∧ fnContext child' = fnContext child ∧
         data child' ≫= slot = data child ≫= slot ∧
         (has_slot_attr child = false → child' = child)) ∧
    (∀ r, r ∉ [1; 2; 3; 4] → heap' !! r = page !! r).
Proof.
  apply (resolveSlots_deletes_slot_attrs object_prototype [1; 2; 3; 4] (Some 1) page).
  - intros r Hr. each_child Hr; by eexists.
  - intros r child Hr Hc.
    each_child Hr; vm_compute in Hc; injection Hc as <-; reflexivity.
Defined.

Lemma visit_failed inherited ctx cs :
  foldl (visit inherited ctx) TypeError cs = TypeError.
Proof. by induction cs. Qed.

Lemma visit_loop_fails inherited ctx heap r child cs : ∀ slots H,
  visited heap H →
  allocated heap cs →
  (∀ name, inherited name = true → slots !! name = None) →
  r ∈ cs → heap !! r = Some child → inherited (slot_name ctx child) = true →
  foldl (visit inherited ctx) (Ok (slots, H)) cs = TypeError.
Proof.
  induction cs as [|r0 cs IH]; intros slots H Hv Hall Hclean Hr Hchild Hin.
  { by apply elem_of_nil in Hr. }
  destruct (Hall r0) as [c0 Hc0]; [left|].
  destruct (H !! r0) as [c0'|] eqn:Hr0.
  2: { destruct (Hv r0) as [Heq|Heq]; rewrite Hr0, Hc0 in Heq; done. }
  destruct (visited_lookup heap H r0 c0' Hv Hr0) as (c & Hc & Hdel & Hsame).
  rewrite Hc0 in Hc. injection Hc as <-.
  destruct (Hsame ctx) as [Hname Hpushed].
  cbn [foldl]. unfold visit at 2. rewrite Hr0, Hname, Hpushed, Hdel.
  unfold push_to.
  destruct (inherited (slot_name ctx c0)) eqn:Hin0.
  - rewrite (Hclean _ Hin0). apply visit_failed.
  - assert (r ∈ cs) as Hr'.
    { apply elem_of_cons in Hr as [->|?]; [|done]. congruence. }
    destruct (slots !! slot_name ctx c0) as [slot0|] eqn:Hs.
    all: apply (IH _ _ (visited_insert heap H r0 c0 Hv Hc0)); try done.
    all: try (intros r' Hr''; apply Hall; by right).
    all: intros name Hn; rewrite lookup_insert_ne by congruence; by apply Hclean.
Qed.

(** A slot named like a property of [Object.prototype] makes
    [resolveSlots] throw: [slots[name]] is then the inherited property,
    not an array, and the call of its [push] raises a [TypeError]. *)
Theorem resolveSlots_prototype_name (inherited : string → bool) (cs : list nat)
    (ctx : option nat) (heap : Heap) (r : nat) (child : VNode) :
  allocated heap cs →
  r ∈ cs →
  heap !! r = Some child →
  inherited (slot_name ctx child) = true →
  resolveSlots inherited (Some cs) ctx heap = TypeError.
Proof.
  intros Hall Hr Hchild Hin.
  destruct cs as [|r0 cs]; [by apply elem_of_nil in Hr|].
  unfold resolveSlots.
  by rewrite (visit_loop_fails inherited ctx heap r child (r0 :: cs) ∅ heap
                (visited_refl heap) Hall (λ _ _, lookup_empty _) Hr Hchild Hin).
Qed.

Lemma resolveSlots_prototype_name_witness :
  resolveSlots object_prototype (Some [1]) (Some 1) odd_name = TypeError.
Proof.
  apply (resolveSlots_prototype_name object_prototype [1] (Some 1) odd_name 1
           (element "p" (Some "toString") 1)).
  - intros r Hr. each_child Hr; by eexists.
  - left.
  - reflexivity.
  - reflexivity.
Defined.

Lemma only_whitespace_false heap l :
  only_whitespace heap l = false →
  ∃ r, r ∈ l ∧ from_option isWhitespace false (heap !! r) = false.
Proof.
  unfold only_whitespace. induction l as [|r l IH]; [done|]. cbn.
  destruct (from_option isWhitespace false (heap !! r)) eqn:Hr; cbn.
  - intros (r' & ? & ?)%IH. exists r'. split; [by right|done].
  - intros _. exists r. split; [left|done].
Qed.

(** No slot [resolveSlots] returns is blank: under every name of the
    slot object there is at least one node that is not whitespace
    (a comment that is not an async placeholder, or the text [' ']). *)
Theorem resolveSlots_no_blank_slot (inherited : string → bool)
    (children : option (list nat)) (ctx : option nat) (heap heap' : Heap)
    (slots : gmap string (list nat)) (name : string) (nodes : list nat) :
  resolveSlots inherited children ctx heap = Ok (slots, heap') →
  slots !! name = Some nodes →
  ∃ r, r ∈ nodes ∧ from_option isWhitespace false (heap' !! r) = false.
Proof.
  unfold resolveSlots. intros Hres Hn.
  destruct children as [[|r0 cs]|]; [by simplify_eq..| |by simplify_eq].
  destruct (foldl _ _ _) as [[slots0 H']|]; [|done]. simplify_eq.
  rewrite drop_whitespace_lookup in Hn.
  destruct (only_whitespace heap' (default [] (slots0 !! name))) eqn:Hw; [done|].
  rewrite Hn in Hw. by apply only_whitespace_false.
Qed.

Lemma resolveSlots_no_blank_slot_witness :
  ∃ r, r ∈ [2; 3; 4] ∧
       from_option isWhitespace false
         (match resolveSlots object_prototype (Some [1; 2; 3; 4]) (Some 1) page with
          | Ok out => out.2 | TypeError => ∅ end !! r) = false.
Proof.
  apply (resolveSlots_no_blank_slot object_prototype (Some [1; 2; 3; 4]) (Some 1) page
           _ {[ "header" := [1]; "default" := [2; 3; 4] ]} "default").
  - by vm_compute.
  - reflexivity.
Defined.

End SlotsFacts.

